(** * go-fed/activity, package [pub]: utilities and HTTP-signature transport

    A shallow embedding of [pub/util.go] and [pub/transport.go].

    Conventions of the embedding.
    - [*url.URL] is an abstract type [URL] with its [String] method; the
      source only ever compares IRIs through [String()].
    - A Go [map[string]T] is a [gmap string T].  Go's [range] over a map
      visits the entries in an unspecified order: every function that
      ranges over a map takes the visiting order as the parameter
      [range], constrained to be a permutation of the map's entries.
    - A [vocab.Type] is a tree of property values ([Value]); a property a
      Go type does not have (the interface assertion [v.(toer)] fails) is
      [Absent], a property whose getter returns nil is [Unset].
    - Values are trees without sharing, as deserialization builds them; a
      method that mutates a property in place is a function that returns
      the value with the property replaced.
    - Fallible functions return [outcome]: [Ok], [Err] (a returned
      [error]) or [Panic] (a Go run-time panic).  What a function had
      already mutated when it fails is not part of the result. *)

From Stdlib Require Import String Ascii.
From stdpp Require Import gmap strings list fin_maps pretty.
From Equations Require Import Equations.

Set Default Proof Using "Type".
Set Warnings "-register-all,-level-tolerance,-clear-no-such-hyp".
Local Open Scope list_scope.

(** ** Results of fallible code *)

Inductive outcome (A : Type) : Type :=
| Ok (a : A)
| Err (msg : string)
| Panic.
Arguments Ok {A} a.
Arguments Err {A} msg.
Arguments Panic {A}.

#[global] Instance outcome_bind : MBind outcome := fun A B f x =>
  match x with
  | Ok a => f a
  | Err e => Err e
  | Panic => Panic
  end.

#[global] Instance outcome_ret : MRet outcome := fun A a => Ok a.

Definition is_Ok {A} (x : outcome A) : Prop :=
  match x with Ok _ => True | _ => False end.

Definition is_Err {A} (x : outcome A) : Prop :=
  match x with Err _ => True | _ => False end.

(** A Go [map[string]bool] read with [m[k]]: a missing key reads [false]. *)
Definition bool_at (m : gmap string bool) (k : string) : bool :=
  default false (m !! k).

(** Remember the equation of a scrutinee in an [Equations] definition. *)
Definition inspect {A} (a : A) : {b : A | a = b} := exist _ a eq_refl.

(** ** Property slots and property elements *)

Inductive slot (A : Type) : Type :=
| Absent          (* the Go type has no such property *)
| Unset           (* the getter returns nil *)
| Prop_ (a : A).  (* the property is set *)
Arguments Absent {A}.
Arguments Unset {A}.
Arguments Prop_ {A} a.

(** One element of a non-functional property: an IRI, an embedded
    ActivityStreams value ([GetType() != nil]), or some other literal. *)
Inductive Item (U V : Type) : Type :=
| ItemIRI (u : U)
| ItemType (v : V)
| ItemOther (s : string).
Arguments ItemIRI {U V} u.
Arguments ItemType {U V} v.
Arguments ItemOther {U V} s.

(** ** Go [interface{}] values of a serialized payload *)

Inductive JSON : Type :=
| JNull
| JBool (b : bool)
| JNumber (literal : string)
| JString (s : string)
| JArray (l : list JSON)               (* []interface{} *)
| JMap (m : gmap string JSON)          (* map[string]interface{} *)
| JStringMap (m : gmap string string). (* map[string]string *)

Section ActivityStreams.

Context {URL : Type} (url_String : URL -> string).
Context {Time : Type}.

(** ** [vocab.Type] *)

Inductive Value : Type := mkValue {
  typeName : string;                          (* GetTypeName() *)
  id_ : option URL;                           (* GetActivityStreamsId() *)
  href : slot URL;                            (* hrefer *)
  to_ : slot (list (Item URL Value));         (* toer *)
  bto : slot (list (Item URL Value));         (* btoer *)
  cc : slot (list (Item URL Value));          (* ccer *)
  bcc : slot (list (Item URL Value));         (* bccer *)
  audience : slot (list (Item URL Value));    (* audiencer *)
  object : slot (list (Item URL Value));      (* objecter *)
  target : slot (list (Item URL Value));      (* targeter *)
  inReplyTo : slot (list (Item URL Value));   (* inReplyToer *)
  tag : slot (list (Item URL Value));         (* tagger *)
  actor : slot (list (Item URL Value));       (* actorer *)
  published : slot Time;                      (* publisheder *)
  updated : slot Time;                        (* updateder *)
  formerType : slot (list (Item URL Value));
  deleted : slot Time
}.

Abbreviation item := (Item URL Value).

(** [iter.GetType()] and [iter.IsIRI()]; [iter.GetIRI()] is the argument
    of [ItemIRI]. *)
Definition GetType (i : item) : option Value :=
  match i with ItemType v => Some v | _ => None end.

Definition IsIRI (i : item) : bool :=
  match i with ItemIRI _ => true | _ => false end.

(** [GetId]: the [id] property, or [href] for a Link-like type. *)
Definition GetId (t : Value) : outcome URL :=
  match id_ t with
  | Some u => Ok u
  | None =>
      match href t with
      | Prop_ h => Ok h
      | _ => Err "cannot determine id of activitystreams value"
      end
  end.

(** [ToId]: the id of a property element. *)
Definition ToId (i : item) : outcome URL :=
  match i with
  | ItemType v => GetId v
  | ItemIRI u => Ok u
  | ItemOther _ => Err "cannot determine id of activitystreams property"
  end.

(** ** [dedupeIRIs] *)

Definition ignoredMap_of (ignored : list URL) : gmap string bool :=
  foldl (fun m elem => <[url_String elem := true]> m) ∅ ignored.

Fixpoint dedupeIRIs_loop (ignoredMap outMap : gmap string bool)
    (out recipients : list URL) : list URL :=
  match recipients with
  | [] => out
  | k :: rest =>
      let kStr := url_String k in
      if negb (bool_at ignoredMap kStr) && negb (bool_at outMap kStr)
      then dedupeIRIs_loop ignoredMap (<[kStr := true]> outMap) (out ++ [k]) rest
      else dedupeIRIs_loop ignoredMap outMap out rest
  end.

Definition dedupeIRIs (recipients ignored : list URL) : list URL :=
  dedupeIRIs_loop (ignoredMap_of ignored) ∅ [] recipients.

(** ** [dedupeOrderedItems] *)

(** The id of element [i] of [orderedItems], as the loop body computes it. *)
Definition orderedItem_id (i : nat) (iter : item) : outcome URL :=
  match GetType iter with
  | Some asType => GetId asType
  | None =>
      if IsIRI iter then
        match iter with ItemIRI u => Ok u | _ => Panic end
      else
        Err ("element " +:+ pretty i +:+
             " in OrderedCollection does not have an ID nor is an IRI")
  end.

(** [for i := 0; i < oi.Len(); { ... }]: [oi.Remove(i)] is [delete i oi]. *)
Equations? dedupeOrderedItems_loop (oi : list item) (seen : gmap string bool)
    (i : nat) : outcome (list item) by wf (length oi - i) lt :=
  dedupeOrderedItems_loop oi seen i with inspect (oi !! i) := {
    | exist _ None _ := Ok oi
    | exist _ (Some it) Hi with orderedItem_id i it := {
        | Err e := Err e
        | Panic := Panic
        | Ok id with inspect (bool_at seen (url_String id)) := {
            | exist _ true _ := dedupeOrderedItems_loop (delete i oi) seen i
            | exist _ false _ :=
                dedupeOrderedItems_loop oi (<[url_String id := true]> seen) (S i)
          }
      }
  }.
Proof.
  - rewrite length_delete by eauto. apply lookup_lt_Some in Hi. lia.
  - apply lookup_lt_Some in Hi. lia.
Qed.

(** The collection's [orderedItems] property is [None] when the getter
    returns nil; the result is the property after the call. *)
Definition dedupeOrderedItems (oc : option (list item))
    : outcome (option (list item)) :=
  match oc with
  | None => Ok None
  | Some oi => oi' ← dedupeOrderedItems_loop oi ∅ 0; Ok (Some oi')
  end.

(** ** [stripHiddenRecipients] and [clearSensitiveFields] *)

(** [for i := p.Len() - 1; i >= 0; i-- { p.Remove(i) }], with [n = i + 1]. *)
Fixpoint remove_downwards {A} (n : nat) (p : list A) : list A :=
  match n with
  | O => p
  | S i => remove_downwards i (delete i p)
  end.

(** [for p.Len() > 0 { p.Remove(0) }]: removing index 0 of [_ :: p']
    leaves [p']. *)
Fixpoint remove_front {A} (p : list A) : list A :=
  match p with
  | [] => p
  | _ :: p' => remove_front p'
  end.

(** The effect of one of the two blocks on a property: nothing when the
    type lacks the property or the getter returns nil. *)
Definition strip_prop {A} (s : slot (list A)) : slot (list A) :=
  match s with
  | Prop_ p => Prop_ (remove_downwards (length p) p)
  | s => s
  end.

Definition clear_prop {A} (s : slot (list A)) : slot (list A) :=
  match s with
  | Prop_ p => Prop_ (remove_front p)
  | s => s
  end.

(** [stripHiddenRecipients]: an [Activity] always has [bto] and [bcc]. *)
Definition stripHiddenRecipients (activity : Value) : Value :=
  match activity with
  | mkValue tn i hr to b c bc au ob tg irt tag ac pu up ft de =>
      mkValue tn i hr to (strip_prop b) c (strip_prop bc) au ob tg irt tag ac
        pu up ft de
  end.

(** [clearSensitiveFields]: the value's own [bto] and [bcc], then every
    element of its [object] property; [iter.GetType()] is nil for an
    element that is not an embedded value, and the call on nil does
    nothing. *)
Fixpoint clearSensitiveFields (obj : Value) : Value :=
  match obj with
  | mkValue tn i hr to b c bc au ob tg irt tag ac pu up ft de =>
      mkValue tn i hr to (clear_prop b) c (clear_prop bc) au
        (match ob with
         | Prop_ op =>
             Prop_ (map (fun iter =>
                      match iter with
                      | ItemType v => ItemType (clearSensitiveFields v)
                      | ItemIRI u => ItemIRI u
                      | ItemOther x => ItemOther x
                      end) op)
         | Unset => Unset
         | Absent => Absent
         end)
        tg irt tag ac pu up ft de
  end.

(** ** [normalizeRecipients] *)

(** The five addressing properties; the source repeats the same block for
    each, in this order. *)
Inductive Dim : Type := DTo | DBto | DCc | DBcc | DAudience.

#[global] Instance Dim_eq_dec : EqDecision Dim.
Proof. solve_decision. Defined.

Definition dim_name (d : Dim) : string :=
  match d with
  | DTo => "to" | DBto => "bto" | DCc => "cc" | DBcc => "bcc"
  | DAudience => "audience"
  end.

(** [vocab.ActivityStreamsCreate]: the properties [normalizeRecipients]
    reads and writes; [None] is a getter that returns nil. *)
Record Create : Type := mkCreate {
  create_to : option (list item);
  create_bto : option (list item);
  create_cc : option (list item);
  create_bcc : option (list item);
  create_audience : option (list item);
  create_object : option (list item)
}.

Definition create_get (d : Dim) (a : Create) : option (list item) :=
  match d with
  | DTo => create_to a | DBto => create_bto a | DCc => create_cc a
  | DBcc => create_bcc a | DAudience => create_audience a
  end.

Definition create_set (d : Dim) (p : list item) (a : Create) : Create :=
  match a with
  | mkCreate to b c bc au ob =>
      match d with
      | DTo => mkCreate (Some p) b c bc au ob
      | DBto => mkCreate to (Some p) c bc au ob
      | DCc => mkCreate to b (Some p) bc au ob
      | DBcc => mkCreate to b c (Some p) au ob
      | DAudience => mkCreate to b c bc (Some p) ob
      end
  end.

Definition create_set_object (o : list item) (a : Create) : Create :=
  match a with
  | mkCreate to b c bc au _ => mkCreate to b c bc au (Some o)
  end.

Definition value_get (d : Dim) (v : Value) : slot (list item) :=
  match d with
  | DTo => to_ v | DBto => bto v | DCc => cc v | DBcc => bcc v
  | DAudience => audience v
  end.

Definition value_set (d : Dim) (p : list item) (v : Value) : Value :=
  match v with
  | mkValue tn i hr to b c bc au ob tg irt tag ac pu up ft de =>
      match d with
      | DTo => mkValue tn i hr (Prop_ p) b c bc au ob tg irt tag ac pu up ft de
      | DBto => mkValue tn i hr to (Prop_ p) c bc au ob tg irt tag ac pu up ft de
      | DCc => mkValue tn i hr to b (Prop_ p) bc au ob tg irt tag ac pu up ft de
      | DBcc => mkValue tn i hr to b c (Prop_ p) au ob tg irt tag ac pu up ft de
      | DAudience =>
          mkValue tn i hr to b c bc (Prop_ p) ob tg irt tag ac pu up ft de
      end
  end.

(** One map per addressing property. *)
Record recipientMaps : Type := mkMaps {
  mTo : gmap string URL;
  mBto : gmap string URL;
  mCc : gmap string URL;
  mBcc : gmap string URL;
  mAudience : gmap string URL
}.

Definition maps_get (d : Dim) (m : recipientMaps) : gmap string URL :=
  match d with
  | DTo => mTo m | DBto => mBto m | DCc => mCc m | DBcc => mBcc m
  | DAudience => mAudience m
  end.

(** [for iter := p.Begin(); ...; { id, err := ToId(iter); ...;
    m[id.String()] = id }]. *)
Fixpoint collect_ids (m : gmap string URL) (p : list item)
    : outcome (gmap string URL) :=
  match p with
  | [] => Ok m
  | iter :: rest =>
      id ← ToId iter;
      collect_ids (<[url_String id := id]> m) rest
  end.

Section Range.

(** The order in which [range] visits a map. *)
Variable range : gmap string URL -> list (string * URL).

(** [for k, v := range from { if _, ok := present[k]; !ok { p.AppendIRI(v) } }] *)
Definition append_missing (from present : gmap string URL) (p : list item)
    : list item :=
  foldl (fun (p : list item) (kv : string * URL) =>
           match present !! kv.1 with
           | Some _ => p
           | None => p ++ [ItemIRI kv.2]
           end) p (range from).

(** Phase 0 for one property of the activity. *)
Definition activity_recipients (d : Dim) (a : Create)
    : outcome (Create * gmap string URL) :=
  let '(a, actorD) :=
    match create_get d a with
    | None => (create_set d [] a, [])
    | Some p => (a, p)
    end in
  m ← collect_ids ∅ actorD;
  Ok (a, m).

(** Phase 1 for one property of the object at index [i]. *)
Definition object_recipients (d : Dim) (i : nat) (iter : item)
    : outcome (item * gmap string URL) :=
  let no_property :=
    Err ("the Create object at " +:+ pretty i +:+ " has no '" +:+
         dim_name d +:+ "' property") in
  match GetType iter with
  | None => no_property
  | Some tr =>
      match value_get d tr with
      | Absent => no_property
      | Unset => m ← collect_ids ∅ []; Ok (ItemType (value_set d [] tr), m)
      | Prop_ oD => m ← collect_ids ∅ oD; Ok (ItemType tr, m)
      end
  end.

(** Phase 2 for one property of one object. *)
Definition object_apply (d : Dim) (actorMap objMap : gmap string URL)
    (iter : item) : item :=
  match iter with
  | ItemType tr =>
      match value_get d tr with
      | Prop_ oD =>
          ItemType (value_set d (append_missing actorMap objMap oD) tr)
      | _ => iter
      end
  | _ => iter
  end.

(** The body of [for i := 0; i < o.Len(); i++ { ... }] for the object at
    index [i]: the object after Phases 1 and 2, and [objsTo[i]], ...,
    [objsAudience[i]]. *)
Definition object_normalize (actor : recipientMaps) (i : nat) (iter : item)
    : outcome (item * recipientMaps) :=
  '(iter, objTo) ← object_recipients DTo i iter;
  '(iter, objBto) ← object_recipients DBto i iter;
  '(iter, objCc) ← object_recipients DCc i iter;
  '(iter, objBcc) ← object_recipients DBcc i iter;
  '(iter, objAudience) ← object_recipients DAudience i iter;
  let iter := object_apply DTo (mTo actor) objTo iter in
  let iter := object_apply DBto (mBto actor) objBto iter in
  let iter := object_apply DCc (mCc actor) objCc iter in
  let iter := object_apply DBcc (mBcc actor) objBcc iter in
  let iter := object_apply DAudience (mAudience actor) objAudience iter in
  Ok (iter, mkMaps objTo objBto objCc objBcc objAudience).

Fixpoint objects_loop (actor : recipientMaps) (i : nat) (o : list item)
    : outcome (list item * list recipientMaps) :=
  match o with
  | [] => Ok ([], [])
  | iter :: rest =>
      '(iter, objs_i) ← object_normalize actor i iter;
      '(rest, objs) ← objects_loop actor (S i) rest;
      Ok (iter :: rest, objs_i :: objs)
  end.

(** Phase 3 for one property of the activity. *)
Definition activity_apply (d : Dim) (actorMap : gmap string URL)
    (objs : list (gmap string URL)) (a : Create) : Create :=
  match create_get d a with
  | Some actorD =>
      create_set d
        (foldl (fun p objMap => append_missing objMap actorMap p) actorD objs) a
  | None => a
  end.

(** A nil [object] property makes [o.Len()] panic. *)
Definition normalizeRecipients (a : Create) : outcome Create :=
  '(a, actorToMap) ← activity_recipients DTo a;
  '(a, actorBtoMap) ← activity_recipients DBto a;
  '(a, actorCcMap) ← activity_recipients DCc a;
  '(a, actorBccMap) ← activity_recipients DBcc a;
  '(a, actorAudienceMap) ← activity_recipients DAudience a;
  match create_object a with
  | None => Panic
  | Some o =>
      let actor :=
        mkMaps actorToMap actorBtoMap actorCcMap actorBccMap actorAudienceMap in
      '(o, objs) ← objects_loop actor 0 o;
      let a := create_set_object o a in
      let a := activity_apply DTo actorToMap (mTo <$> objs) a in
      let a := activity_apply DBto actorBtoMap (mBto <$> objs) a in
      let a := activity_apply DCc actorCcMap (mCc <$> objs) a in
      let a := activity_apply DBcc actorBccMap (mBcc <$> objs) a in
      let a := activity_apply DAudience actorAudienceMap (mAudience <$> objs) a in
      Ok a
  end.

End Range.

(** ** [toTombstone] *)

(** Modelled from the spec: [streams.NewActivityStreamsTombstone()], whose
    generated code is not part of the package.  A Tombstone is an Object:
    it has the addressing properties, [inReplyTo], [tag], [published],
    [updated], [formerType] and [deleted], all unset on a new value, and
    neither [href] nor the Activity properties. *)
Definition NewActivityStreamsTombstone : Value :=
  mkValue "Tombstone" None Absent Unset Unset Unset Unset Unset
    Absent Absent Unset Unset Absent Unset Unset Unset Unset.

Definition SetActivityStreamsId (u : URL) (v : Value) : Value :=
  match v with
  | mkValue tn _ hr to b c bc au ob tg irt tag ac pu up ft de =>
      mkValue tn (Some u) hr to b c bc au ob tg irt tag ac pu up ft de
  end.

Definition SetActivityStreamsFormerType (p : list item) (v : Value) : Value :=
  match v with
  | mkValue tn i hr to b c bc au ob tg irt tag ac pu up _ de =>
      mkValue tn i hr to b c bc au ob tg irt tag ac pu up (Prop_ p) de
  end.

Definition SetActivityStreamsPublished (t : Time) (v : Value) : Value :=
  match v with
  | mkValue tn i hr to b c bc au ob tg irt tag ac _ up ft de =>
      mkValue tn i hr to b c bc au ob tg irt tag ac (Prop_ t) up ft de
  end.

Definition SetActivityStreamsUpdated (t : Time) (v : Value) : Value :=
  match v with
  | mkValue tn i hr to b c bc au ob tg irt tag ac pu _ ft de =>
      mkValue tn i hr to b c bc au ob tg irt tag ac pu (Prop_ t) ft de
  end.

Definition SetActivityStreamsDeleted (t : Time) (v : Value) : Value :=
  match v with
  | mkValue tn i hr to b c bc au ob tg irt tag ac pu up ft _ =>
      mkValue tn i hr to b c bc au ob tg irt tag ac pu up ft (Prop_ t)
  end.

Definition toTombstone (obj : Value) (id : URL) (now : Time) : Value :=
  let tomb := NewActivityStreamsTombstone in
  (* id property *)
  let tomb := SetActivityStreamsId id tomb in
  (* formerType property, populated with the type name *)
  let former := [] ++ [ItemOther (typeName obj)] in
  let tomb := SetActivityStreamsFormerType former tomb in
  (* published, if it existed *)
  let tomb :=
    match published obj with
    | Prop_ pub => SetActivityStreamsPublished pub tomb
    | _ => tomb
    end in
  (* updated, if it existed *)
  let tomb :=
    match updated obj with
    | Prop_ upd => SetActivityStreamsUpdated upd tomb
    | _ => tomb
    end in
  (* deleted is now *)
  SetActivityStreamsDeleted now tomb.

(** ** [mustHaveActivityActorsMatchObjectActors] *)

Section Dereference.

(** The transport factory and what [Dereference], [json.Unmarshal] and
    [streams.ToType] answer. *)
Context {Tport : Type}.
Variable newTransport : URL -> string -> outcome Tport.
Variable Dereference : Tport -> URL -> outcome (list Byte.byte).
Variable json_Unmarshal : list Byte.byte -> outcome (gmap string JSON).
Variable streams_ToType : gmap string JSON -> outcome Value.
Variable goFedUserAgent : string.

Fixpoint actor_id_map (m : gmap string bool) (actors : list item)
    : outcome (gmap string bool) :=
  match actors with
  | [] => Ok m
  | iter :: rest =>
      id ← ToId iter;
      actor_id_map (<[url_String id := true]> m) rest
  end.

(** The inner loop over the actors of one object. *)
Fixpoint object_actors_listed (activityActorMap : gmap string bool)
    (objActors : list item) : outcome unit :=
  match objActors with
  | [] => Ok tt
  | iter :: rest =>
      id ← ToId iter;
      if negb (bool_at activityActorMap (url_String id)) then
        Err "activity does not have all actors from its object's actors"
      else object_actors_listed activityActorMap rest
  end.

(** The value whose actors are checked for one element of [object]:
    [if t == nil && iter.IsIRI() { ... } else { return error }]. *)
Definition object_value (boxIRI : URL) (iter : item) : outcome Value :=
  match GetType iter, iter with
  | None, ItemIRI iri =>
      tport ← newTransport boxIRI goFedUserAgent;
      b ← Dereference tport iri;
      m ← json_Unmarshal b;
      streams_ToType m
  | _, _ => Err "cannot verify actors: object is neither a value nor IRI"
  end.

Fixpoint objects_actors_listed (activityActorMap : gmap string bool)
    (boxIRI : URL) (op : list item) : outcome unit :=
  match op with
  | [] => Ok tt
  | iter :: rest =>
      t ← object_value boxIRI iter;
      match actor t with
      | Absent =>
          Err "cannot verify actors: object value has no 'actor' property"
      | Unset => Panic
      | Prop_ objActors =>
          _ ← object_actors_listed activityActorMap objActors;
          objects_actors_listed activityActorMap boxIRI rest
      end
  end.

Definition mustHaveActivityActorsMatchObjectActors
    (actors op : list item) (boxIRI : URL) : outcome unit :=
  activityActorMap ← actor_id_map ∅ actors;
  objects_actors_listed activityActorMap boxIRI op.

End Dereference.

End ActivityStreams.

Arguments Value : clear implicits.
Arguments Create : clear implicits.

(** ** [serialize]: JSON-LD context assembly *)

Definition jsonLDContext : string := "@context".

(** [cleanFnRecur] on one value of a map: a value that is itself a
    [map[string]interface{}] loses its [@context] key and is cleaned in
    turn; any other value, arrays included, is left alone.  The source
    deletes the key before it recurses; the recursion does not change the
    keys of a map, so the [delete] is written outermost here (see
    [clean_value_delete_first]). *)
Fixpoint clean_value (v : JSON) : JSON :=
  match v with
  | JMap n => JMap (delete jsonLDContext (clean_value <$> n))
  | _ => v
  end.

Definition cleanFnRecur (r : gmap string JSON) : gmap string JSON :=
  clean_value <$> r.

Section Serialize.

(** The order in which [range] visits the context bindings. *)
Variable range : gmap string string -> list (string * string).

(** [len(v) == 1]: the single iteration of the loop sets [contextValue]. *)
Definition context_single (v : gmap string string) : JSON :=
  foldl (fun (contextValue : JSON) (kv : string * string) =>
           let '(vocab, alias) := kv in
           if Nat.eqb (String.length alias) 0 then JString vocab
           else JStringMap {[ alias := vocab ]})
        JNull (range v).

(** Otherwise: [arr] and [aliases] after the loop. *)
Definition context_multi (v : gmap string string)
    : list JSON * gmap string string :=
  foldl (fun (acc : list JSON * gmap string string) (kv : string * string) =>
           let '(vocab, alias) := kv in
           if Nat.eqb (String.length alias) 0
           then (acc.1 ++ [JString vocab], acc.2)
           else (acc.1, <[alias := vocab]> acc.2))
        ([], ∅) (range v).

Definition contextValue_of (v : gmap string string) : JSON :=
  if Nat.eqb (size v) 1 then context_single v
  else
    let '(arr, aliases) := context_multi v in
    JArray (arr ++ [JStringMap aliases]).

(** [a_Serialize] is what [a.Serialize()] returns and [a_JSONLDContext]
    what [a.JSONLDContext()] returns. *)
Definition serialize (a_Serialize : outcome (gmap string JSON))
    (a_JSONLDContext : gmap string string) : outcome (gmap string JSON) :=
  m ← a_Serialize;
  let contextValue := contextValue_of a_JSONLDContext in
  let m := <[jsonLDContext := contextValue]> m in
  Ok (cleanFnRecur m).

End Serialize.

(** ** ActivityPub media types and [IsActivityPubRequest] *)

(** The double quote character. *)
Definition dquote : string := String "034"%char EmptyString.

(** [strings.Contains]. *)
Fixpoint strings_Contains (s substr : string) : bool :=
  String.prefix substr s ||
  match s with
  | EmptyString => false
  | String _ s' => strings_Contains s' substr
  end.

(** The package's [init]: one fixed type, then [application/ld+json] with
    each separator and each spelling of the profile parameter. *)
Definition activityStreamsMediaTypes : list string :=
  let jsonLdType := "application/ld+json" in
  foldl (fun acc semi =>
           foldl (fun acc profile => acc ++ [jsonLdType +:+ semi +:+ profile])
             acc
             ["profile=https://www.w3.org/ns/activitystreams";
              "profile=" +:+ dquote +:+
                "https://www.w3.org/ns/activitystreams" +:+ dquote])
        ["application/activity+json"]
        [";"; " ;"; " ; "; "; "].

Fixpoint header_matches (mediaTypes : list string) (header : string) : bool :=
  match mediaTypes with
  | [] => false
  | mediaType :: rest =>
      if strings_Contains header mediaType then true
      else header_matches rest header
  end.

Definition headerIsActivityPubMediaType (header : string) : bool :=
  header_matches activityStreamsMediaTypes header.

Definition contentTypeHeader : string := "Content-Type".
Definition acceptHeader : string := "Accept".

(** [*http.Request]: the method, the URL it was built from, the header
    map (its keys in canonical form) and the address of the buffer that
    backs the body, if any. *)
Record Request : Type := mkRequest {
  Method : string;
  RequestURL : string;
  Header : gmap string (list string);
  Body : option nat
}.

(** [Header.Get] and [Header.Add] for a key already in canonical form. *)
Definition Header_Get (h : gmap string (list string)) (key : string) : string :=
  match h !! key with
  | Some (v :: _) => v
  | _ => EmptyString
  end.

Definition Header_Add (key value : string) (req : Request) : Request :=
  mkRequest (Method req) (RequestURL req)
    (<[key := default [] (Header req !! key) ++ [value]]> (Header req))
    (Body req).

Definition isActivityPubPost (r : Request) : bool :=
  String.eqb (Method r) "POST" &&
  headerIsActivityPubMediaType (Header_Get (Header r) contentTypeHeader).

Definition isActivityPubGet (r : Request) : bool :=
  String.eqb (Method r) "GET" &&
  headerIsActivityPubMediaType (Header_Get (Header r) acceptHeader).

Definition IsActivityPubRequest (r : Request) : bool :=
  isActivityPubGet r || isActivityPubPost r.

(** ** [HttpSigTransport]: [Deliver] and [BatchDeliver] *)

(** [http.StatusOK], [http.StatusCreated], [http.StatusAccepted]. *)
Definition isSuccess (code : Z) : bool :=
  Z.eqb code 200 || Z.eqb code 201 || Z.eqb code 202.

Record Response : Type := mkResponse {
  StatusCode : Z;
  Status : string;
  ResponseBody : list Byte.byte
}.

(** Go's [copy(dst, src)]: the first [min (len dst) (len src)] bytes. *)
Definition go_copy {A} (dst src : list A) : list A :=
  take (length dst) src ++ drop (length src) dst.

Section Transport.

Context {URL : Type} (url_String url_Host : URL -> string).

(** Everything outside the process: the clock, the state of the signer and
    the network.  The HTTP client is handed the request and the bytes of
    the buffer behind its body; it answers with the bytes it leaves in
    that buffer and with a response or an error. *)
Context {World : Type}.
Variable clock_Now : World -> World * string.
Variable http_NewRequest : string -> string -> option string.
Variable sha256_Sum256 : list Byte.byte -> list Byte.byte.
Variable base64_EncodeToString : list Byte.byte -> string.
Variable SignRequest : World -> Request -> World * Request * option string.
Variable client_Do :
  World -> Request -> list Byte.byte ->
  World * list Byte.byte * (string + Response).
(** What [fmt.Errorf] prints for the arguments beyond its format string. *)
Variable fmt_extra :
  list Byte.byte -> list Byte.byte -> gmap string (list string) -> string.
Variables appAgent gofedAgent : string.

(** Byte slices live in a heap; [wire] logs, for every call of the HTTP
    client, the URL and the bytes of the body it was handed. *)
Record Machine : Type := mkMachine {
  heap : gmap nat (list Byte.byte);
  world : World;
  wire : list (string * list Byte.byte)
}.

Definition read_slice (σ : Machine) (l : nat) : list Byte.byte :=
  default [] (heap σ !! l).

(** From the entry of [Deliver] to the lock of the signer: the copy of
    [b], the request and its headers. *)
Definition Deliver_prepare (σ : Machine) (b : nat) (to : URL)
    : Machine * (string + nat * Request) :=
  let byteCopy := fresh (dom (heap σ)) in
  let zeroed := replicate (length (read_slice σ b)) Byte.x00 in
  let σ := mkMachine (<[byteCopy := zeroed]> (heap σ)) (world σ) (wire σ) in
  let σ :=
    mkMachine
      (<[byteCopy := go_copy (read_slice σ byteCopy) (read_slice σ b)]> (heap σ))
      (world σ) (wire σ) in
  match http_NewRequest "POST" (url_String to) with
  | Some err => (σ, inl err)
  | None =>
      let req := mkRequest "POST" (url_String to) ∅ (Some byteCopy) in
      let req := Header_Add "Accept-Charset" "utf-8" req in
      let '(w, now) := clock_Now (world σ) in
      let σ := mkMachine (heap σ) w (wire σ) in
      let req := Header_Add "Date" (now +:+ " GMT") req in
      let req := Header_Add "User-Agent" (appAgent +:+ " " +:+ gofedAgent) req in
      let req := Header_Add "Host" (url_Host to) req in
      let req := Header_Add "Accept" "application/activity+json" req in
      let sum := sha256_Sum256 (read_slice σ b) in
      let req :=
        Header_Add "Digest" ("SHA-256=" +:+ base64_EncodeToString sum) req in
      (σ, inr (byteCopy, req))
  end.

(** The signature, between [postSignerMu.Lock()] and [Unlock()]. *)
Definition Deliver_sign (σ : Machine) (req : Request)
    : Machine * (string + Request) :=
  let '(w, req, err) := SignRequest (world σ) req in
  let σ := mkMachine (heap σ) w (wire σ) in
  match err with
  | Some e => (σ, inl e)
  | None => (σ, inr req)
  end.

(** [client.Do] and the status check. *)
Definition Deliver_send (σ : Machine) (to : URL) (byteCopy : nat)
    (req : Request) : Machine * option string :=
  let body := read_slice σ byteCopy in
  let '(w, remains, r) := client_Do (world σ) req body in
  let σ :=
    mkMachine (<[byteCopy := remains]> (heap σ)) w
      (wire σ ++ [(RequestURL req, body)]) in
  match r with
  | inl err => (σ, Some err)
  | inr resp =>
      if negb (isSuccess (StatusCode resp)) then
        (σ, Some ("POST request to " +:+ url_String to +:+ " failed (" +:+
                  pretty (StatusCode resp) +:+ "): " +:+ Status resp +:+
                  fmt_extra (ResponseBody resp) (read_slice σ byteCopy)
                    (Header req)))
      else (σ, None)
  end.

Definition Deliver (σ : Machine) (b : nat) (to : URL)
    : Machine * option string :=
  match Deliver_prepare σ b to with
  | (σ, inl err) => (σ, Some err)
  | (σ, inr (byteCopy, req)) =>
      match Deliver_sign σ req with
      | (σ, inl err) => (σ, Some err)
      | (σ, inr req) => Deliver_send σ to byteCopy req
      end
  end.

(** One goroutine of [BatchDeliver]: where it stands in [Deliver], then
    the send on [errCh] and [wg.Done()]. *)
Inductive task : Type :=
| TReady (r : URL)
| TPrepared (r : URL) (byteCopy : nat) (req : Request)
| TSigned (r : URL) (byteCopy : nat) (req : Request)
| TReturned (r : URL) (err : option string)
| TDone (r : URL) (err : option string).

Record Batch : Type := mkBatch {
  machine : Machine;
  tasks : list task;
  errCh : list string
}.

(** The next atomic action of goroutine [i]; [None] when it has finished
    or does not exist. *)
Definition task_step (b : nat) (β : Batch) (i : nat) : option Batch :=
  t ← tasks β !! i;
  match t with
  | TReady r =>
      let '(σ, res) := Deliver_prepare (machine β) b r in
      let t' :=
        match res with
        | inl err => TReturned r (Some err)
        | inr (byteCopy, req) => TPrepared r byteCopy req
        end in
      Some (mkBatch σ (<[i := t']> (tasks β)) (errCh β))
  | TPrepared r byteCopy req =>
      let '(σ, res) := Deliver_sign (machine β) req in
      let t' :=
        match res with
        | inl err => TReturned r (Some err)
        | inr req => TSigned r byteCopy req
        end in
      Some (mkBatch σ (<[i := t']> (tasks β)) (errCh β))
  | TSigned r byteCopy req =>
      let '(σ, err) := Deliver_send (machine β) r byteCopy req in
      Some (mkBatch σ (<[i := TReturned r err]> (tasks β)) (errCh β))
  | TReturned r err =>
      Some (mkBatch (machine β) (<[i := TDone r err]> (tasks β))
              (match err with
               | Some e => errCh β ++ [e]
               | None => errCh β
               end))
  | TDone _ _ => None
  end.

Definition batch_step (b : nat) (β β' : Batch) : Prop :=
  ∃ i, task_step b β i = Some β'.

(** The goroutines as [BatchDeliver] starts them. *)
Definition batch_init (σ : Machine) (recipients : list URL) : Batch :=
  mkBatch σ (TReady <$> recipients) [].

Definition task_done (t : task) : bool :=
  match t with TDone _ _ => true | _ => false end.

(** [wg.Wait()] returns once every goroutine has called [wg.Done()]. *)
Definition batch_finished (β : Batch) : bool := forallb task_done (tasks β).

(** After [wg.Wait()]: every send has happened, so the loop drains the
    whole channel in the order of the sends. *)
Definition batch_result (β : Batch) : option string :=
  let errs := errCh β in
  if 0 <? length errs then
    Some ("batch deliver had at least one failure: " +:+
          String.concat "; " errs)
  else None.

(** [BatchDeliver] under one interleaving of its goroutines returns [res]
    and leaves the machine in state [σ']. *)
Definition BatchDeliver (σ : Machine) (b : nat) (recipients : list URL)
    (σ' : Machine) (res : option string) : Prop :=
  ∃ β, rtc (batch_step b) (batch_init σ recipients) β ∧
       batch_finished β = true ∧
       σ' = machine β ∧ res = batch_result β.

(** The same under a given schedule: the goroutine to advance at each
    turn (a turn given to a finished goroutine is skipped). *)
Definition run_schedule (b : nat) (sched : list nat) (β : Batch) : Batch :=
  foldl (fun β i => default β (task_step b β i)) β sched.

(** *** Vocabulary for the runs of [BatchDeliver] *)

(** The atomic actions a goroutine has left. *)
Definition task_remaining (t : task) : nat :=
  match t with
  | TReady _ => 4
  | TPrepared _ _ _ => 3
  | TSigned _ _ _ => 2
  | TReturned _ _ => 1
  | TDone _ _ => 0
  end.

Definition batch_remaining (β : Batch) : nat :=
  sum_list_with task_remaining (tasks β).

Definition task_recipient (t : task) : URL :=
  match t with
  | TReady r | TPrepared r _ _ | TSigned r _ _ | TReturned r _ | TDone r _ => r
  end.

(** What [Deliver] returned in a goroutine that has finished. *)
Definition task_outcome (t : task) : option string :=
  match t with
  | TDone _ err => err
  | _ => None
  end.

(** The buffer a goroutine holds between the copy and the request. *)
Definition task_buffer (t : task) : option nat :=
  match t with
  | TPrepared _ l _ | TSigned _ l _ => Some l
  | _ => None
  end.

(** What holds of every state of a run that started with [payload] in the
    slice [b] and [wire0] on the wire: the slice is intact, every buffer
    in use is a private copy of it, and every body handed to the HTTP
    client since the start was the payload. *)
Definition batch_inv (b : nat) (payload : list Byte.byte)
    (wire0 : list (string * list Byte.byte)) (β : Batch) : Prop :=
  heap (machine β) !! b = Some payload ∧
  (∀ i t l, tasks β !! i = Some t → task_buffer t = Some l →
     l ≠ b ∧ heap (machine β) !! l = Some payload) ∧
  (∀ i j ti tj l, tasks β !! i = Some ti → tasks β !! j = Some tj →
     task_buffer ti = Some l → task_buffer tj = Some l → i = j) ∧
  ∃ sent, wire (machine β) = wire0 ++ sent ∧
          Forall (λ e : string * list Byte.byte, e.2 = payload) sent.

End Transport.

(** * Vocabulary of the specification *)

(** ** First occurrences *)

Section FirstOccurrences.

Context {A : Type} (key : A -> string).

(** The elements of [l] whose key is not in [excluded] and has not
    occurred at an earlier index of [l], in the order of [l]. *)
Definition first_occurrences (excluded : gset string) (l : list A) : list A :=
  omap (fun jx : nat * A =>
          if decide (key (jx.2) ∉ excluded ∧ key (jx.2) ∉ (key <$> take (jx.1) l))
          then Some jx.2 else None)
       (imap pair l).

(** The same by one pass that remembers the keys it has met. *)
Fixpoint keep_first (seen : gset string) (l : list A) : list A :=
  match l with
  | [] => []
  | x :: l =>
      if decide (key x ∈ seen) then keep_first seen l
      else x :: keep_first ({[key x]} ∪ seen) l
  end.

End FirstOccurrences.

(** ** Ids of property elements *)

Section ItemIds.

Context {URL : Type} (url_String : URL -> string) {Time : Type}.

(** The element has an id: it is an IRI, or an embedded value with an
    [id] (or [href]). *)
Definition has_id (it : Item URL (Value URL Time)) : Prop := is_Ok (ToId it).

(** The string form of the element's id (empty when it has none). *)
Definition item_key (it : Item URL (Value URL Time)) : string :=
  match ToId it with
  | Ok u => url_String u
  | _ => EmptyString
  end.

(** The elements of a property, none when it is absent or unset. *)
Definition slot_list {A} (s : slot (list A)) : list A :=
  match s with
  | Prop_ p => p
  | _ => []
  end.

(** Every entry of a recipient map sits under the string of its IRI. *)
Definition keyed (m : gmap string URL) : Prop :=
  ∀ k u, m !! k = Some u → url_String u = k.

(** A property viewed as a set of IRI strings. *)
Definition item_id_string (it : Item URL (Value URL Time)) : option string :=
  match ToId it with
  | Ok u => Some (url_String u)
  | _ => None
  end.

Definition ids (p : list (Item URL (Value URL Time))) : gset string :=
  list_to_set (omap item_id_string p).

(** The addressing property [d] of the activity, and of one element of
    its [object] property, as sets. *)
Definition activity_ids (d : Dim) (a : Create URL Time) : gset string :=
  ids (default [] (create_get d a)).

Definition object_ids (d : Dim) (it : Item URL (Value URL Time)) : gset string :=
  match it with
  | ItemType v =>
      match value_get d v with
      | Prop_ p => ids p
      | _ => ∅
      end
  | _ => ∅
  end.

Definition objects_of (a : Create URL Time) : list (Item URL (Value URL Time)) :=
  default [] (create_object a).

End ItemIds.

(** ** The tree of a value *)

Section ValueTree.

Context {URL Time : Type}.

Abbreviation value := (Value URL Time).

(** The values embedded directly in a property. *)
Definition embedded_in (s : slot (list (Item URL value))) (w : value) : Prop :=
  match s with
  | Prop_ p => ItemType w ∈ p
  | _ => False
  end.

(** [w] is an element of the [object] property of [v]. *)
Definition object_child (v w : value) : Prop := embedded_in (object v) w.

(** [w] is an element of some property of [v]. *)
Definition child (v w : value) : Prop :=
  embedded_in (to_ v) w ∨ embedded_in (bto v) w ∨ embedded_in (cc v) w ∨
  embedded_in (bcc v) w ∨ embedded_in (audience v) w ∨
  embedded_in (object v) w ∨ embedded_in (target v) w ∨
  embedded_in (inReplyTo v) w ∨ embedded_in (tag v) w ∨
  embedded_in (actor v) w ∨ embedded_in (formerType v) w.

(** A property without entries: absent, unset or empty. *)
Definition no_entries {A} (s : slot (list A)) : Prop :=
  match s with
  | Prop_ (_ :: _) => False
  | _ => True
  end.

Definition no_hidden_recipients (v : value) : Prop :=
  no_entries (bto v) ∧ no_entries (bcc v).

End ValueTree.

(** ** The object of aliases *)

(** One step of the loop that fills [aliases]. *)
Definition alias_step (a : gmap string string) (kv : string * string)
    : gmap string string :=
  if Nat.eqb (String.length kv.2) 0 then a else <[kv.2 := kv.1]> a.

(** ** Substrings *)

(** [substr] occurs somewhere in [s]. *)
Definition contains (s substr : string) : Prop :=
  ∃ pre post : string, s = pre +:+ substr +:+ post.

(** ** Nested maps of a payload *)

(** The value reached from [j] by following map keys only. *)
Fixpoint lookup_path (path : list string) (j : JSON) : option JSON :=
  match path with
  | [] => Some j
  | k :: path =>
      match j with
      | JMap m => m !! k ≫= lookup_path path
      | _ => None
      end
  end.

(** [v] is an entry of the map, or an element of the array, [j]. *)
Inductive json_child : JSON -> JSON -> Prop :=
| json_child_map (m : gmap string JSON) (k : string) (v : JSON) :
    m !! k = Some v -> json_child (JMap m) v
| json_child_array (l : list JSON) (v : JSON) :
    v ∈ l -> json_child (JArray l) v.

(** [v] lies strictly below [j] in the serialized tree. *)
Definition json_nested (j v : JSON) : Prop := tc json_child j v.

(** * Sample values

    IRIs are their own string form and times are numbers. *)

Module Sample.

Definition value : Type := Value string Z.
Definition item : Type := Item string value.

Definition alice : string := "https://a.example/a".
Definition bob : string := "https://b.example/b".
Definition carol : string := "https://c.example/c".

(** A Note by Alice, blind-copied to Bob. *)
Definition note : value :=
  mkValue "Note" (Some "https://a.example/note/7") Absent
    (Prop_ [ItemIRI carol]) (Prop_ [ItemIRI bob]) Unset Unset Unset
    Absent Absent Unset Unset Absent (Prop_ 10%Z) Unset Absent Absent.

(** A Like by Alice. *)
Definition like : value :=
  mkValue "Like" (Some "https://a.example/act/2") Absent
    Unset Unset Unset Unset Unset
    (Prop_ [ItemIRI "https://b.example/note/1"]) Unset Unset Unset
    (Prop_ [ItemIRI alice]) Unset Unset Absent Absent.

(** An Announce whose [object] embeds the Note. *)
Definition announce : value :=
  mkValue "Announce" (Some "https://a.example/act/3") Absent
    Unset (Prop_ [ItemIRI carol]) Unset Unset Unset
    (Prop_ [ItemType note]) Unset Unset Unset
    (Prop_ [ItemIRI alice]) Unset Unset Absent Absent.

(** A payload whose [object] is an array of one map that carries its own
    [@context], and the context bindings of a plain ActivityStreams
    value. *)
Definition as2 : string := "https://www.w3.org/ns/activitystreams".

Definition nested_note : gmap string JSON :=
  {[ "@context" := JString as2; "type" := JString "Note" ]}.

Definition payload : gmap string JSON :=
  {[ "type" := JString "Create"; "object" := JArray [JMap nested_note] ]}.

Definition bindings : gmap string string := {[ as2 := EmptyString ]}.

(** A Create addressed to Bob, with an [object] property of no
    elements; and one whose object is the Note. *)
Definition create_empty : Create string Z :=
  mkCreate (Some [ItemIRI bob]) None None None None (Some []).

Definition create_note : Create string Z :=
  mkCreate (Some [ItemIRI alice]) None None None None (Some [ItemType note]).

(** An Offer whose [target] embeds the Note. *)
Definition offer : value :=
  mkValue "Offer" (Some "https://a.example/act/4") Absent
    Unset Unset Unset Unset Unset
    (Prop_ [ItemIRI "https://a.example/note/8"]) (Prop_ [ItemType note])
    Unset Unset (Prop_ [ItemIRI alice]) Unset Unset Absent Absent.

End Sample.

(** * A sample transport

    The clock counts, the signer always signs, and the HTTP client
    overwrites the buffer it is handed and answers 202 to Bob and 500 to
    everybody else. *)

Module SampleTransport.

Definition clock_Now (w : nat) : nat * string :=
  (S w, "Mon, 02 Jan 2006 15:04:05").

Definition http_NewRequest (method url : string) : option string := None.

Definition sha256_Sum256 (b : list Byte.byte) : list Byte.byte := b.

Definition base64_EncodeToString (b : list Byte.byte) : string :=
  string_of_list_byte b.

Definition SignRequest (w : nat) (req : Request)
    : nat * Request * option string :=
  (w, req, None).

Definition client_Do (w : nat) (req : Request) (body : list Byte.byte)
    : nat * list Byte.byte * (string + Response) :=
  (w, (fun _ => Byte.x00) <$> body,
   inr (if String.eqb (RequestURL req) Sample.bob
        then mkResponse 202 "202 Accepted" []
        else mkResponse 500 "500 Internal Server Error" [])).

Definition fmt_extra (responseText body : list Byte.byte)
    (header : gmap string (list string)) : string :=
  EmptyString.

Definition payload : list Byte.byte := [Byte.x68; Byte.x69].

(** The payload sits in slice 0. *)
Definition machine0 : @Machine nat := mkMachine {[ 0 := payload ]} 0 [].

Definition Deliver :=
  Deliver (URL:=string) id id clock_Now http_NewRequest sha256_Sum256
    base64_EncodeToString SignRequest client_Do fmt_extra "app" "go-fed".

Definition run_schedule :=
  run_schedule (URL:=string) id id clock_Now http_NewRequest sha256_Sum256
    base64_EncodeToString SignRequest client_Do fmt_extra "app" "go-fed".

End SampleTransport.

(** * More of [pub/util.go] *)

(** ** [IsPublic] *)

Definition PublicActivityPubIRI : string :=
  "https://www.w3.org/ns/activitystreams#Public".
Definition publicJsonLD : string := "Public".
Definition publicJsonLDAS : string := "as:Public".

Definition IsPublic (s : string) : bool :=
  String.eqb s PublicActivityPubIRI || String.eqb s publicJsonLD ||
  String.eqb s publicJsonLDAS.

Section MoreUtilities.

Context {URL : Type} (url_String url_Host : URL -> string) {Time : Type}.

Abbreviation value := (Value URL Time).
Abbreviation item := (Item URL value).

(** ** [filterURLs] *)

(** [for i < len(u) { if fn(u[i].String()) { u = append(u[:i], u[i+1:]...) }
    else { i++ } }]: the [append] leaves [u] without its element [i]. *)
Equations? filterURLs_loop (u : list URL) (fn : string -> bool) (i : nat)
    : list URL by wf (length u - i) lt :=
  filterURLs_loop u fn i with inspect (u !! i) := {
    | exist _ None _ := u
    | exist _ (Some x) Hi with inspect (fn (url_String x)) := {
        | exist _ true _ := filterURLs_loop (delete i u) fn i
        | exist _ false _ := filterURLs_loop u fn (S i)
      }
  }.
Proof.
  - rewrite length_delete by eauto. apply lookup_lt_Some in Hi. lia.
  - apply lookup_lt_Some in Hi. lia.
Qed.

Definition filterURLs (u : list URL) (fn : string -> bool) : list URL :=
  filterURLs_loop u fn 0.

(** ** [getInboxForwardingValues] *)

Section ForwardingValues.

(** What [GetIRI] returns for an element that is not an IRI: "an
    arbitrary value". *)
Variable arbitraryIRI : option URL.

Definition GetIRI (iter : item) : option URL :=
  match iter with
  | ItemIRI u => Some u
  | _ => arbitraryIRI
  end.

(** One of the four loops: embedded values go to [t], everything else to
    [iri]. *)
Fixpoint forwarding_loop (p : list item)
    (acc : list value * list (option URL)) : list value * list (option URL) :=
  match p with
  | [] => acc
  | iter :: rest =>
      match GetType iter with
      | Some tv => forwarding_loop rest (acc.1 ++ [tv], acc.2)
      | None => forwarding_loop rest (acc.1, acc.2 ++ [GetIRI iter])
      end
  end.

(** A property the type lacks, or whose getter returns nil, is skipped. *)
Definition forwarding_property (s : slot (list item))
    (acc : list value * list (option URL)) : list value * list (option URL) :=
  match s with
  | Prop_ p => forwarding_loop p acc
  | _ => acc
  end.

Definition getInboxForwardingValues (o : value)
    : list value * list (option URL) :=
  let acc := forwarding_property (inReplyTo o) ([], []) in
  let acc := forwarding_property (tag o) acc in
  let acc := forwarding_property (object o) acc in
  forwarding_property (target o) acc.

End ForwardingValues.

(** ** [wrapInCreate] *)

(** The Create that [wrapInCreate] builds: its addressing and [object]
    properties, its [actor] and its [published]. *)
Record WrappedCreate : Type := mkWrapped {
  wrapped_create : Create URL Time;
  wrapped_actor : list item;
  wrapped_published : slot Time
}.

(** The loop that copies one addressing property: the id of every
    element, as an IRI. *)
Fixpoint copy_ids (p acc : list item) : outcome (list item) :=
  match p with
  | [] => Ok acc
  | iter :: rest =>
      id ← ToId iter;
      copy_ids rest (acc ++ [ItemIRI id])
  end.

(** One of the five blocks: nothing when the object's type lacks the
    property; a nil property makes [Begin()] panic. *)
Definition wrap_property (d : Dim) (o : value) (c : Create URL Time)
    : outcome (Create URL Time) :=
  match value_get d o with
  | Absent => Ok c
  | Unset => Panic
  | Prop_ p =>
      activityD ← copy_ids p [];
      Ok (create_set d activityD c)
  end.

Definition wrapInCreate (o : value) (actor : URL) : outcome WrappedCreate :=
  let c := mkCreate None None None None None None in
  (* object property *)
  let oProp := [] ++ [ItemType o] in
  let c := create_set_object oProp c in
  (* actor property *)
  let actorProp := [] ++ [@ItemIRI URL value actor] in
  (* published property *)
  let pub :=
    match published o with
    | Absent => Unset
    | p => p
    end in
  (* copying over properties *)
  c ← wrap_property DTo o c;
  c ← wrap_property DBto o c;
  c ← wrap_property DCc o c;
  c ← wrap_property DBcc o c;
  c ← wrap_property DAudience o c;
  Ok (mkWrapped c actorProp pub).

(** ** [mustHaveActivityOriginMatchObjects] *)

Section Origin.

(** What [%q] prints for an IRI. *)
Variable fmt_q : URL -> string.

Fixpoint objects_in_origin (originHost : string) (op : list item)
    : outcome unit :=
  match op with
  | [] => Ok tt
  | iter :: rest =>
      iri ← ToId iter;
      if negb (String.eqb originHost (url_Host iri)) then
        Err ("object " +:+ fmt_q iri +:+ ": not in activity origin")
      else objects_in_origin originHost rest
  end.

(** An [Activity] always has the [object] property; it may be nil. *)
Definition mustHaveActivityOriginMatchObjects (a : value) : outcome unit :=
  originIRI ← GetId a;
  let originHost := url_Host originIRI in
  match object a with
  | Prop_ op =>
      if Nat.eqb (length op) 0 then Ok tt
      else objects_in_origin originHost op
  | _ => Ok tt
  end.

End Origin.

(** ** [getInbox] and [getInboxes] *)

Section Inboxes.

(** The [inbox] property of an actor type: [Absent] for a type that is
    not an [inboxer]; calling [ToId] on a nil property panics.  [fmt_T]
    is what [%T] prints for a value. *)
Variable GetActivityStreamsInbox : value -> slot item.
Variable fmt_T : value -> string.

Definition getInbox (t : value) : outcome URL :=
  match GetActivityStreamsInbox t with
  | Absent => Err ("actor type " +:+ fmt_T t +:+ " has no inbox")
  | Unset => Panic
  | Prop_ inbox => ToId inbox
  end.

Fixpoint getInboxes_loop (t : list value) (u : list URL) : outcome (list URL) :=
  match t with
  | [] => Ok u
  | elem :: rest =>
      iri ← getInbox elem;
      getInboxes_loop rest (u ++ [iri])
  end.

Definition getInboxes (t : list value) : outcome (list URL) :=
  getInboxes_loop t [].

End Inboxes.

End MoreUtilities.

(** * [add] and [remove]: the collections of the database *)

Section AddRemove.

Context {URL : Type} (url_String : URL -> string) {Time : Type}.

Abbreviation value := (Value URL Time).
Abbreviation item := (Item URL value).

(** A value as the database returns it: the value together with the two
    collection properties, [Absent] when the type assertion to
    [orderedItemser] or [itemser] fails and [Unset] when the getter
    returns nil. *)
Record Stored : Type := mkStored {
  stored_value : value;
  orderedItems : slot (list item);
  items : slot (list item)
}.

(** The type predicates of the generated vocabulary. *)
Variable IsOrExtendsActivityStreamsOrderedCollection : Stored -> bool.
Variable IsOrExtendsActivityStreamsCollection : Stored -> bool.

(** The [Database]: its state and the five methods [add] and [remove]
    call.  Every call is logged with what it returned. *)
Context {DB : Type}.
Variable db_Lock : DB -> URL -> DB * option string.
Variable db_Unlock : DB -> URL -> DB * option string.
Variable db_Owns : DB -> URL -> DB * (string + bool).
Variable db_Get : DB -> URL -> DB * (string + Stored).
Variable db_Update : DB -> Stored -> DB * option string.

Inductive DbCall : Type :=
| CLock (t : URL) (err : option string)
| CUnlock (t : URL)
| COwns (t : URL) (r : string + bool)
| CGet (t : URL) (r : string + Stored)
| CUpdate (tp : Stored) (err : option string).

Record Store : Type := mkStore {
  db : DB;
  calls : list DbCall
}.

Definition Lock (σ : Store) (t : URL) : Store * option string :=
  let '(d, err) := db_Lock (db σ) t in
  (mkStore d (calls σ ++ [CLock t err]), err).

Definition Unlock (σ : Store) (t : URL) : Store * option string :=
  let '(d, err) := db_Unlock (db σ) t in
  (mkStore d (calls σ ++ [CUnlock t]), err).

Definition Owns (σ : Store) (t : URL) : Store * (string + bool) :=
  let '(d, r) := db_Owns (db σ) t in
  (mkStore d (calls σ ++ [COwns t r]), r).

Definition Get (σ : Store) (t : URL) : Store * (string + Stored) :=
  let '(d, r) := db_Get (db σ) t in
  (mkStore d (calls σ ++ [CGet t r]), r).

Definition Update (σ : Store) (tp : Stored) : Store * option string :=
  let '(d, err) := db_Update (db σ) tp in
  (mkStore d (calls σ ++ [CUpdate tp err]), err).

(** [for iter := p.Begin(); ...; { id, err := ToId(iter); ...;
    ids = append(ids, id) }]. *)
Fixpoint ids_loop (p : list item) (acc : list URL) : outcome (list URL) :=
  match p with
  | [] => Ok acc
  | iter :: rest =>
      id ← ToId iter;
      ids_loop rest (acc ++ [id])
  end.

(** The same into a [map[string]bool], as [remove] has it. *)
Fixpoint opIds_loop (p : list item) (opIds : gmap string bool)
    : outcome (gmap string bool) :=
  match p with
  | [] => Ok opIds
  | iter :: rest =>
      id ← ToId iter;
      opIds_loop rest (<[url_String id := true]> opIds)
  end.

(** [for _, objId := range opIds { p.AppendIRI(objId) }]. *)
Definition append_IRIs (p : list item) (opIds : list URL) : list item :=
  foldl (fun (p : list item) (objId : URL) => p ++ [ItemIRI objId]) p opIds.

(** [for i := 0; i < p.Len(); { id, err := ToId(p.At(i)); ...;
    if opIds[id.String()] { p.Remove(i) } else { i++ } }]. *)
Equations? remove_loop (p : list item) (opIds : gmap string bool) (i : nat)
    : outcome (list item) by wf (length p - i) lt :=
  remove_loop p opIds i with inspect (p !! i) := {
    | exist _ None _ := Ok p
    | exist _ (Some it) Hi with ToId it := {
        | Err e := Err e
        | Panic := Panic
        | Ok id with inspect (bool_at opIds (url_String id)) := {
            | exist _ true _ := remove_loop (delete i p) opIds i
            | exist _ false _ := remove_loop p opIds (S i)
          }
      }
  }.
Proof.
  - rewrite length_delete by eauto. apply lookup_lt_Some in Hi. lia.
  - apply lookup_lt_Some in Hi. lia.
Qed.

(** What [add] does to the value [tp] it got from the database, up to
    [db.Update]: the property is created when the getter returns nil,
    and the appends to the property are appends to the property of
    [tp]. *)
Definition add_collection (opIds : list URL) (tp : Stored) : outcome Stored :=
  if IsOrExtendsActivityStreamsOrderedCollection tp then
    match orderedItems tp with
    | Absent =>
        Err "type extending from OrderedCollection cannot convert to orderedItemser interface"
    | Unset =>
        Ok (mkStored (stored_value tp) (Prop_ (append_IRIs [] opIds))
              (items tp))
    | Prop_ oiProp =>
        Ok (mkStored (stored_value tp) (Prop_ (append_IRIs oiProp opIds))
              (items tp))
    end
  else if IsOrExtendsActivityStreamsCollection tp then
    match items tp with
    | Absent =>
        Err "type extending from Collection cannot convert to itemser interface"
    | Unset =>
        Ok (mkStored (stored_value tp) (orderedItems tp)
              (Prop_ (append_IRIs [] opIds)))
    | Prop_ iProp =>
        Ok (mkStored (stored_value tp) (orderedItems tp)
              (Prop_ (append_IRIs iProp opIds)))
    end
  else Err "target in Add is neither a Collection nor an OrderedCollection".

(** The same for [remove]; a nil property is left alone. *)
Definition remove_collection (opIds : gmap string bool) (tp : Stored)
    : outcome Stored :=
  if IsOrExtendsActivityStreamsOrderedCollection tp then
    match orderedItems tp with
    | Absent =>
        Err "type extending from OrderedCollection cannot convert to orderedItemser interface"
    | Unset => Ok tp
    | Prop_ oiProp =>
        oiProp ← remove_loop oiProp opIds 0;
        Ok (mkStored (stored_value tp) (Prop_ oiProp) (items tp))
    end
  else if IsOrExtendsActivityStreamsCollection tp then
    match items tp with
    | Absent =>
        Err "type extending from Collection cannot convert to itemser interface"
    | Unset => Ok tp
    | Prop_ iProp =>
        iProp ← remove_loop iProp opIds 0;
        Ok (mkStored (stored_value tp) (orderedItems tp) (Prop_ iProp))
    end
  else
    Err "target in Remove is neither a Collection nor an OrderedCollection".

(** [loopFn], which [add] and [remove] spell out alike but for what they
    do to the collection: [change].  The deferred [db.Unlock] runs on
    every return after the lock was taken; its error is dropped. *)
Definition loopFn (change : Stored -> outcome Stored) (σ : Store) (t : URL)
    : Store * outcome unit :=
  let '(σ, err) := Lock σ t in
  match err with
  | Some e => (σ, Err e)
  | None =>
      let '(σ, r) :=
        let '(σ, owns) := Owns σ t in
        match owns with
        | inl e => (σ, Err e)
        | inr false => (σ, Ok tt)
        | inr true =>
            let '(σ, got) := Get σ t in
            match got with
            | inl e => (σ, Err e)
            | inr tp =>
                match change tp with
                | Err e => (σ, Err e)
                | Panic => (σ, Panic)
                | Ok tp =>
                    let '(σ, err) := Update σ tp in
                    match err with
                    | Some e => (σ, Err e)
                    | None => (σ, Ok tt)
                    end
                end
            end
        end in
      let '(σ, _) := Unlock σ t in
      (σ, r)
  end.

(** [for _, t := range targetIds { if err := loopFn(t); err != nil {
    return err } }]. *)
Fixpoint targets_loop (change : Stored -> outcome Stored) (σ : Store)
    (targetIds : list URL) : Store * outcome unit :=
  match targetIds with
  | [] => (σ, Ok tt)
  | t :: rest =>
      let '(σ, r) := loopFn change σ t in
      match r with
      | Ok _ => targets_loop change σ rest
      | _ => (σ, r)
      end
  end.

(** [add]; a nil [op] makes [op.Len()] panic and a nil [target] makes
    [target.Begin()] panic. *)
Definition add (op target : option (list item)) (σ : Store)
    : Store * outcome unit :=
  match op with
  | None => (σ, Panic)
  | Some op =>
      match ids_loop op [] with
      | Err e => (σ, Err e)
      | Panic => (σ, Panic)
      | Ok opIds =>
          match target with
          | None => (σ, Panic)
          | Some target =>
              match ids_loop target [] with
              | Err e => (σ, Err e)
              | Panic => (σ, Panic)
              | Ok targetIds =>
                  targets_loop (add_collection opIds) σ targetIds
              end
          end
      end
  end.

Definition remove (op target : option (list item)) (σ : Store)
    : Store * outcome unit :=
  match op with
  | None => (σ, Panic)
  | Some op =>
      match opIds_loop op ∅ with
      | Err e => (σ, Err e)
      | Panic => (σ, Panic)
      | Ok opIds =>
          match target with
          | None => (σ, Panic)
          | Some target =>
              match ids_loop target [] with
              | Err e => (σ, Err e)
              | Panic => (σ, Panic)
              | Ok targetIds =>
                  targets_loop (remove_collection opIds) σ targetIds
              end
          end
      end
  end.

(** What the database is asked to respect: a lock is taken only when
    none is held, [Owns], [Get] and [Unlock] are called for the id under
    lock, and [Update] is called only after [Owns] has returned true
    under that lock.  [protocol] follows a log of calls from the state
    [s] and returns the state at its end, or [None] at the first call
    that does not fit. *)
Inductive LockState : Type :=
| Free
| Held (t : URL) (owned : bool).

Context `{EqDecision URL}.

Definition protocol_step (s : LockState) (c : DbCall) : option LockState :=
  match s, c with
  | Free, CLock t None => Some (Held t false)
  | Free, CLock t (Some _) => Some Free
  | Held t owned, COwns t' r =>
      if decide (t' = t) then
        Some (Held t (match r with inr true => true | _ => owned end))
      else None
  | Held t owned, CGet t' _ =>
      if decide (t' = t) then Some s else None
  | Held t true, CUpdate _ _ => Some s
  | Held t _, CUnlock t' => if decide (t' = t) then Some Free else None
  | _, _ => None
  end.

Fixpoint protocol (s : LockState) (cs : list DbCall) : option LockState :=
  match cs with
  | [] => Some s
  | c :: cs =>
      match protocol_step s c with
      | Some s => protocol s cs
      | None => None
      end
  end.

End AddRemove.

(** * More of [pub/transport.go] and the response headers *)

(** [Header.Set] for a key already in canonical form. *)
Definition Header_Set (key value : string)
    (h : gmap string (list string)) : gmap string (list string) :=
  <[key := [value]]> h.

Definition contentTypeHeaderValue : string :=
  "application/ld+json; profile=" +:+ dquote +:+
  "https://www.w3.org/ns/activitystreams" +:+ dquote.
Definition dateHeader : string := "Date".
Definition digestHeader : string := "Digest".
Definition digestDelimiter : string := "=".
Definition sha256Digest : string := "SHA-256".

Section ResponseHeaders.

Context {World : Type}.
Variable clock_Now : World -> World * string.
Variable sha256_Sum256 : list Byte.byte -> list Byte.byte.
Variable base64_EncodeToString : list Byte.byte -> string.

Definition addResponseHeaders (h : gmap string (list string)) (w : World)
    (responseContent : list Byte.byte) : World * gmap string (list string) :=
  let h := Header_Set contentTypeHeader contentTypeHeaderValue h in
  let '(w, now) := clock_Now w in
  let h := Header_Set dateHeader (now +:+ " GMT") h in
  let b := EmptyString in
  let b := b +:+ sha256Digest in
  let b := b +:+ digestDelimiter in
  let hashed := sha256_Sum256 responseContent in
  let b := b +:+ base64_EncodeToString hashed in
  (w, Header_Set digestHeader b h).

End ResponseHeaders.

Section Dereference.

Context {URL : Type} (url_String url_Host : URL -> string) {World : Type}.
Variable clock_Now : World -> World * string.
Variable http_NewRequest : string -> string -> option string.
(** The signer of GET requests. *)
Variable getSigner_SignRequest :
  World -> Request -> World * Request * option string.
Variable client_Do :
  World -> Request -> list Byte.byte ->
  World * list Byte.byte * (string + Response).
Variables appAgent gofedAgent : string.

(** The request [Dereference] builds before it signs it; [Header.Add]
    turns the keys [host] and [digest] into [Host] and [Digest]. *)
Definition Dereference_request (iri : URL) (now : string) : Request :=
  let req := mkRequest "GET" (url_String iri) ∅ None in
  let req := Header_Add "Accept-Charset" "utf-8" req in
  let req := Header_Add "Date" (now +:+ " GMT") req in
  let req := Header_Add "User-Agent" (appAgent +:+ " " +:+ gofedAgent) req in
  let req := Header_Add "Host" (url_Host iri) req in
  let req := Header_Add "Digest" EmptyString req in
  Header_Add "Accept"
    ("application/activity+json; profile=" +:+ dquote +:+
     "https://www.w3.org/ns/activitystreams" +:+ dquote) req.

(** [Dereference]: the request has no body, so the client is handed no
    buffer; what is printed to the standard output is left out. *)
Definition Dereference (σ : @Machine World) (iri : URL)
    : @Machine World * (string + list Byte.byte) :=
  match http_NewRequest "GET" (url_String iri) with
  | Some err => (σ, inl err)
  | None =>
      let '(w, now) := clock_Now (world σ) in
      let req := Dereference_request iri now in
      let '(w, req, err) := getSigner_SignRequest w req in
      match err with
      | Some e => (mkMachine (heap σ) w (wire σ), inl e)
      | None =>
          let '(w, _, r) := client_Do w req [] in
          let σ :=
            mkMachine (heap σ) w (wire σ ++ [(RequestURL req, [])]) in
          match r with
          | inl err => (σ, inl err)
          | inr resp =>
              if negb (Z.eqb (StatusCode resp) 200) then
                (σ, inl ("GET request to " +:+ url_String iri +:+
                         " failed (" +:+ pretty (StatusCode resp) +:+
                         "): " +:+ Status resp))
              else (σ, inr (ResponseBody resp))
          end
      end
  end.

End Dereference.

(** * More sample values *)

Module MoreSamples.

(** An Article by Alice that has all five addressing properties, two of
    them with entries. *)
Definition article : Sample.value :=
  mkValue "Article" (Some "https://a.example/article/9") Absent
    (Prop_ [ItemIRI Sample.carol]) (Prop_ [ItemIRI Sample.bob])
    (Prop_ []) (Prop_ []) (Prop_ [])
    Absent Absent Unset Unset Absent (Prop_ 10%Z) Unset Absent Absent.

(** A collection of two entries, and the type predicates read off the
    name of the type. *)
Definition liked : @Stored string Z :=
  mkStored
    (mkValue "OrderedCollection" (Some "https://a.example/a/liked") Absent
       Absent Absent Absent Absent Absent Absent Absent Absent Absent Absent
       Absent Absent Absent Absent)
    (Prop_ [ItemIRI "https://b.example/note/1";
            ItemIRI "https://c.example/note/2"])
    Absent.

Definition IsOrExtendsActivityStreamsOrderedCollection
    (tp : @Stored string Z) : bool :=
  String.eqb (typeName (stored_value tp)) "OrderedCollection" ||
  String.eqb (typeName (stored_value tp)) "OrderedCollectionPage".

Definition IsOrExtendsActivityStreamsCollection
    (tp : @Stored string Z) : bool :=
  String.eqb (typeName (stored_value tp)) "Collection" ||
  String.eqb (typeName (stored_value tp)) "CollectionPage" ||
  IsOrExtendsActivityStreamsOrderedCollection tp.

End MoreSamples.

(** * Vocabulary of the further properties *)

(** A property after its entries were removed. *)
Definition emptied {A} (s : slot (list A)) : slot (list A) :=
  match s with
  | Prop_ _ => Prop_ []
  | s => s
  end.

(** The id of a property element as an IRI element, as [wrapInCreate]
    copies it. *)
Definition as_IRI {URL Time : Type} (it : Item URL (Value URL Time))
    : option (Item URL (Value URL Time)) :=
  match ToId it with
  | Ok u => Some (ItemIRI u)
  | _ => None
  end.

(** A goroutine of [BatchDeliver] that has not yet reached [client.Do],
    and one in which [Deliver] has returned nil. *)
Definition task_may_call {URL} (t : @task URL) : nat :=
  match t with
  | TReady _ | TPrepared _ _ _ | TSigned _ _ _ => 1
  | _ => 0
  end.

Definition task_succeeded {URL} (t : @task URL) : nat :=
  match t with
  | TReturned _ None | TDone _ None => 1
  | _ => 0
  end.

(** The request [Deliver] has built when it reaches the signer, for the
    time [now] printed by the clock, the bytes [payload] of the slice and
    the address [byteCopy] of the copy. *)
Definition Deliver_request {URL} (url_String url_Host : URL -> string)
    (sha256_Sum256 : list Byte.byte -> list Byte.byte)
    (base64_EncodeToString : list Byte.byte -> string)
    (appAgent gofedAgent : string)
    (to : URL) (now : string) (payload : list Byte.byte) (byteCopy : nat)
    : Request :=
  Header_Add "Digest"
    ("SHA-256=" +:+ base64_EncodeToString (sha256_Sum256 payload))
    (Header_Add "Accept" "application/activity+json"
       (Header_Add "Host" (url_Host to)
          (Header_Add "User-Agent" (appAgent +:+ " " +:+ gofedAgent)
             (Header_Add "Date" (now +:+ " GMT")
                (Header_Add "Accept-Charset" "utf-8"
                   (mkRequest "POST" (url_String to) ∅ (Some byteCopy))))))).

(** An activity all of whose recipients have an id, and an element of
    its [object] property that [normalizeRecipients] can address: an
    embedded value whose type has the five addressing properties, every
    entry of which has an id. *)
Definition well_addressed {URL Time : Type} (a : Create URL Time) : Prop :=
  ∀ d, Forall has_id (default [] (create_get d a)).

Definition addressable {URL Time : Type} (it : Item URL (Value URL Time))
    : Prop :=
  ∃ v, it = ItemType v ∧
       ∀ d, value_get d v ≠ Absent ∧
            Forall has_id (slot_list (value_get d v)).

(** A collection property after [remove] has gone through it: the
    entries that [keep] holds of are left. *)
Definition filtered {A} (keep : A -> Prop) `{∀ x, Decision (keep x)}
    (s : slot (list A)) : slot (list A) :=
  match s with
  | Prop_ p => Prop_ (filter keep p)
  | s => s
  end.

(** How deep the maps of a payload nest. *)
Fixpoint json_depth (j : JSON) : nat :=
  match j with
  | JMap n => S (map_fold (fun _ d acc => Nat.max d acc) 0 (json_depth <$> n))
  | _ => 0
  end.
(** * Properties *)

(** ** First occurrences *)

Lemma omap_pointwise {A B} (f g : A -> option B) (l : list A) :
  (∀ x, f x = g x) → omap f l = omap g l.
Proof.
  intros Hfg. induction l as [|x l IH]; [done|].
  cbn. rewrite Hfg, IH. done.
Qed.

Lemma omap_after_fmap {A B C} (f : B -> option C) (g : A -> B) (l : list A) :
  omap f (g <$> l) = omap (f ∘ g) l.
Proof.
  induction l as [|x l IH]; [done|]. cbn. rewrite IH. done.
Qed.

Section FirstOccurrencesFacts.

Context {A : Type} (key : A -> string).

Lemma keep_first_first_occurrences (seen : gset string) (l : list A) :
  keep_first key seen l = first_occurrences key seen l.
Proof.
  unfold first_occurrences. revert seen.
  induction l as [|x l IH]; intros seen; [done|].
  rewrite imap_cons.
  replace (imap (pair ∘ S) l) with (prod_map S id <$> imap pair l)
    by (rewrite fmap_imap; done).
  assert (Hext : ∀ seen',
    (∀ y, key y ∉ seen' ↔ key y ∉ seen ∧ key y ≠ key x) →
    keep_first key seen' l =
    omap (λ jx : nat * A,
            if decide (key (jx.2) ∉ seen ∧
                       key (jx.2) ∉ (key <$> take (jx.1) (x :: l)))
            then Some (jx.2) else None)
         (prod_map S id <$> imap pair l)).
  { intros seen' Hs. rewrite IH, omap_after_fmap. apply omap_pointwise.
    intros [j y]. cbn. specialize (Hs y).
    repeat case_decide; try done; exfalso; set_solver. }
  cbn [keep_first]. csimpl.
  destruct (decide (key x ∈ seen)) as [Hin|Hout].
  - rewrite decide_False by set_solver. apply Hext. intros y.
    split; [|tauto]. intros Hy. split; [done|]. intros Heq. apply Hy.
    by rewrite Heq.
  - rewrite decide_True by set_solver. f_equal. apply Hext. set_solver.
Qed.

Lemma keep_first_sublist (seen : gset string) (l : list A) :
  sublist (keep_first key seen l) l.
Proof.
  revert seen. induction l as [|x l IH]; intros seen; cbn; [constructor|].
  case_decide; [by apply sublist_cons | by apply sublist_skip].
Qed.

Lemma keep_first_keys (seen : gset string) (l : list A) (s : string) :
  s ∈ key <$> keep_first key seen l ↔ s ∈ key <$> l ∧ s ∉ seen.
Proof.
  revert seen. induction l as [|x l IH]; intros seen; cbn.
  - set_solver.
  - case_decide as Hx; cbn; rewrite ?elem_of_cons, IH.
    + split; [tauto|]. intros [[->|?] ?]; [done|tauto].
    + destruct (decide (s = key x)) as [->|]; set_solver.
Qed.

Lemma keep_first_NoDup (seen : gset string) (l : list A) :
  NoDup (key <$> keep_first key seen l).
Proof.
  revert seen. induction l as [|x l IH]; intros seen; cbn; [constructor|].
  case_decide; [done|]. cbn. constructor; [|done].
  rewrite keep_first_keys. set_solver.
Qed.

End FirstOccurrencesFacts.

(** ** Maps used as sets of strings *)

Lemma bool_at_empty (s : string) : bool_at ∅ s = false.
Proof. unfold bool_at. by rewrite lookup_empty. Qed.

Lemma bool_at_insert_true (m : gmap string bool) (k s : string) :
  bool_at (<[k := true]> m) s = true ↔ s = k ∨ bool_at m s = true.
Proof.
  unfold bool_at. destruct (decide (k = s)) as [->|Hne].
  - rewrite lookup_insert_eq. naive_solver.
  - rewrite lookup_insert_ne by done. naive_solver.
Qed.

Lemma union_difference_same (X A : gset string) : X ∪ (A ∖ X) = X ∪ A.
Proof.
  apply set_eq. intros x. destruct (decide (x ∈ X)); set_solver.
Qed.

(** ** [dedupeIRIs] *)

Section DedupeIRIs.

Context {URL : Type} (url_String : URL -> string).

Lemma ignoredMap_of_fold (m : gmap string bool) (ignored : list URL) (s : string) :
  bool_at (foldl (fun m elem => <[url_String elem := true]> m) m ignored) s = true
  ↔ bool_at m s = true ∨ s ∈ url_String <$> ignored.
Proof.
  revert m. induction ignored as [|e ignored IH]; intros m; cbn.
  - set_solver.
  - rewrite IH, bool_at_insert_true. set_solver.
Qed.

Lemma ignoredMap_of_spec (ignored : list URL) (s : string) :
  bool_at (ignoredMap_of url_String ignored) s = true
  ↔ s ∈ url_String <$> ignored.
Proof.
  unfold ignoredMap_of. rewrite ignoredMap_of_fold, bool_at_empty.
  naive_solver.
Qed.

Lemma dedupeIRIs_loop_keep_first (ignoredMap outMap : gmap string bool)
    (seen : gset string) (out recipients : list URL) :
  (∀ s, s ∈ seen ↔ bool_at ignoredMap s = true ∨ bool_at outMap s = true) →
  dedupeIRIs_loop url_String ignoredMap outMap out recipients =
  out ++ keep_first url_String seen recipients.
Proof.
  revert outMap seen out.
  induction recipients as [|k rest IH]; intros outMap seen out Hseen; cbn.
  - by rewrite app_nil_r.
  - pose proof (Hseen (url_String k)) as Hk.
    destruct (bool_at ignoredMap (url_String k)) eqn:Hi; cbn.
    { rewrite decide_True by (apply Hk; by left). by apply IH. }
    destruct (bool_at outMap (url_String k)) eqn:Ho; cbn.
    { rewrite decide_True by (apply Hk; by right). by apply IH. }
    rewrite decide_False by (intros Hin; apply Hk in Hin as [?|?]; done).
    rewrite (IH _ ({[url_String k]} ∪ seen)), <- app_assoc; [done|].
    intros s. rewrite bool_at_insert_true, elem_of_union, elem_of_singleton, Hseen.
    tauto.
Qed.

(** C9.  [dedupeIRIs] returns the recipients whose string form is not in
    the ignored list and has not occurred earlier among the recipients:
    no entry of the result is ignored, no two entries have the same string
    form, and the entries kept are the first occurrences, in the order of
    the input. *)
Theorem dedupeIRIs_first_occurrences (recipients ignored : list URL) :
  let out := dedupeIRIs url_String recipients ignored in
  (∀ k, k ∈ out → url_String k ∉ url_String <$> ignored) ∧
  NoDup (url_String <$> out) ∧
  out = first_occurrences url_String
          (list_to_set (url_String <$> ignored)) recipients ∧
  sublist out recipients ∧
  (∀ s, s ∈ url_String <$> out ↔
        s ∈ url_String <$> recipients ∧ s ∉ url_String <$> ignored).
Proof.
  intros out.
  assert (Hout : out = keep_first url_String
                         (list_to_set (url_String <$> ignored)) recipients).
  { unfold out, dedupeIRIs.
    rewrite (dedupeIRIs_loop_keep_first _ _
               (list_to_set (url_String <$> ignored))); [done|].
    intros s. rewrite elem_of_list_to_set, ignoredMap_of_spec, bool_at_empty.
    naive_solver. }
  assert (Hkeys : ∀ s, s ∈ url_String <$> out ↔
            s ∈ url_String <$> recipients ∧ s ∉ url_String <$> ignored).
  { intros s. rewrite Hout, keep_first_keys, elem_of_list_to_set. done. }
  split; [|split; [|split; [|split]]].
  - intros k Hk. apply (Hkeys (url_String k)). by apply list_elem_of_fmap_2.
  - rewrite Hout. apply keep_first_NoDup.
  - rewrite Hout. apply keep_first_first_occurrences.
  - rewrite Hout. apply keep_first_sublist.
  - apply Hkeys.
Qed.

End DedupeIRIs.

(** ** [dedupeOrderedItems] *)

Section DedupeOrderedItems.

Context {URL : Type} (url_String : URL -> string) {Time : Type}.

Abbreviation item := (Item URL (Value URL Time)).

Lemma dedupeOrderedItems_loop_step (oi : list item) (seen : gmap string bool)
    (i : nat) :
  dedupeOrderedItems_loop url_String oi seen i =
  match oi !! i with
  | None => Ok oi
  | Some it =>
      match orderedItem_id i it with
      | Ok id =>
          if bool_at seen (url_String id)
          then dedupeOrderedItems_loop url_String (delete i oi) seen i
          else dedupeOrderedItems_loop url_String oi
                 (<[url_String id := true]> seen) (S i)
      | Err e => Err e
      | Panic => Panic
      end
  end.
Proof.
  rewrite dedupeOrderedItems_loop_unfold_eq.
  unfold dedupeOrderedItems_loop_unfold, inspect.
  generalize (@eq_refl _ (oi !! i)).
  generalize (oi !! i) at 2 4 5.
  intros [it|] Hi; [|done]. cbn.
  destruct (orderedItem_id i it) as [id| |]; cbn; try done.
  by destruct (bool_at seen (url_String id)).
Qed.

(** The loop computes the id of an element as [ToId] does; only the text
    of the error differs. *)
Lemma orderedItem_id_ToId (i : nat) (it : item) :
  match ToId it with
  | Ok u => orderedItem_id i it = Ok u
  | _ => is_Err (orderedItem_id i it)
  end.
Proof.
  destruct it as [u|v|x]; cbn; try done.
  unfold orderedItem_id. cbn. unfold GetId. by repeat case_match.
Qed.

Lemma ToId_no_panic (it : item) : ToId it ≠ Panic.
Proof.
  destruct it as [u|v|x]; cbn; try done.
  unfold GetId. by repeat case_match.
Qed.

Lemma dedupeOrderedItems_loop_keep_first (rest kept : list item)
    (seen : gmap string bool) (seenset : gset string) :
  (∀ s, s ∈ seenset ↔ bool_at seen s = true) →
  match dedupeOrderedItems_loop url_String (kept ++ rest) seen (length kept) with
  | Ok oi' =>
      Forall has_id rest ∧
      oi' = kept ++ keep_first (item_key url_String) seenset rest
  | Err _ => Exists (λ it, ¬ has_id it) rest
  | Panic => False
  end.
Proof.
  revert kept seen seenset.
  induction rest as [|x rest IH]; intros kept seen seenset Hseen;
    rewrite dedupeOrderedItems_loop_step.
  - rewrite app_nil_r, lookup_ge_None_2 by done.
    split; [constructor | cbn; by rewrite app_nil_r].
  - rewrite list_lookup_middle by done.
    pose proof (orderedItem_id_ToId (length kept) x) as Hid.
    pose proof (ToId_no_panic x) as Hnp.
    cbn [keep_first].
    destruct (ToId x) as [u|e|] eqn:Hx; [| |done].
    + assert (Hhas : has_id x) by (unfold has_id; by rewrite Hx).
      replace (item_key url_String x) with (url_String u)
        by (unfold item_key; by rewrite Hx).
      rewrite Hid. destruct (bool_at seen (url_String u)) eqn:Hb.
      * rewrite delete_middle.
        specialize (IH kept seen seenset Hseen).
        rewrite decide_True by (by apply Hseen).
        destruct (dedupeOrderedItems_loop _ _ _ _); [|by right|done].
        destruct IH as [? ->]. split; [by constructor|done].
      * specialize (IH (kept ++ [x]) (<[url_String u := true]> seen)
                      ({[url_String u]} ∪ seenset)).
        rewrite <- app_assoc, length_app in IH. cbn in IH.
        replace (length kept + 1) with (S (length kept)) in IH by lia.
        rewrite decide_False by (rewrite Hseen, Hb; done).
        assert (Hseen' : ∀ s, s ∈ ({[url_String u]} ∪ seenset : gset string) ↔
                  bool_at (<[url_String u := true]> seen) s = true).
        { intros s. rewrite bool_at_insert_true, <- Hseen. set_solver. }
        specialize (IH Hseen').
        destruct (dedupeOrderedItems_loop _ _ _ _); [|by right|done].
        destruct IH as [? ->]. split; [by constructor|].
        by rewrite <- app_assoc.
    + destruct (orderedItem_id (length kept) x); try done.
      left. unfold has_id. rewrite Hx. cbn. tauto.
Qed.

(** C2.  [dedupeOrderedItems] leaves a collection without [orderedItems]
    alone.  Otherwise it fails exactly when some element has no id; when
    it succeeds, what remains is the list of the first occurrences of
    each id, in the original order (an element is removed exactly when
    its id occurred at an earlier index), and no two remaining entries
    share an id. *)
Theorem dedupeOrderedItems_first_occurrences (oi : list item) :
  dedupeOrderedItems url_String (@None (list item)) = Ok None ∧
  (is_Err (dedupeOrderedItems url_String (Some oi)) ↔
   Exists (λ it, ¬ has_id it) oi) ∧
  match dedupeOrderedItems url_String (Some oi) with
  | Ok (Some oi') =>
      Forall has_id oi ∧
      oi' = first_occurrences (item_key url_String) ∅ oi ∧
      sublist oi' oi ∧
      NoDup (item_key url_String <$> oi') ∧
      (∀ s, s ∈ item_key url_String <$> oi' ↔ s ∈ item_key url_String <$> oi)
  | Ok None => False
  | Err _ => Exists (λ it, ¬ has_id it) oi
  | Panic => False
  end.
Proof.
  pose proof (dedupeOrderedItems_loop_keep_first oi [] ∅ ∅) as Hloop.
  cbn in Hloop. unfold dedupeOrderedItems.
  destruct (dedupeOrderedItems_loop url_String oi ∅ 0) as [oi'|e|]; cbn.
  - destruct Hloop as [Hall ->].
    { intros s. rewrite bool_at_empty. set_solver. }
    split; [done|]. split.
    { split; [done|]. intros Hex. apply Exists_exists in Hex as (it & Hin & Hno).
      rewrite Forall_forall in Hall. by apply Hno, Hall. }
    split; [done|]. split; [apply keep_first_first_occurrences|].
    split; [apply keep_first_sublist|]. split; [apply keep_first_NoDup|].
    intros s. rewrite keep_first_keys. set_solver.
  - split; [done|]. split; [|apply Hloop].
    + split; [intros _|done]. apply Hloop. intros s. rewrite bool_at_empty. set_solver.
    + intros s. rewrite bool_at_empty. set_solver.
  - exfalso. apply Hloop. intros s. rewrite bool_at_empty. set_solver.
Qed.

End DedupeOrderedItems.

(** ** [clearSensitiveFields] *)

Section ClearSensitiveFields.

Context {URL Time : Type}.

Abbreviation value := (Value URL Time).

Lemma remove_front_nil {A} (p : list A) : remove_front p = [].
Proof. induction p as [|x p IH]; [done|]. exact IH. Qed.

Lemma remove_downwards_nil {A} (p : list A) :
  remove_downwards (length p) p = [].
Proof.
  induction p as [|x p IH] using rev_ind; [done|].
  rewrite length_app. cbn. replace (length p + 1) with (S (length p)) by lia.
  cbn. replace (delete (length p) (p ++ [x])) with p; [done|].
  by rewrite delete_middle, app_nil_r.
Qed.

Lemma clear_prop_no_entries {A} (s : slot (list A)) : no_entries (clear_prop s).
Proof. destruct s as [| |p]; cbn; try done. by rewrite remove_front_nil. Qed.

Lemma strip_prop_clear_prop {A} (s : slot (list A)) : strip_prop s = clear_prop s.
Proof.
  destruct s as [| |p]; cbn; try done.
  by rewrite remove_front_nil, remove_downwards_nil.
Qed.

Lemma clearSensitiveFields_no_hidden (v : value) :
  no_hidden_recipients (clearSensitiveFields v).
Proof.
  destruct v. unfold no_hidden_recipients. cbn.
  split; apply clear_prop_no_entries.
Qed.

(** On the value itself the two functions agree. *)
Lemma stripHiddenRecipients_no_hidden (v : value) :
  no_hidden_recipients (stripHiddenRecipients v).
Proof.
  destruct v. unfold no_hidden_recipients. cbn.
  rewrite !strip_prop_clear_prop. split; apply clear_prop_no_entries.
Qed.

Lemma clearSensitiveFields_object_child (v w : value) :
  object_child (clearSensitiveFields v) w →
  ∃ w0, object_child v w0 ∧ w = clearSensitiveFields w0.
Proof.
  destruct v as [tn i hr to b c bc au ob tg irt tag ac pu up ft de].
  unfold object_child. cbn.
  destruct ob as [| |op]; cbn; try done.
  intros Hin. apply list_elem_of_fmap in Hin as (it & Heq & Hin).
  destruct it as [u|w0|x]; try done.
  exists w0. split; [done|]. by injection Heq.
Qed.

(** C3 (as the code has it).  After [clearSensitiveFields], the value and
    every value reached from it through [object] properties have no [bto]
    and no [bcc] entries. *)
Theorem clearSensitiveFields_object_tree (v w : value) :
  rtc object_child (clearSensitiveFields v) w →
  no_hidden_recipients w.
Proof.
  intros Hreach. remember (clearSensitiveFields v) as cv eqn:Hcv.
  revert v Hcv. induction Hreach as [x|x y z Hxy _ IH]; intros v ->.
  - apply clearSensitiveFields_no_hidden.
  - apply clearSensitiveFields_object_child in Hxy as (w0 & _ & ->).
    by apply (IH w0).
Qed.

End ClearSensitiveFields.

(** Over the whole tree the property fails: a value embedded in
    [target] keeps its [bto]. *)
Lemma clearSensitiveFields_target_keeps_bto :
  ¬ (∀ v w : Sample.value,
       rtc child (clearSensitiveFields v) w → no_hidden_recipients w).
Proof.
  intros Hall.
  destruct (Hall Sample.offer Sample.note) as [Hbto _]; [|exact Hbto].
  apply rtc_once. unfold child. cbn.
  do 6 right. left. apply list_elem_of_here.
Qed.

Lemma clearSensitiveFields_object_tree_witness :
  rtc object_child (clearSensitiveFields Sample.announce)
    (clearSensitiveFields Sample.note) ∧
  no_hidden_recipients (clearSensitiveFields Sample.note).
Proof.
  assert (Hreach : rtc object_child (clearSensitiveFields Sample.announce)
                     (clearSensitiveFields Sample.note)).
  { apply rtc_once. unfold object_child. cbn. apply list_elem_of_here. }
  split; [exact Hreach|].
  exact (clearSensitiveFields_object_tree Sample.announce _ Hreach).
Defined.

(** ** [toTombstone] *)

Section ToTombstone.

Context {URL Time : Type}.

(** C6 (as the code has it).  A Tombstone made from a Tombstone agrees
    with the Tombstone made from the object in [id], [published],
    [updated] and [deleted]; its [formerType] is [Tombstone], where the
    first one has the type name of the object.  The two are the same value
    exactly when the object was itself of type Tombstone. *)
Theorem toTombstone_twice (obj : Value URL Time) (id : URL) (t1 t2 : Time) :
  let once := toTombstone obj id t2 in
  let twice := toTombstone (toTombstone obj id t1) id t2 in
  twice = SetActivityStreamsFormerType [ItemOther "Tombstone"] once ∧
  id_ twice = id_ once ∧
  published twice = published once ∧
  updated twice = updated once ∧
  deleted twice = deleted once ∧
  formerType once = Prop_ [ItemOther (typeName obj)] ∧
  formerType twice = Prop_ [ItemOther "Tombstone"] ∧
  (twice = once ↔ typeName obj = "Tombstone").
Proof.
  destruct obj as [tn i hr to b c bc au ob tg irt tag ac pu up ft de].
  unfold toTombstone. cbn.
  destruct pu as [| |pub], up as [| |upd]; cbn;
    (repeat (split; [reflexivity|]));
    (split; [intros Heq; by injection Heq | by intros ->]).
Qed.

End ToTombstone.

(** Applied to a Note, the second Tombstone is not the first one: its
    [formerType] is [Tombstone], not [Note]. *)
Lemma toTombstone_twice_differs :
  toTombstone (toTombstone Sample.note Sample.alice 1%Z) Sample.alice 2%Z
    ≠ toTombstone Sample.note Sample.alice 2%Z ∧
  formerType (toTombstone (toTombstone Sample.note Sample.alice 1%Z)
                Sample.alice 2%Z)
    ≠ formerType (toTombstone Sample.note Sample.alice 2%Z).
Proof. split; intros Heq; discriminate Heq. Qed.

(** ** [mustHaveActivityActorsMatchObjectActors] *)

Section ActorsMatch.

Context {URL : Type} (url_String : URL -> string) {Time Tport : Type}.
Variable newTransport : URL -> string -> outcome Tport.
Variable Dereference : Tport -> URL -> outcome (list Byte.byte).
Variable json_Unmarshal : list Byte.byte -> outcome (gmap string JSON).
Variable streams_ToType : gmap string JSON -> outcome (Value URL Time).
Variable goFedUserAgent : string.

Abbreviation mustMatch :=
  (mustHaveActivityActorsMatchObjectActors url_String newTransport
     Dereference json_Unmarshal streams_ToType goFedUserAgent).

(** An embedded value is rejected before its actors are looked at. *)
Lemma object_value_embedded (boxIRI : URL) (v : Value URL Time) :
  object_value newTransport Dereference json_Unmarshal streams_ToType
    goFedUserAgent boxIRI (ItemType v)
  = Err "cannot verify actors: object is neither a value nor IRI".
Proof. reflexivity. Qed.

(** An object given as an IRI is fetched, and accepted when its actors
    are among those of the activity. *)
Lemma mustMatch_dereferenced (a iri boxIRI : URL) (tport : Tport)
    (b : list Byte.byte) (m : gmap string JSON) (t : Value URL Time) :
  newTransport boxIRI goFedUserAgent = Ok tport →
  Dereference tport iri = Ok b →
  json_Unmarshal b = Ok m →
  streams_ToType m = Ok t →
  actor t = Prop_ [ItemIRI a] →
  mustMatch [ItemIRI a] [ItemIRI iri] boxIRI = Ok tt.
Proof.
  intros Hn Hd Hj Hs Ha.
  unfold mustHaveActivityActorsMatchObjectActors. cbn.
  rewrite Hn. cbn. rewrite Hd. cbn. rewrite Hj. cbn. rewrite Hs. cbn.
  rewrite Ha. cbn. unfold bool_at. by rewrite lookup_insert_eq.
Qed.

End ActorsMatch.

(** C5 (failing input).  A Like by Alice embedded in an activity whose
    only actor is Alice: every actor of the object is an actor of the
    activity, and the check still fails, whatever the transport does. *)
Theorem mustHaveActivityActorsMatchObjectActors_embedded_rejected
    {Tport : Type} (newTransport : string -> string -> outcome Tport)
    (Dereference : Tport -> string -> outcome (list Byte.byte))
    (json_Unmarshal : list Byte.byte -> outcome (gmap string JSON))
    (streams_ToType : gmap string JSON -> outcome Sample.value)
    (goFedUserAgent boxIRI : string) :
  actor Sample.like = Prop_ [ItemIRI Sample.alice] ∧
  mustHaveActivityActorsMatchObjectActors id newTransport Dereference
    json_Unmarshal streams_ToType goFedUserAgent
    [ItemIRI Sample.alice] [ItemType Sample.like] boxIRI
  = Err "cannot verify actors: object is neither a value nor IRI".
Proof. split; reflexivity. Qed.

(** ** [IsActivityPubRequest] *)

Lemma prefix_spec (p s : string) :
  String.prefix p s = true ↔ ∃ post, s = p +:+ post.
Proof.
  revert s. induction p as [|a p IH]; intros s.
  - destruct s; cbn; (split; [intros _; by eexists|done]).
  - destruct s as [|b s]; cbn.
    + split; [done|]. intros [post Hpost]. discriminate Hpost.
    + destruct (Ascii.ascii_dec a b) as [->|Hne].
      * rewrite IH. split; intros [post Hpost]; exists post.
        -- by rewrite Hpost.
        -- by injection Hpost.
      * split; [done|]. intros [post Hpost]. injection Hpost as Hab _.
        by destruct Hne.
Qed.

Lemma strings_Contains_spec (s substr : string) :
  strings_Contains s substr = true ↔ contains s substr.
Proof.
  unfold contains. induction s as [|a s IH]; cbn [strings_Contains].
  - rewrite orb_false_r, prefix_spec. split.
    + intros [post Hpost]. by exists EmptyString, post.
    + intros (pre & post & Heq). destruct pre; [by exists post|discriminate Heq].
  - rewrite orb_true_iff, prefix_spec, IH. split.
    + intros [[post Hpost]|(pre & post & Heq)].
      * by exists EmptyString, post.
      * exists (String a pre), post. cbn. by rewrite Heq.
    + intros (pre & post & Heq). destruct pre as [|b pre]; cbn in Heq.
      * left. by exists post.
      * right. exists pre, post. by injection Heq.
Qed.

Lemma header_matches_spec (mediaTypes : list string) (header : string) :
  header_matches mediaTypes header = true ↔
  ∃ mediaType, mediaType ∈ mediaTypes ∧ contains header mediaType.
Proof.
  induction mediaTypes as [|mt rest IH]; cbn.
  - split; [done|]. intros (? & Hin & _). by apply elem_of_nil in Hin.
  - destruct (strings_Contains header mt) eqn:Hc.
    + split; [intros _|done]. exists mt. split; [apply list_elem_of_here|].
      by apply strings_Contains_spec.
    + rewrite IH. split.
      * intros (m & Hin & Hm). exists m. split; [by apply list_elem_of_further|done].
      * intros (m & Hin & Hm). apply elem_of_cons in Hin as [->|Hin].
        -- apply strings_Contains_spec in Hm. congruence.
        -- by exists m.
Qed.

(** C8.  The accepted media types are [application/activity+json] and
    [application/ld+json] followed by [;], with no or one space on either
    side, and the activitystreams profile, quoted or not.
    [IsActivityPubRequest] holds exactly of a POST whose [Content-Type]
    contains one of them and of a GET whose [Accept] contains one of
    them. *)
Theorem IsActivityPubRequest_spec (r : Request) :
  let as2 := "https://www.w3.org/ns/activitystreams" in
  let quoted := dquote +:+ as2 +:+ dquote in
  activityStreamsMediaTypes =
    [ "application/activity+json";
      "application/ld+json;profile=" +:+ as2;
      "application/ld+json;profile=" +:+ quoted;
      "application/ld+json ;profile=" +:+ as2;
      "application/ld+json ;profile=" +:+ quoted;
      "application/ld+json ; profile=" +:+ as2;
      "application/ld+json ; profile=" +:+ quoted;
      "application/ld+json; profile=" +:+ as2;
      "application/ld+json; profile=" +:+ quoted ] ∧
  (IsActivityPubRequest r = true ↔
   (Method r = "POST" ∧
    ∃ mediaType, mediaType ∈ activityStreamsMediaTypes ∧
      contains (Header_Get (Header r) "Content-Type") mediaType) ∨
   (Method r = "GET" ∧
    ∃ mediaType, mediaType ∈ activityStreamsMediaTypes ∧
      contains (Header_Get (Header r) "Accept") mediaType)).
Proof.
  split; [reflexivity|].
  unfold IsActivityPubRequest, isActivityPubGet, isActivityPubPost,
    headerIsActivityPubMediaType.
  rewrite orb_true_iff, !andb_true_iff, !String.eqb_eq, !header_matches_spec.
  unfold contentTypeHeader, acceptHeader. tauto.
Qed.

(** ** [serialize] *)

Lemma length_zero_empty (s : string) :
  Nat.eqb (String.length s) 0 = true ↔ s = EmptyString.
Proof. destruct s; cbn; split; done. Qed.

(** Deleting the key before or after the recursion is the same. *)
Lemma clean_value_delete_first (n : gmap string JSON) :
  clean_value (JMap n) = JMap (cleanFnRecur (delete jsonLDContext n)).
Proof. cbn. unfold cleanFnRecur. by rewrite fmap_delete. Qed.

Lemma clean_value_nested (path : list string) (j : JSON) (n : gmap string JSON) :
  lookup_path path (clean_value j) = Some (JMap n) →
  n !! jsonLDContext = None.
Proof.
  revert j. induction path as [|k path IH]; intros j.
  - destruct j; cbn; intros [= <-]. apply lookup_delete_eq.
  - destruct j as [| | | | |n0|]; cbn; try done.
    destruct (decide (jsonLDContext = k)) as [<-|Hne].
    + by rewrite lookup_delete_eq.
    + rewrite lookup_delete_ne, lookup_fmap by done.
      destruct (n0 !! k) as [x|]; cbn; [apply IH|done].
Qed.

Lemma cleanFnRecur_nested (m n : gmap string JSON) (path : list string) :
  path ≠ [] →
  lookup_path path (JMap (cleanFnRecur m)) = Some (JMap n) →
  n !! jsonLDContext = None.
Proof.
  destruct path as [|k path]; [done|]. intros _. cbn.
  unfold cleanFnRecur. rewrite lookup_fmap.
  destruct (m !! k) as [x|]; cbn; [apply clean_value_nested|done].
Qed.

Section SerializeFacts.

Variable range : gmap string string -> list (string * string).
Hypothesis range_permutation : ∀ v, range v ≡ₚ map_to_list v.

Lemma range_elem_of (v : gmap string string) (vocab alias : string) :
  (vocab, alias) ∈ range v ↔ v !! vocab = Some alias.
Proof using range_permutation.
  by rewrite range_permutation, elem_of_map_to_list.
Qed.

Lemma context_single_singleton (vocab alias : string) :
  context_single range {[vocab := alias]} =
  if decide (alias = EmptyString) then JString vocab
  else JStringMap {[alias := vocab]}.
Proof using range_permutation.
  unfold context_single.
  assert (Hr : range {[vocab := alias]} = [(vocab, alias)]).
  { apply Permutation_singleton_r.
    by rewrite range_permutation, map_to_list_singleton. }
  rewrite Hr. cbn.
  destruct (Nat.eqb (String.length alias) 0) eqn:Hlen.
  - apply length_zero_empty in Hlen. by rewrite decide_True.
  - rewrite decide_False; [done|]. intros ->. done.
Qed.

Lemma context_multi_fold (l : list (string * string))
    (acc : list JSON * gmap string string) :
  foldl (fun (acc : list JSON * gmap string string) (kv : string * string) =>
           let '(vocab, alias) := kv in
           if Nat.eqb (String.length alias) 0
           then (acc.1 ++ [JString vocab], acc.2)
           else (acc.1, <[alias := vocab]> acc.2)) acc l =
  (acc.1 ++ (JString <$> (filter (λ kv, kv.2 = EmptyString) l).*1),
   foldl alias_step acc.2 l).
Proof.
  revert acc. induction l as [|[vocab alias] l IH]; intros [arr aliases].
  - cbn. by rewrite app_nil_r.
  - cbn [foldl fst snd]. rewrite IH.
    assert (Hstep : alias_step aliases (vocab, alias) =
              if Nat.eqb (String.length alias) 0 then aliases
              else <[alias := vocab]> aliases) by done.
    rewrite Hstep.
    destruct (Nat.eqb (String.length alias) 0) eqn:Hlen; cbn [fst snd].
    + apply length_zero_empty in Hlen as ->.
      rewrite filter_cons_True by done. cbn. by rewrite <- app_assoc.
    + rewrite filter_cons_False by (cbn; intros ->; done). done.
Qed.

Lemma alias_fold_lookup (l : list (string * string)) (a : gmap string string)
    (alias vocab : string) :
  foldl alias_step a l !! alias = Some vocab →
  a !! alias = Some vocab ∨ ((vocab, alias) ∈ l ∧ alias ≠ EmptyString).
Proof.
  revert a. induction l as [|[k al] l IH]; intros a; cbn; [by left|].
  intros Hl. apply IH in Hl as [Hl|[Hin Hne]].
  - unfold alias_step in Hl. cbn in Hl.
    destruct (Nat.eqb (String.length al) 0) eqn:Hlen; [by left|].
    destruct (decide (al = alias)) as [->|Hd].
    + rewrite lookup_insert_eq in Hl. injection Hl as ->. right.
      split; [apply list_elem_of_here|]. intros ->. done.
    + rewrite lookup_insert_ne in Hl by done. by left.
  - right. split; [by apply list_elem_of_further|done].
Qed.

Lemma alias_fold_keeps (l : list (string * string)) (a : gmap string string)
    (alias : string) :
  is_Some (a !! alias) → is_Some (foldl alias_step a l !! alias).
Proof.
  revert a. induction l as [|[k al] l IH]; intros a Ha; cbn; [done|].
  apply IH. unfold alias_step. cbn.
  destruct (Nat.eqb (String.length al) 0); [done|].
  destruct (decide (al = alias)) as [->|Hd].
  - rewrite lookup_insert_eq. by eexists.
  - by rewrite lookup_insert_ne.
Qed.

Lemma alias_fold_bound (l : list (string * string)) (a : gmap string string)
    (vocab alias : string) :
  (vocab, alias) ∈ l → alias ≠ EmptyString →
  is_Some (foldl alias_step a l !! alias).
Proof.
  revert a. induction l as [|[k al] l IH]; intros a Hin Hne; cbn.
  - by apply elem_of_nil in Hin.
  - apply elem_of_cons in Hin as [[= <- <-]|Hin]; [|by apply IH].
    apply alias_fold_keeps. unfold alias_step. cbn.
    destruct (Nat.eqb (String.length alias) 0) eqn:Hlen.
    + by apply length_zero_empty in Hlen.
    + rewrite lookup_insert_eq. by eexists.
Qed.

Lemma context_single_not_map (v : gmap string string) (n : gmap string JSON) :
  context_single range v ≠ JMap n.
Proof.
  unfold context_single.
  assert (H : ∀ l c, c ≠ JMap n →
    foldl (fun (contextValue : JSON) (kv : string * string) =>
             let '(vocab, alias) := kv in
             if Nat.eqb (String.length alias) 0 then JString vocab
             else JStringMap {[ alias := vocab ]}) c l ≠ JMap n).
  { induction l as [|[k al] l IH]; intros c Hc; cbn; [done|].
    apply IH. by destruct (Nat.eqb (String.length al) 0). }
  by apply H.
Qed.

Lemma contextValue_of_clean (v : gmap string string) :
  clean_value (contextValue_of range v) = contextValue_of range v.
Proof.
  unfold contextValue_of. destruct (Nat.eqb (size v) 1).
  - pose proof (context_single_not_map v) as Hn.
    destruct (context_single range v); try done. by destruct (Hn m).
  - by destruct (context_multi range v).
Qed.

(** C7 (as the code has it).  [serialize] passes on the error of
    [Serialize].  Otherwise the root map gets [@context]: the bare
    vocabulary IRI for a single binding without alias, the object
    [{alias: vocab}] for a single aliased binding, and otherwise an array
    of the vocabulary IRIs without alias, each once, followed by one
    object that maps aliases to vocabularies: every entry of the object is
    an aliased binding and every alias in use has an entry.  Every other
    key of the root keeps its value, cleaned; and no map reached from the
    root through keys of maps has an [@context] key. *)
Theorem serialize_context (m : gmap string JSON) (v : gmap string string) :
  (∀ e, serialize range (Err e) v = Err e) ∧
  ∃ m' contextValue,
    serialize range (Ok m) v = Ok m' ∧
    m' !! jsonLDContext = Some contextValue ∧
    (∀ k, k ≠ jsonLDContext → m' !! k = clean_value <$> m !! k) ∧
    (∀ vocab, v = {[vocab := EmptyString]} → contextValue = JString vocab) ∧
    (∀ vocab alias, alias ≠ EmptyString → v = {[vocab := alias]} →
       contextValue = JStringMap {[alias := vocab]}) ∧
    (size v ≠ 1 →
     ∃ arr aliases,
       contextValue = JArray ((JString <$> arr) ++ [JStringMap aliases]) ∧
       NoDup arr ∧
       (∀ vocab, vocab ∈ arr ↔ v !! vocab = Some EmptyString) ∧
       (∀ alias vocab, aliases !! alias = Some vocab →
          v !! vocab = Some alias ∧ alias ≠ EmptyString) ∧
       (∀ vocab alias, v !! vocab = Some alias → alias ≠ EmptyString →
          is_Some (aliases !! alias))) ∧
    (∀ path n, path ≠ [] →
       lookup_path path (JMap m') = Some (JMap n) →
       n !! jsonLDContext = None).
Proof using range_permutation.
  split; [done|].
  exists (cleanFnRecur (<[jsonLDContext := contextValue_of range v]> m)),
    (contextValue_of range v).
  split; [done|]. split.
  { unfold cleanFnRecur. rewrite lookup_fmap, lookup_insert_eq. cbn.
    by rewrite contextValue_of_clean. }
  split.
  { intros k Hk. unfold cleanFnRecur.
    by rewrite lookup_fmap, lookup_insert_ne. }
  split.
  { intros vocab ->. unfold contextValue_of.
    rewrite map_size_singleton. cbn. by rewrite context_single_singleton. }
  split.
  { intros vocab alias Hne ->. unfold contextValue_of.
    rewrite map_size_singleton. cbn.
    rewrite context_single_singleton. by rewrite decide_False. }
  split; [|intros path n; apply cleanFnRecur_nested].
  intros Hsize. unfold contextValue_of.
  destruct (Nat.eqb (size v) 1) eqn:Hs; [by apply Nat.eqb_eq in Hs|].
  unfold context_multi. rewrite context_multi_fold. cbn [fst snd app].
  exists ((filter (λ kv : string * string, kv.2 = EmptyString) (range v)).*1),
    (foldl alias_step ∅ (range v)).
  split; [done|]. split.
  { eapply sublist_NoDup; [|apply fmap_sublist, sublist_filter].
    rewrite range_permutation. apply NoDup_fst_map_to_list. }
  split.
  { intros vocab. rewrite list_elem_of_fmap. split.
    - intros ([k al] & -> & Hin). apply list_elem_of_filter in Hin as [Hal Hin].
      cbn in Hal. subst al. by apply range_elem_of.
    - intros Hv. exists (vocab, EmptyString). split; [done|].
      apply list_elem_of_filter. split; [done|]. by apply range_elem_of. }
  split.
  { intros alias vocab Hl. apply alias_fold_lookup in Hl as [Hl|[Hin Hne]].
    - by rewrite lookup_empty in Hl.
    - split; [by apply range_elem_of|done]. }
  intros vocab alias Hv Hne. apply (alias_fold_bound _ _ vocab); [|done].
  by apply range_elem_of.
Qed.

End SerializeFacts.

(** Over arrays the property fails: a map inside an array keeps
    its [@context]. *)
Lemma serialize_array_keeps_context :
  ¬ (∀ (m : gmap string JSON) (v : gmap string string) m',
       serialize map_to_list (Ok m) v = Ok m' →
       ∀ n, json_nested (JMap m') (JMap n) → n !! jsonLDContext = None).
Proof.
  intros Hall.
  specialize (Hall Sample.payload Sample.bindings _ eq_refl Sample.nested_note).
  assert (Hnested : Sample.nested_note !! jsonLDContext = None).
  { apply Hall. eapply tc_l.
    - apply (json_child_map _ "object"). vm_compute. reflexivity.
    - apply tc_once, json_child_array, list_elem_of_here. }
  vm_compute in Hnested. discriminate Hnested.
Qed.

Lemma serialize_context_witness :
  (∀ v : gmap string string, map_to_list v ≡ₚ map_to_list v) ∧
  ∃ m', serialize map_to_list (Ok Sample.payload) Sample.bindings = Ok m' ∧
        m' !! jsonLDContext = Some (JString Sample.as2).
Proof.
  assert (Hr : ∀ v : gmap string string, map_to_list v ≡ₚ map_to_list v)
    by done.
  split; [exact Hr|].
  destruct (serialize_context map_to_list Hr Sample.payload Sample.bindings)
    as [_ (m' & cv & Hs & Hc & _ & Hbare & _)].
  exists m'. split; [exact Hs|].
  rewrite Hc. f_equal. by apply Hbare.
Defined.

(** ** [normalizeRecipients] *)

Section NormalizeRecipients.

Context {URL : Type} (url_String : URL -> string) {Time : Type}.

Abbreviation item := (Item URL (Value URL Time)).

Abbreviation keyed := (keyed url_String).

Lemma keyed_empty : keyed ∅.
Proof. intros k u Hl. by rewrite lookup_empty in Hl. Qed.

Lemma ids_nil : ids url_String (@nil item) = ∅.
Proof. done. Qed.

Lemma ids_cons (it : item) (p : list item) :
  ids url_String (it :: p) =
  match item_id_string url_String it with
  | Some s => {[s]} ∪ ids url_String p
  | None => ids url_String p
  end.
Proof. unfold ids. cbn. by destruct (item_id_string url_String it). Qed.

Lemma ids_app (p q : list item) :
  ids url_String (p ++ q) = ids url_String p ∪ ids url_String q.
Proof. unfold ids. by rewrite omap_app, list_to_set_app_L. Qed.

Lemma ids_IRI (u : URL) : ids url_String [@ItemIRI URL (Value URL Time) u] = {[url_String u]}.
Proof. unfold ids. cbn. set_solver. Qed.

Lemma collect_ids_spec (p : list item) (m m' : gmap string URL) :
  collect_ids url_String m p = Ok m' →
  dom m' = dom m ∪ ids url_String p ∧ Forall has_id p ∧ (keyed m → keyed m').
Proof.
  revert m. induction p as [|it p IH]; intros m; cbn [collect_ids].
  - intros [= <-]. rewrite ids_nil. split; [set_solver|]. by split.
  - rewrite ids_cons. unfold item_id_string.
    destruct (ToId it) as [u|e|] eqn:Hit; cbn [mbind outcome_bind]; try done.
    intros Hc. apply IH in Hc as (Hdom & Hall & Hkeyed).
    split; [rewrite Hdom, dom_insert_L; set_solver|].
    split; [constructor; [unfold has_id; by rewrite Hit|done]|].
    intros Hm. apply Hkeyed. intros k u' Hl.
    destruct (decide (url_String u = k)) as [<-|Hne].
    + rewrite lookup_insert_eq in Hl. by injection Hl as <-.
    + rewrite lookup_insert_ne in Hl by done. by apply Hm.
Qed.

Lemma append_fold_ids (present : gmap string URL) (l : list (string * URL))
    (p : list item) :
  (∀ k u, (k, u) ∈ l → url_String u = k) →
  ids url_String
    (foldl (fun (p : list item) (kv : string * URL) =>
              match present !! kv.1 with
              | Some _ => p
              | None => p ++ [ItemIRI kv.2]
              end) p l)
  = ids url_String p ∪ (list_to_set l.*1 ∖ dom present).
Proof.
  revert p. induction l as [|[k u] l IH]; intros p Hl; cbn [foldl].
  - cbn. set_solver.
  - rewrite IH by (intros ? ? ?; apply Hl; by apply list_elem_of_further).
    cbn [fst snd]. pose proof (Hl k u (list_elem_of_here _ _)) as Hk.
    destruct (present !! k) as [u'|] eqn:Hp.
    + apply (elem_of_dom_2 (D:=gset string)) in Hp. cbn. set_solver.
    + apply (not_elem_of_dom (D:=gset string)) in Hp.
      rewrite ids_app, ids_IRI, Hk. cbn. set_solver.
Qed.

Lemma append_fold_has_id (present : gmap string URL) (l : list (string * URL))
    (p : list item) :
  Forall has_id p →
  Forall has_id
    (foldl (fun (p : list item) (kv : string * URL) =>
              match present !! kv.1 with
              | Some _ => p
              | None => p ++ [ItemIRI kv.2]
              end) p l).
Proof.
  revert p. induction l as [|[k u] l IH]; intros p Hp; cbn [foldl]; [done|].
  apply IH. cbn. destruct (present !! k); [done|].
  apply Forall_app. split; [done|]. by repeat constructor.
Qed.

Lemma object_maps_domains (d : Dim) (o : list item)
    (objs : list recipientMaps) :
  Forall2 (λ it ms, ∀ d, dom (maps_get d ms) = object_ids url_String d it ∧
             keyed (maps_get d ms)) o objs →
  (dom <$> (maps_get d <$> objs) : list (gset string))
    = object_ids url_String d <$> o ∧
  Forall keyed (maps_get d <$> objs).
Proof.
  induction 1 as [|it ms o objs Hd _ [IH1 IH2]]; cbn; [by split|].
  destruct (Hd d) as [-> Hk]. rewrite IH1. split; [done|by constructor].
Qed.

Lemma objects_union (d : Dim) (A : gset string) (o o' : list item) :
  Forall2 (λ it it', object_ids url_String d it' =
             object_ids url_String d it ∪ A) o o' →
  o ≠ [] →
  ⋃ (object_ids url_String d <$> o') =
  A ∪ ⋃ (object_ids url_String d <$> o).
Proof.
  induction 1 as [|it it' o o' Hd Hrest IH]; [done|]. intros _. cbn.
  rewrite Hd. destruct Hrest as [|it2 it2' o o' Hd2 Hrest].
  - cbn. set_solver.
  - rewrite IH by done. set_solver.
Qed.

Section WithRange.

Variable range : gmap string URL -> list (string * URL).
Hypothesis range_permutation : ∀ m, range m ≡ₚ map_to_list m.

Lemma range_lookup (m : gmap string URL) (k : string) (u : URL) :
  (k, u) ∈ range m ↔ m !! k = Some u.
Proof using range_permutation.
  by rewrite range_permutation, elem_of_map_to_list.
Qed.

Lemma append_missing_ids (from present : gmap string URL) (p : list item) :
  keyed from →
  ids url_String (append_missing range from present p)
  = ids url_String p ∪ (dom from ∖ dom present).
Proof using range_permutation.
  intros Hk. unfold append_missing. rewrite append_fold_ids.
  - f_equal. f_equal. apply set_eq. intros k.
    rewrite elem_of_list_to_set, list_elem_of_fmap, elem_of_dom. split.
    + intros ([k' u] & -> & Hin). apply range_lookup in Hin. by eexists.
    + intros [u Hu]. exists (k, u). split; [done|]. by apply range_lookup.
  - intros k u Hin. apply range_lookup in Hin. by apply Hk.
Qed.

Lemma append_missing_has_id (from present : gmap string URL) (p : list item) :
  Forall has_id p → Forall has_id (append_missing range from present p).
Proof. apply append_fold_has_id. Qed.

(** *** Getters and setters *)

Lemma create_get_set (d d' : Dim) (p : list item) (a : Create URL Time) :
  create_get d' (create_set d p a) =
  if decide (d = d') then Some p else create_get d' a.
Proof. by destruct a, d, d'. Qed.

Lemma create_object_set (d : Dim) (p : list item) (a : Create URL Time) :
  create_object (create_set d p a) = create_object a.
Proof. by destruct a, d. Qed.

Lemma create_set_same (d : Dim) (p : list item) (a : Create URL Time) :
  create_get d a = Some p → create_set d p a = a.
Proof. destruct a, d; cbn; by intros ->. Qed.

Lemma create_get_set_object (d : Dim) (o : list item) (a : Create URL Time) :
  create_get d (create_set_object o a) = create_get d a.
Proof. by destruct a, d. Qed.

Lemma value_get_set (d d' : Dim) (p : list item) (v : Value URL Time) :
  value_get d' (value_set d p v) =
  if decide (d = d') then Prop_ p else value_get d' v.
Proof. by destruct v, d, d'. Qed.

Lemma value_set_same (d : Dim) (p : list item) (v : Value URL Time) :
  value_get d v = Prop_ p → value_set d p v = v.
Proof. destruct v, d; cbn; by intros ->. Qed.

Lemma object_ids_slot_list (d : Dim) (v : Value URL Time) :
  object_ids url_String d (ItemType v) =
  ids url_String (slot_list (value_get d v)).
Proof. unfold object_ids. by destruct (value_get d v). Qed.

(** *** The phases *)

Lemma activity_recipients_spec (d : Dim) (a a1 : Create URL Time)
    (m : gmap string URL) :
  activity_recipients url_String d a = Ok (a1, m) →
  a1 = create_set d (default [] (create_get d a)) a ∧
  collect_ids url_String ∅ (default [] (create_get d a)) = Ok m.
Proof.
  unfold activity_recipients.
  destruct (create_get d a) as [p|] eqn:Hget; cbn.
  - destruct (collect_ids url_String ∅ p); cbn; try done.
    intros [= <- <-]. by rewrite create_set_same.
  - by intros [= <- <-].
Qed.

Lemma object_recipients_spec (d : Dim) (i : nat) (it it' : item)
    (m : gmap string URL) :
  object_recipients url_String d i it = Ok (it', m) →
  ∃ v, it = ItemType v ∧
       it' = ItemType (value_set d (slot_list (value_get d v)) v) ∧
       collect_ids url_String ∅ (slot_list (value_get d v)) = Ok m.
Proof.
  unfold object_recipients. destruct it as [u|v|x]; cbn; try done.
  destruct (value_get d v) as [| |p] eqn:Hget; cbn; try done.
  - intros [= <- <-]. exists v. by rewrite Hget.
  - destruct (collect_ids url_String ∅ p) eqn:Hc; cbn; try done.
    intros [= <- <-]. exists v. rewrite Hget. cbn.
    by rewrite value_set_same.
Qed.

Lemma object_apply_spec (d : Dim) (actorMap objMap : gmap string URL)
    (v : Value URL Time) (p : list item) :
  value_get d v = Prop_ p →
  object_apply range d actorMap objMap (ItemType v) =
  ItemType (value_set d (append_missing range actorMap objMap p) v).
Proof. unfold object_apply. by intros ->. Qed.

Lemma object_normalize_spec (actor ms : recipientMaps) (i : nat)
    (it it' : item) :
  object_normalize url_String range actor i it = Ok (it', ms) →
  ∃ v v', it = ItemType v ∧ it' = ItemType v' ∧
    ∀ d, value_get d v' =
           Prop_ (append_missing range (maps_get d actor) (maps_get d ms)
                    (slot_list (value_get d v))) ∧
         collect_ids url_String ∅ (slot_list (value_get d v))
           = Ok (maps_get d ms).
Proof.
  unfold object_normalize. intros H.
  destruct (object_recipients url_String DTo i it) as [[it1 m1]| |] eqn:H1;
    cbn [mbind outcome_bind] in H; try done.
  destruct (object_recipients url_String DBto i it1) as [[it2 m2]| |] eqn:H2;
    cbn [mbind outcome_bind] in H; try done.
  destruct (object_recipients url_String DCc i it2) as [[it3 m3]| |] eqn:H3;
    cbn [mbind outcome_bind] in H; try done.
  destruct (object_recipients url_String DBcc i it3) as [[it4 m4]| |] eqn:H4;
    cbn [mbind outcome_bind] in H; try done.
  destruct (object_recipients url_String DAudience i it4)
    as [[it5 m5]| |] eqn:H5; cbn [mbind outcome_bind] in H; try done.
  injection H as <- <-.
  apply object_recipients_spec in H1 as (v & -> & -> & Hc1).
  apply object_recipients_spec in H2 as (v2 & [= <-] & -> & Hc2).
  apply object_recipients_spec in H3 as (v3 & [= <-] & -> & Hc3).
  apply object_recipients_spec in H4 as (v4 & [= <-] & -> & Hc4).
  apply object_recipients_spec in H5 as (v5 & [= <-] & -> & Hc5).
  destruct v as [tn i0 hr to b c bc au ob tg irt tag ac pu up ft de].
  cbn in *. eexists _, _. split; [done|]. split; [done|].
  intros d. by destruct d.
Qed.

Lemma object_normalize_ids (actor ms : recipientMaps) (i : nat)
    (it it' : item) :
  (∀ d, keyed (maps_get d actor)) →
  object_normalize url_String range actor i it = Ok (it', ms) →
  ∀ d, object_ids url_String d it' =
         object_ids url_String d it ∪ dom (maps_get d actor) ∧
       dom (maps_get d ms) = object_ids url_String d it ∧
       keyed (maps_get d ms).
Proof using range_permutation.
  intros Hk H. apply object_normalize_spec in H as (v & v' & -> & -> & Hd).
  intros d. destruct (Hd d) as [Hget Hc].
  apply collect_ids_spec in Hc as (Hdom & _ & Hkeyed).
  rewrite dom_empty_L, union_empty_l_L in Hdom.
  rewrite !object_ids_slot_list, Hget. cbn [slot_list].
  rewrite append_missing_ids by (done || apply Hk).
  rewrite Hdom, union_difference_same.
  split; [done|]. split; [done|]. apply Hkeyed, keyed_empty.
Qed.

Lemma objects_loop_spec (actor : recipientMaps) (i : nat)
    (o o' : list item) (objs : list recipientMaps) :
  (∀ d, keyed (maps_get d actor)) →
  objects_loop url_String range actor i o = Ok (o', objs) →
  Forall2 (λ it it', ∀ d, object_ids url_String d it' =
             object_ids url_String d it ∪ dom (maps_get d actor)) o o' ∧
  Forall2 (λ it ms, ∀ d, dom (maps_get d ms) = object_ids url_String d it ∧
             keyed (maps_get d ms)) o objs.
Proof using range_permutation.
  intros Hk. revert i o' objs.
  induction o as [|it o IH]; intros i o' objs; cbn [objects_loop].
  - intros [= <- <-]. split; constructor.
  - destruct (object_normalize url_String range actor i it)
      as [[it' ms]| |] eqn:Hn; cbn [mbind outcome_bind]; try done.
    destruct (objects_loop url_String range actor (S i) o)
      as [[rest objs']| |] eqn:Hl; cbn [mbind outcome_bind]; try done.
    intros [= <- <-]. apply IH in Hl as [Ho Hm].
    pose proof (object_normalize_ids _ _ _ _ _ Hk Hn) as Hids.
    split; constructor; try done; intros d; by destruct (Hids d) as (? & ? & ?).
Qed.

Lemma apply_fold_ids (actorMap : gmap string URL)
    (objs : list (gmap string URL)) (p : list item) :
  Forall keyed objs →
  ids url_String
    (foldl (fun p objMap => append_missing range objMap actorMap p) p objs)
  = ids url_String p ∪ (⋃ (dom <$> objs : list (gset string)) ∖ dom actorMap).
Proof using range_permutation.
  revert p. induction objs as [|m objs IH]; intros p Hk; cbn [foldl].
  - cbn. set_solver.
  - apply Forall_cons in Hk as [Hm Hk].
    rewrite IH, append_missing_ids by done. cbn. set_solver.
Qed.

(** What [normalizeRecipients] leaves in the activity, phase by phase. *)
Lemma normalizeRecipients_shape (a a' : Create URL Time) :
  normalizeRecipients url_String range a = Ok a' →
  ∃ o o' actor objs,
    create_object a = Some o ∧ create_object a' = Some o' ∧
    objects_loop url_String range actor 0 o = Ok (o', objs) ∧
    (∀ d, collect_ids url_String ∅ (default [] (create_get d a))
          = Ok (maps_get d actor)) ∧
    (∀ d, create_get d a' =
          Some (foldl (fun p objMap =>
                         append_missing range objMap (maps_get d actor) p)
                  (default [] (create_get d a)) (maps_get d <$> objs))).
Proof.
  unfold normalizeRecipients. intros H.
  destruct (activity_recipients url_String DTo a) as [[a1 m1]| |] eqn:H1;
    cbn [mbind outcome_bind] in H; try done.
  destruct (activity_recipients url_String DBto a1) as [[a2 m2]| |] eqn:H2;
    cbn [mbind outcome_bind] in H; try done.
  destruct (activity_recipients url_String DCc a2) as [[a3 m3]| |] eqn:H3;
    cbn [mbind outcome_bind] in H; try done.
  destruct (activity_recipients url_String DBcc a3) as [[a4 m4]| |] eqn:H4;
    cbn [mbind outcome_bind] in H; try done.
  destruct (activity_recipients url_String DAudience a4)
    as [[a5 m5]| |] eqn:H5; cbn [mbind outcome_bind] in H; try done.
  apply activity_recipients_spec in H1 as [-> Hc1].
  apply activity_recipients_spec in H2 as [-> Hc2].
  apply activity_recipients_spec in H3 as [-> Hc3].
  apply activity_recipients_spec in H4 as [-> Hc4].
  apply activity_recipients_spec in H5 as [-> Hc5].
  destruct a as [to b c bc au ob]. cbn in H, Hc1, Hc2, Hc3, Hc4, Hc5.
  destruct ob as [o|]; [|done].
  destruct (objects_loop url_String range (mkMaps m1 m2 m3 m4 m5) 0 o)
    as [[o' objs]| |] eqn:Hl; cbn [mbind outcome_bind] in H; try done.
  injection H as <-.
  exists o, o', (mkMaps m1 m2 m3 m4 m5), objs.
  split; [done|]. split; [done|]. split; [done|].
  split; intros d; by destruct d.
Qed.

(** C1 (as the code has it).  When [normalizeRecipients] returns without
    error, for each of [to], [bto], [cc], [bcc] and [audience]: the
    property of the activity becomes, as a set, its original value united
    with the original values of all objects; the property of each object
    becomes its original value united with the original value of the
    activity, and with nothing else; and, when the activity has at least
    one object, the property of the activity equals the union of the
    properties of the objects. *)
Theorem normalizeRecipients_union (a a' : Create URL Time) :
  normalizeRecipients url_String range a = Ok a' →
  ∃ o o',
    create_object a = Some o ∧ create_object a' = Some o' ∧
    ∀ d,
      activity_ids url_String d a' =
        activity_ids url_String d a ∪ ⋃ (object_ids url_String d <$> o) ∧
      Forall2 (λ it it', object_ids url_String d it' =
                 object_ids url_String d it ∪ activity_ids url_String d a)
        o o' ∧
      (o ≠ [] →
       activity_ids url_String d a' = ⋃ (object_ids url_String d <$> o')).
Proof using range_permutation.
  intros H.
  apply normalizeRecipients_shape in H
    as (o & o' & actor & objs & Ho & Ho' & Hloop & Hactor & Hget).
  assert (Hdom : ∀ d, dom (maps_get d actor) = activity_ids url_String d a ∧
                      keyed (maps_get d actor)).
  { intros d. destruct (collect_ids_spec _ _ _ (Hactor d)) as (Hd & _ & Hk).
    rewrite dom_empty_L, union_empty_l_L in Hd.
    split; [done|]. apply Hk, keyed_empty. }
  apply objects_loop_spec in Hloop as [Hobjs Hmaps];
    [|intros d; apply Hdom].
  exists o, o'. split; [done|]. split; [done|]. intros d.
  destruct (Hdom d) as [HA HkA].
  destruct (object_maps_domains d _ _ Hmaps) as [Hdoms Hkeyed].
  assert (Hobjs_d : Forall2 (λ it it', object_ids url_String d it' =
             object_ids url_String d it ∪ activity_ids url_String d a) o o').
  { eapply Forall2_impl; [exact Hobjs|]. intros it it' Hd. cbn in Hd.
    by rewrite Hd, HA. }
  assert (Hact : activity_ids url_String d a' =
            activity_ids url_String d a ∪
            ⋃ (object_ids url_String d <$> o)).
  { unfold activity_ids at 1. rewrite Hget. cbn [default from_option id].
    rewrite apply_fold_ids by done. rewrite Hdoms, HA.
    apply union_difference_same. }
  split; [done|]. split; [done|].
  intros Hne. rewrite Hact, (objects_union d _ _ _ Hobjs_d Hne). done.
Qed.

End WithRange.

End NormalizeRecipients.

(** The symmetry fails on an activity whose [object]
    property has no elements: its [to] keeps Bob and there is no object
    to address. *)
Lemma normalizeRecipients_no_objects :
  ¬ (∀ a a' : Create string Z,
       normalizeRecipients id map_to_list a = Ok a' →
       ∀ d, activity_ids id d a' = ⋃ (object_ids id d <$> objects_of a')).
Proof.
  intros Hall.
  assert (Hn : normalizeRecipients id map_to_list Sample.create_empty =
               Ok (mkCreate (Some [ItemIRI Sample.bob]) (Some []) (Some [])
                     (Some []) (Some []) (Some []))) by reflexivity.
  specialize (Hall _ _ Hn DTo).
  assert (Hin : Sample.bob ∈ activity_ids id DTo
                  (mkCreate (Some [ItemIRI Sample.bob]) (Some []) (Some [])
                     (Some []) (Some []) (Some []) : Create string Z)).
  { unfold activity_ids, ids. cbn. set_solver. }
  rewrite Hall in Hin. cbn in Hin. by apply elem_of_empty in Hin.
Qed.

Lemma normalizeRecipients_union_witness :
  (∀ m : gmap string string, map_to_list m ≡ₚ map_to_list m) ∧
  ∃ a', normalizeRecipients id map_to_list Sample.create_note = Ok a' ∧
        activity_ids id DTo a' =
          ⋃ (object_ids id DTo <$> objects_of a').
Proof.
  assert (Hr : ∀ m : gmap string string, map_to_list m ≡ₚ map_to_list m)
    by done.
  split; [exact Hr|].
  destruct (normalizeRecipients id map_to_list Sample.create_note)
    as [a'| |] eqn:Hn; [|vm_compute in Hn; discriminate Hn..].
  exists a'. split; [reflexivity|].
  destruct (normalizeRecipients_union id map_to_list Hr _ _ Hn)
    as (o & o' & Ho & Ho' & Hd).
  destruct (Hd DTo) as (_ & _ & Hsym).
  unfold objects_of. rewrite Ho'. apply Hsym.
  cbn in Ho. injection Ho as <-. done.
Defined.

(** ** [Deliver] and [BatchDeliver] *)

Lemma go_copy_full {A} (dst src : list A) :
  length dst = length src → go_copy dst src = src.
Proof.
  intros Hlen. unfold go_copy.
  rewrite Hlen, firstn_all, drop_ge, app_nil_r by lia. done.
Qed.

Lemma insert_middle_split {A} (l : list A) (i : nat) (t t' : A) :
  l !! i = Some t →
  ∃ pre post, l = pre ++ t :: post ∧ <[i := t']> l = pre ++ t' :: post.
Proof.
  intros Hi. exists (take i l), (drop (S i) l). split.
  - by rewrite take_drop_middle.
  - apply insert_take_drop. by eapply lookup_lt_Some.
Qed.

Lemma omap_cons_list {A B} (f : A -> option B) (x : A) (l : list A) :
  omap f (x :: l) = option_list (f x) ++ omap f l.
Proof. cbn. by destruct (f x). Qed.

Lemma omap_insert_perm {A B} (f : A -> option B) (l : list A) (i : nat)
    (t t' : A) :
  l !! i = Some t → f t = None →
  omap f (<[i := t']> l) ≡ₚ omap f l ++ option_list (f t').
Proof.
  intros Hi Hf.
  destruct (insert_middle_split l i t t' Hi) as (pre & post & -> & ->).
  rewrite !omap_app, !omap_cons_list, Hf. cbn [option_list app].
  rewrite <- app_assoc. apply Permutation_app_head, Permutation_app_comm.
Qed.

Lemma sum_list_insert {A} (f : A -> nat) (l : list A) (i : nat) (t t' : A) :
  l !! i = Some t →
  sum_list_with f (<[i := t']> l) + f t = sum_list_with f l + f t'.
Proof.
  intros Hi.
  destruct (insert_middle_split l i t t' Hi) as (pre & post & -> & ->).
  rewrite !sum_list_with_app. cbn. lia.
Qed.

Lemma fmap_insert_same {A B} (f : A -> B) (l : list A) (i : nat) (t t' : A) :
  l !! i = Some t → f t' = f t → f <$> <[i := t']> l = f <$> l.
Proof.
  intros Hi Hf. rewrite list_fmap_insert, Hf. apply list_insert_id.
  by rewrite list_lookup_fmap, Hi.
Qed.

Lemma forallb_false_lookup {A} (f : A -> bool) (l : list A) :
  forallb f l = false → ∃ i t, l !! i = Some t ∧ f t = false.
Proof.
  induction l as [|x l IH]; cbn; [done|].
  destruct (f x) eqn:Hx; cbn.
  - intros Hl. destruct (IH Hl) as (i & t & Hi & Ht). by exists (S i), t.
  - intros _. by exists 0, x.
Qed.

Section TransportFacts.

Context {URL : Type} (url_String url_Host : URL -> string) {World : Type}.
Variable clock_Now : World -> World * string.
Variable http_NewRequest : string -> string -> option string.
Variable sha256_Sum256 : list Byte.byte -> list Byte.byte.
Variable base64_EncodeToString : list Byte.byte -> string.
Variable SignRequest : World -> Request -> World * Request * option string.
Variable client_Do :
  World -> Request -> list Byte.byte ->
  World * list Byte.byte * (string + Response).
Variable fmt_extra :
  list Byte.byte -> list Byte.byte -> gmap string (list string) -> string.
Variables appAgent gofedAgent : string.

Abbreviation prepare :=
  (Deliver_prepare url_String url_Host clock_Now http_NewRequest
     sha256_Sum256 base64_EncodeToString appAgent gofedAgent).
Abbreviation sign := (Deliver_sign SignRequest).
Abbreviation send := (Deliver_send url_String client_Do fmt_extra).
Abbreviation deliver :=
  (Deliver url_String url_Host clock_Now http_NewRequest sha256_Sum256
     base64_EncodeToString SignRequest client_Do fmt_extra appAgent
     gofedAgent).
Abbreviation tstep :=
  (task_step url_String url_Host clock_Now http_NewRequest sha256_Sum256
     base64_EncodeToString SignRequest client_Do fmt_extra appAgent
     gofedAgent).
Abbreviation bstep :=
  (batch_step url_String url_Host clock_Now http_NewRequest sha256_Sum256
     base64_EncodeToString SignRequest client_Do fmt_extra appAgent
     gofedAgent).
Abbreviation batchDeliver :=
  (BatchDeliver url_String url_Host clock_Now http_NewRequest sha256_Sum256
     base64_EncodeToString SignRequest client_Do fmt_extra appAgent
     gofedAgent).

(** *** The three stages of [Deliver] *)

Lemma prepare_spec (σ σ1 : Machine) (b : nat) (to : URL)
    (payload : list Byte.byte) (res : string + nat * Request) :
  heap σ !! b = Some payload →
  prepare σ b to = (σ1, res) →
  fresh (dom (heap σ)) ∉ dom (heap σ) ∧
  heap σ1 = <[fresh (dom (heap σ)) := payload]> (heap σ) ∧
  wire σ1 = wire σ ∧
  match res with
  | inl _ => True
  | inr (l, _) => l = fresh (dom (heap σ))
  end.
Proof.
  intros Hb. unfold Deliver_prepare.
  pose proof (is_fresh (dom (heap σ))) as Hfresh.
  set (l := fresh (dom (heap σ))) in *.
  assert (Hne : l ≠ b).
  { intros ->. apply Hfresh. apply elem_of_dom. by eexists. }
  assert (Hheap :
    <[l := go_copy
             (read_slice (mkMachine (<[l := replicate (length (read_slice σ b)) Byte.x00]> (heap σ)) (world σ) (wire σ)) l)
             (read_slice (mkMachine (<[l := replicate (length (read_slice σ b)) Byte.x00]> (heap σ)) (world σ) (wire σ)) b)]>
      (<[l := replicate (length (read_slice σ b)) Byte.x00]> (heap σ))
    = <[l := payload]> (heap σ)).
  { unfold read_slice. cbn [heap].
    rewrite lookup_insert_eq, lookup_insert_ne, Hb by done.
    cbn [default from_option id].
    rewrite go_copy_full by apply length_replicate.
    apply insert_insert_eq. }
  cbn [heap world wire]. rewrite Hheap.
  destruct (http_NewRequest "POST" (url_String to)) as [err|].
  - intros [= <- <-]. done.
  - destruct (clock_Now (world σ)) as [w now]. intros [= <- <-]. done.
Qed.

Lemma sign_spec (σ σ1 : Machine) (req : Request) (res : string + Request) :
  sign σ req = (σ1, res) → heap σ1 = heap σ ∧ wire σ1 = wire σ.
Proof.
  unfold Deliver_sign. destruct (SignRequest (world σ) req) as [[w req'] err].
  destruct err; intros [= <- <-]; done.
Qed.

Lemma send_spec (σ σ1 : Machine) (to : URL) (l : nat) (req : Request)
    (err : option string) :
  send σ to l req = (σ1, err) →
  ∃ remains, heap σ1 = <[l := remains]> (heap σ) ∧
             wire σ1 = wire σ ++ [(RequestURL req, read_slice σ l)].
Proof.
  unfold Deliver_send.
  destruct (client_Do (world σ) req (read_slice σ l)) as [[w remains] r].
  destruct r as [e|resp]; [|destruct (negb (isSuccess (StatusCode resp)))];
    intros [= <- <-]; by exists remains.
Qed.

(** *** One atomic action *)

Lemma tstep_cases (b : nat) (β β' : Batch) (i : nat) :
  tstep b β i = Some β' →
  ∃ t t',
    tasks β !! i = Some t ∧
    tasks β' = <[i := t']> (tasks β) ∧
    task_recipient t' = task_recipient t ∧
    task_remaining t' < task_remaining t ∧
    task_outcome t = None ∧
    errCh β' = errCh β ++ option_list (task_outcome t') ∧
    match t with
    | TReady r =>
        ∃ res, prepare (machine β) b r = (machine β', res) ∧
               t' = match res with
                    | inl err => TReturned r (Some err)
                    | inr (byteCopy, req) => TPrepared r byteCopy req
                    end
    | TPrepared r byteCopy req =>
        ∃ res, sign (machine β) req = (machine β', res) ∧
               t' = match res with
                    | inl err => TReturned r (Some err)
                    | inr req => TSigned r byteCopy req
                    end
    | TSigned r byteCopy req =>
        ∃ err, send (machine β) r byteCopy req = (machine β', err) ∧
               t' = TReturned r err
    | TReturned r err => machine β' = machine β ∧ t' = TDone r err
    | TDone _ _ => False
    end.
Proof.
  unfold task_step. destruct (tasks β !! i) as [t|] eqn:Hi; [|done]. cbn.
  destruct t as [r|r l req|r l req|r err|r err].
  - destruct (prepare (machine β) b r) as [σ res] eqn:Hp.
    intros [= <-]. eexists _, _. split; [done|]. cbn [tasks machine errCh].
    split; [done|].
    destruct res as [e|[l req]]; cbn; rewrite app_nil_r;
      (repeat split; try done; try lia); by eexists.
  - destruct (sign (machine β) req) as [σ res] eqn:Hs.
    intros [= <-]. eexists _, _. split; [done|]. cbn [tasks machine errCh].
    split; [done|].
    destruct res as [e|req']; cbn; rewrite app_nil_r;
      (repeat split; try done; try lia); by eexists.
  - destruct (send (machine β) r l req) as [σ err] eqn:Hs.
    intros [= <-]. eexists _, _. split; [done|]. cbn [tasks machine errCh].
    split; [done|]. cbn. rewrite app_nil_r.
    (repeat split; try done; try lia). by eexists.
  - intros [= <-]. eexists _, _. split; [done|]. cbn [tasks machine errCh].
    split; [done|]. cbn. destruct err; cbn; rewrite ?app_nil_r;
      repeat split; try done; lia.
  - done.
Qed.

(** Every action uses up one of the at most four a goroutine has. *)
Lemma bstep_remaining (b : nat) (β β' : Batch) :
  bstep b β β' → batch_remaining β' < batch_remaining β.
Proof.
  intros [i Hstep]. apply tstep_cases in Hstep
    as (t & t' & Hi & Ht & _ & Hlt & _).
  unfold batch_remaining. rewrite Ht.
  pose proof (sum_list_insert task_remaining _ _ _ t' Hi). lia.
Qed.

(** A batch with an unfinished goroutine can take a step. *)
Lemma bstep_progress (b : nat) (β : Batch) :
  batch_finished β = false → ∃ β', bstep b β β'.
Proof.
  unfold batch_finished. intros Hf.
  apply forallb_false_lookup in Hf as (i & t & Hi & Hnd).
  assert (Hsome : is_Some (tstep b β i)).
  { unfold task_step. rewrite Hi. cbn.
    destruct t as [r|r l req|r l req|r err|r err]; [..|done].
    - by destruct (prepare (machine β) b r) as [σ res].
    - by destruct (sign (machine β) req) as [σ res].
    - by destruct (send (machine β) r l req) as [σ err].
    - done. }
  destruct Hsome as [β' Hβ']. by exists β', i.
Qed.

(** Every run can be continued to the end. *)
Lemma bstep_terminates (b : nat) (β : Batch) :
  ∃ β', rtc (bstep b) β β' ∧ batch_finished β' = true.
Proof.
  remember (batch_remaining β) as n eqn:Hn. revert β Hn.
  induction (lt_wf n) as [n _ IH]. intros β ->.
  destruct (batch_finished β) eqn:Hf.
  - exists β. by split.
  - destruct (bstep_progress b β Hf) as [β1 Hstep].
    destruct (IH _ (bstep_remaining _ _ _ Hstep) β1 eq_refl)
      as (β' & Hrun & Hfin).
    exists β'. split; [by eapply rtc_l|done].
Qed.

(** *** The payload along a run *)

Lemma batch_inv_update (b : nat) (payload : list Byte.byte)
    (wire0 new : list (string * list Byte.byte)) (β β' : @Batch URL World) (i : nat)
    (t t' : @task URL) :
  batch_inv b payload wire0 β →
  tasks β !! i = Some t →
  tasks β' = <[i := t']> (tasks β) →
  heap (machine β') !! b = Some payload →
  (∀ j tj l, j ≠ i → tasks β !! j = Some tj → task_buffer tj = Some l →
     heap (machine β') !! l = Some payload) →
  (∀ l, task_buffer t' = Some l →
     l ≠ b ∧ heap (machine β') !! l = Some payload ∧
     ∀ j tj, j ≠ i → tasks β !! j = Some tj → task_buffer tj ≠ Some l) →
  wire (machine β') = wire (machine β) ++ new →
  Forall (λ e : string * list Byte.byte, e.2 = payload) new →
  batch_inv b payload wire0 β'.
Proof.
  intros (Hb & Hbuf & Huniq & sent & Hw & Hsent) Hi Ht Hb' Hothers Hown Hw' Hnew.
  assert (Hlt : i < length (tasks β)) by (by eapply lookup_lt_Some).
  split; [done|]. split; [|split].
  - intros j tj l Hj Hl. rewrite Ht in Hj.
    destruct (decide (j = i)) as [->|Hne].
    + rewrite list_lookup_insert_eq in Hj by done. injection Hj as <-.
      destruct (Hown l Hl) as (? & ? & _). done.
    + rewrite list_lookup_insert_ne in Hj by done.
      split; [by eapply Hbuf|by eapply Hothers].
  - intros j k tj tk l Hj Hk Hlj Hlk. rewrite Ht in Hj, Hk.
    destruct (decide (j = i)) as [->|Hji], (decide (k = i)) as [->|Hki];
      [done|..].
    + rewrite list_lookup_insert_eq in Hj by done. injection Hj as <-.
      rewrite list_lookup_insert_ne in Hk by done.
      destruct (Hown l Hlj) as (_ & _ & Hno). by destruct (Hno k tk).
    + rewrite list_lookup_insert_eq in Hk by done. injection Hk as <-.
      rewrite list_lookup_insert_ne in Hj by done.
      destruct (Hown l Hlk) as (_ & _ & Hno). by destruct (Hno j tj).
    + rewrite list_lookup_insert_ne in Hj, Hk by done. by eapply Huniq.
  - exists (sent ++ new). rewrite Hw', Hw, app_assoc. split; [done|].
    by apply Forall_app.
Qed.

Lemma bstep_inv (b : nat) (payload : list Byte.byte)
    (wire0 : list (string * list Byte.byte)) (β β' : @Batch URL World) :
  batch_inv b payload wire0 β → bstep b β β' → batch_inv b payload wire0 β'.
Proof.
  intros Hinv [i Hstep].
  apply tstep_cases in Hstep as (t & t' & Hi & Ht & _ & _ & _ & _ & Hcase).
  pose proof Hinv as (Hb & Hbuf & Huniq & _).
  destruct t as [r|r l req|r l req|r err|r err]; [| | | |done].
  - destruct Hcase as (res & Hp & ->).
    apply (prepare_spec _ _ _ _ payload) in Hp as (Hfresh & Hheap & Hwire & Hres);
      [|done].
    assert (Hin : ∀ l, heap (machine β) !! l = Some payload →
                       l ≠ fresh (dom (heap (machine β)))).
    { intros l Hl ->. apply Hfresh, elem_of_dom. by eexists. }
    apply (batch_inv_update b payload wire0 [] β β' i (TReady r) _ Hinv Hi Ht).
    + rewrite Hheap, lookup_insert_ne; [done|]. intros Heq. by apply (Hin b).
    + intros j tj l _ Hj Hl. destruct (Hbuf j tj l Hj Hl) as [_ Hpl].
      rewrite Hheap, lookup_insert_ne; [done|]. intros Heq. by apply (Hin l).
    + intros l Hl. destruct res as [e|[l' req]]; [done|].
      cbn in Hl. injection Hl as <-. subst l'.
      split; [intros Heq; apply (Hin b Hb); by rewrite Heq|].
      split; [by rewrite Hheap, lookup_insert_eq|].
      intros j tj _ Hj Hlj. destruct (Hbuf j tj _ Hj Hlj) as [_ Hpl].
      by apply (Hin _ Hpl).
    + by rewrite Hwire, app_nil_r.
    + constructor.
  - destruct Hcase as (res & Hs & ->).
    apply sign_spec in Hs as [Hheap Hwire].
    destruct (Hbuf i _ l Hi eq_refl) as [Hlb Hlp].
    apply (batch_inv_update b payload wire0 [] β β' i _ _ Hinv Hi Ht).
    + by rewrite Hheap.
    + intros j tj lj _ Hj Hl. rewrite Hheap. by eapply Hbuf.
    + intros l' Hl'. destruct res as [e|req']; [done|].
      cbn in Hl'. injection Hl' as <-. rewrite Hheap.
      split; [done|]. split; [done|].
      intros j tj Hne Hj Hlj. apply Hne. by eapply (Huniq j i).
    + by rewrite Hwire, app_nil_r.
    + constructor.
  - destruct Hcase as (err & Hs & ->).
    apply send_spec in Hs as (remains & Hheap & Hwire).
    destruct (Hbuf i _ l Hi eq_refl) as [Hlb Hlp].
    apply (batch_inv_update b payload wire0
             [(RequestURL req, read_slice (machine β) l)]
             β β' i _ _ Hinv Hi Ht).
    + by rewrite Hheap, lookup_insert_ne.
    + intros j tj lj Hne Hj Hl. destruct (Hbuf j tj lj Hj Hl) as [_ Hpl].
      rewrite Hheap, lookup_insert_ne; [done|].
      intros <-. apply Hne. by eapply (Huniq j i).
    + done.
    + done.
    + repeat constructor. unfold read_slice. cbn. by rewrite Hlp.
  - destruct Hcase as [Hm ->].
    apply (batch_inv_update b payload wire0 [] β β' i _ _ Hinv Hi Ht).
    + by rewrite Hm.
    + intros j tj lj _ Hj Hl. rewrite Hm. by eapply Hbuf.
    + done.
    + by rewrite Hm, app_nil_r.
    + constructor.
Qed.

Lemma batch_inv_init (σ : @Machine World) (b : nat) (payload : list Byte.byte)
    (recipients : list URL) :
  heap σ !! b = Some payload →
  batch_inv b payload (wire σ) (batch_init σ recipients).
Proof.
  intros Hb. split; [done|]. cbn.
  assert (Hready : ∀ i t, (TReady <$> recipients) !! i = Some t →
                          task_buffer t = None).
  { intros i t Hi. rewrite list_lookup_fmap in Hi.
    destruct (recipients !! i); [|done]. by injection Hi as <-. }
  split; [|split].
  - intros i t l Hi Hl. by rewrite (Hready i t Hi) in Hl.
  - intros i j ti tj l Hi _ Hl. by rewrite (Hready i ti Hi) in Hl.
  - exists []. by rewrite app_nil_r.
Qed.

Lemma batch_run_inv (σ : @Machine World) (b : nat) (payload : list Byte.byte)
    (recipients : list URL) (β : @Batch URL World) :
  heap σ !! b = Some payload →
  rtc (bstep b) (batch_init σ recipients) β →
  batch_inv b payload (wire σ) β.
Proof.
  intros Hb Hrun. apply (batch_inv_init _ _ _ recipients) in Hb.
  induction Hrun as [β|β β1 β2 Hstep _ IH]; [done|].
  apply IH. by eapply bstep_inv.
Qed.

(** *** [Deliver] as a function *)

Lemma deliver_keeps_payload (σ : @Machine World) (b : nat) (to : URL)
    (payload : list Byte.byte) :
  heap σ !! b = Some payload →
  heap (deliver σ b to).1 !! b = Some payload ∧
  ∃ sent, wire (deliver σ b to).1 = wire σ ++ sent ∧
          Forall (λ e : string * list Byte.byte, e.2 = payload) sent.
Proof.
  intros Hb. unfold Deliver.
  destruct (prepare σ b to) as [σ1 res] eqn:Hp.
  apply (prepare_spec _ _ _ _ payload) in Hp as (Hfresh & Hheap & Hwire & Hres);
    [|done].
  assert (Hne : fresh (dom (heap σ)) ≠ b).
  { intros Heq. apply Hfresh. rewrite Heq. apply elem_of_dom. by eexists. }
  assert (Hb1 : heap σ1 !! b = Some payload)
    by (by rewrite Hheap, lookup_insert_ne).
  destruct res as [e|[l req]]; cbn [fst].
  { split; [done|]. exists []. by rewrite app_nil_r. }
  subst l. destruct (sign σ1 req) as [σ2 res] eqn:Hs.
  apply sign_spec in Hs as [Hheap2 Hwire2].
  destruct res as [e|req']; cbn [fst].
  { split; [by rewrite Hheap2|]. exists []. by rewrite Hwire2, app_nil_r. }
  destruct (send σ2 to (fresh (dom (heap σ))) req') as [σ3 err] eqn:Hd.
  apply send_spec in Hd as (remains & Hheap3 & Hwire3). cbn [fst].
  split; [by rewrite Hheap3, lookup_insert_ne, Hheap2|].
  eexists. rewrite Hwire3, Hwire2, Hwire. split; [done|].
  repeat constructor. unfold read_slice. cbn.
  by rewrite Hheap2, Hheap, lookup_insert_eq.
Qed.

(** A goroutine that runs without interruption does what [Deliver] does,
    and holds what [Deliver] returned. *)
Lemma deliver_as_steps (b : nat) (β : @Batch URL World) (i : nat) (r : URL) :
  tasks β !! i = Some (TReady r) →
  rtc (bstep b) β
    (mkBatch (deliver (machine β) b r).1
       (<[i := TReturned r (deliver (machine β) b r).2]> (tasks β))
       (errCh β)).
Proof.
  intros Hi. assert (Hlt : i < length (tasks β)) by (by eapply lookup_lt_Some).
  unfold Deliver.
  destruct (prepare (machine β) b r) as [σ1 res] eqn:Hp.
  eapply rtc_l.
  { exists i. unfold task_step. rewrite Hi. cbn. rewrite Hp. done. }
  destruct res as [e|[l req]]; cbn [fst snd]; [done|].
  destruct (sign σ1 req) as [σ2 res] eqn:Hs.
  eapply rtc_l.
  { exists i. unfold task_step. cbn [tasks machine errCh].
    rewrite list_lookup_insert_eq by done. cbn. rewrite Hs. done. }
  rewrite list_insert_insert_eq.
  destruct res as [e|req']; cbn [fst snd tasks machine errCh]; [done|].
  destruct (send σ2 r l req') as [σ3 err] eqn:Hd.
  eapply rtc_l; [|apply rtc_refl].
  exists i. unfold task_step. cbn [tasks machine errCh].
  rewrite list_lookup_insert_eq by (by rewrite ?length_insert). cbn.
  rewrite Hd. by rewrite list_insert_insert_eq.
Qed.

(** *** The errors along a run *)

Lemma bstep_account (b : nat) (recipients : list URL) (β β' : @Batch URL World) :
  bstep b β β' →
  task_recipient <$> tasks β = recipients ∧
    errCh β ≡ₚ omap task_outcome (tasks β) →
  task_recipient <$> tasks β' = recipients ∧
    errCh β' ≡ₚ omap task_outcome (tasks β').
Proof.
  intros [i Hstep] [Hr He].
  apply tstep_cases in Hstep as (t & t' & Hi & -> & Hrt & _ & Hnone & -> & _).
  split.
  - by rewrite (fmap_insert_same _ _ _ t).
  - by rewrite (omap_insert_perm _ _ _ t), He.
Qed.

Lemma batch_run_account (σ : @Machine World) (b : nat)
    (recipients : list URL) (β : @Batch URL World) :
  rtc (bstep b) (batch_init σ recipients) β →
  task_recipient <$> tasks β = recipients ∧
    errCh β ≡ₚ omap task_outcome (tasks β).
Proof.
  intros Hrun.
  assert (Hnil : ∀ rs : list URL,
            omap task_outcome (@TReady URL <$> rs) = []).
  { induction rs as [|r rs IH]; [done|]. exact IH. }
  assert (Hinit : task_recipient <$> tasks (batch_init σ recipients)
                    = recipients ∧
                  errCh (batch_init σ recipients)
                    ≡ₚ omap task_outcome (tasks (batch_init σ recipients))).
  { cbn. split.
    - rewrite <- list_fmap_compose. apply list_fmap_id.
    - by rewrite Hnil. }
  induction Hrun as [β|β β1 β2 Hstep _ IH]; [done|].
  apply IH. by eapply bstep_account.
Qed.

Lemma finished_tasks (ts : list (@task URL)) :
  forallb task_done ts = true →
  ts = zip_with TDone (task_recipient <$> ts) (task_outcome <$> ts).
Proof.
  induction ts as [|t ts IH]; cbn; [done|].
  intros [Ht Hts]%andb_true_iff. rewrite <- IH by done.
  by destruct t.
Qed.

Lemma batch_result_none (β : @Batch URL World) :
  batch_result β = None ↔ errCh β = [].
Proof. unfold batch_result. by destruct (errCh β). Qed.

Lemma omap_id_nil {A} (l : list (option A)) :
  omap id l = [] ↔ Forall (λ o, o = None) l.
Proof.
  induction l as [|[x|] l IH]; cbn.
  - by split.
  - split; [done|]. by intros [? _]%Forall_cons.
  - rewrite IH. split; [by constructor|]. by intros [_ ?]%Forall_cons.
Qed.

(** C4.  [BatchDeliver] returns under some interleaving of its
    goroutines, and every interleaving ends: an unfinished batch can
    always take a step, and each step uses up one of finitely many.  When
    all goroutines have finished, each holds what [Deliver] returned for
    its recipient; the errors on the channel are exactly the errors
    returned, each once, in the order they were sent; the result is nil
    exactly when every [Deliver] returned nil, and otherwise the one
    error whose text joins all of them. *)
Theorem BatchDeliver_aggregate (σ : @Machine World) (b : nat)
    (recipients : list URL) :
  (∃ σ' res, batchDeliver σ b recipients σ' res) ∧
  (∀ β, rtc (bstep b) (batch_init σ recipients) β →
     (batch_finished β = false → ∃ β', bstep b β β') ∧
     (∀ β', bstep b β β' → batch_remaining β' < batch_remaining β) ∧
     (batch_finished β = true →
      ∃ outcomes : list (option string),
        tasks β = zip_with TDone recipients outcomes ∧
        length outcomes = length recipients ∧
        errCh β ≡ₚ omap id outcomes ∧
        (batch_result β = None ↔ Forall (λ o, o = None) outcomes) ∧
        (batch_result β ≠ None →
         batch_result β =
           Some ("batch deliver had at least one failure: " +:+
                 String.concat "; " (errCh β))))).
Proof.
  split.
  { destruct (bstep_terminates b (batch_init σ recipients))
      as (β & Hrun & Hfin).
    exists (machine β), (batch_result β), β. done. }
  intros β Hrun. split; [apply bstep_progress|].
  split; [intros β'; apply bstep_remaining|].
  intros Hfin. apply batch_run_account in Hrun as [Hr He].
  exists (task_outcome <$> tasks β).
  split; [rewrite <- Hr; by apply finished_tasks|].
  split; [by rewrite <- Hr, !length_fmap|].
  split; [by rewrite omap_after_fmap|].
  split.
  - rewrite batch_result_none, <- omap_id_nil, omap_after_fmap.
    split; [intros Hnil; rewrite Hnil in He; by apply Permutation_nil_l in He|].
    intros Hnil. change (id ∘ task_outcome) with (@task_outcome URL) in Hnil.
    rewrite Hnil in He. by apply Permutation_nil_r in He.
  - unfold batch_result. by destruct (errCh β).
Qed.

(** C10.  [Deliver] works on a copy: when the slice [b] holds [payload],
    it still does after [Deliver], whatever the HTTP client does to the
    buffer it is handed, and the body the client was handed is the
    payload.  The same holds in every state of every interleaving of
    [BatchDeliver], whose goroutines all read the one slice. *)
Theorem Deliver_payload_unchanged (σ : @Machine World) (b : nat)
    (payload : list Byte.byte) :
  heap σ !! b = Some payload →
  (∀ to,
     heap (deliver σ b to).1 !! b = Some payload ∧
     ∃ sent, wire (deliver σ b to).1 = wire σ ++ sent ∧
             Forall (λ e : string * list Byte.byte, e.2 = payload) sent) ∧
  (∀ recipients β,
     rtc (bstep b) (batch_init σ recipients) β →
     heap (machine β) !! b = Some payload ∧
     ∃ sent, wire (machine β) = wire σ ++ sent ∧
             Forall (λ e : string * list Byte.byte, e.2 = payload) sent).
Proof.
  intros Hb. split.
  - intros to. by apply deliver_keeps_payload.
  - intros recipients β Hrun.
    destruct (batch_run_inv σ b payload recipients β Hb Hrun)
      as (Hheap & _ & _ & Hwire).
    done.
Qed.

End TransportFacts.

(** A delivery to Bob and one to Carol, their goroutines taking turns:
    Bob's succeeds, Carol's fails, and the result reports Carol's. *)
Example BatchDeliver_sample_run :
  let β := SampleTransport.run_schedule 0 [0; 1; 1; 1; 0; 0; 1; 0]
             (batch_init SampleTransport.machine0 [Sample.bob; Sample.carol]) in
  batch_finished β = true ∧
  tasks β =
    [TDone Sample.bob None;
     TDone Sample.carol
       (Some "POST request to https://c.example/c failed (500): 500 Internal Server Error")] ∧
  batch_result β =
    Some "batch deliver had at least one failure: POST request to https://c.example/c failed (500): 500 Internal Server Error" ∧
  heap (machine β) !! 0 = Some SampleTransport.payload ∧
  wire (machine β) =
    [(Sample.carol, SampleTransport.payload);
     (Sample.bob, SampleTransport.payload)].
Proof. vm_compute. repeat split. Qed.

Lemma Deliver_payload_unchanged_witness :
  heap SampleTransport.machine0 !! 0 = Some SampleTransport.payload ∧
  heap (SampleTransport.Deliver SampleTransport.machine0 0 Sample.bob).1 !! 0
    = Some SampleTransport.payload.
Proof.
  assert (H0 : heap SampleTransport.machine0 !! 0
               = Some SampleTransport.payload) by reflexivity.
  split; [exact H0|].
  apply (Deliver_payload_unchanged id id SampleTransport.clock_Now
           SampleTransport.http_NewRequest SampleTransport.sha256_Sum256
           SampleTransport.base64_EncodeToString SampleTransport.SignRequest
           SampleTransport.client_Do SampleTransport.fmt_extra
           "app" "go-fed" SampleTransport.machine0 0 SampleTransport.payload H0).
Defined.

(** * Further properties *)

(** ** [filterURLs] and [IsPublic] *)

Section FilterURLs.

Context {URL : Type} (url_String : URL -> string).

Lemma filterURLs_loop_step (u : list URL) (fn : string -> bool) (i : nat) :
  filterURLs_loop url_String u fn i =
  match u !! i with
  | None => u
  | Some x =>
      if fn (url_String x) then filterURLs_loop url_String (delete i u) fn i
      else filterURLs_loop url_String u fn (S i)
  end.
Proof.
  rewrite filterURLs_loop_unfold_eq.
  unfold filterURLs_loop_unfold, inspect.
  generalize (@eq_refl _ (u !! i)).
  generalize (u !! i) at 2 4 5.
  intros [x|] Hi; [|done]. cbn.
  by destruct (fn (url_String x)).
Qed.

Lemma filterURLs_loop_filter (rest kept : list URL) (fn : string -> bool) :
  filterURLs_loop url_String (kept ++ rest) fn (length kept) =
  kept ++ filter (λ x, fn (url_String x) = false) rest.
Proof.
  revert kept. induction rest as [|x rest IH]; intros kept;
    rewrite filterURLs_loop_step.
  - rewrite app_nil_r, lookup_ge_None_2 by done. by rewrite app_nil_r.
  - rewrite list_lookup_middle by done.
    destruct (fn (url_String x)) eqn:Hx.
    + rewrite delete_middle, IH, filter_cons_False; [done|]. by rewrite Hx.
    + specialize (IH (kept ++ [x])).
      rewrite <- app_assoc, length_app in IH. cbn in IH.
      replace (length kept + 1) with (S (length kept)) in IH by lia.
      rewrite IH, filter_cons_True by done. by rewrite <- app_assoc.
Qed.

Lemma filterURLs_as_filter (u : list URL) (fn : string -> bool) :
  filterURLs url_String u fn = filter (λ x, fn (url_String x) = false) u.
Proof. apply (filterURLs_loop_filter u []). Qed.

(** X1.  [filterURLs] returns the elements whose string the filter
    rejects, in their order: nothing the filter matches is left and
    nothing else is lost. *)
Theorem filterURLs_filter (u : list URL) (fn : string -> bool) :
  filterURLs url_String u fn = filter (λ x, fn (url_String x) = false) u ∧
  (∀ x, x ∈ filterURLs url_String u fn ↔ x ∈ u ∧ fn (url_String x) = false) ∧
  sublist (filterURLs url_String u fn) u.
Proof.
  pose proof (filterURLs_as_filter u fn) as Heq.
  split; [done|]. rewrite Heq. split.
  - intros x. rewrite list_elem_of_filter. tauto.
  - apply sublist_filter.
Qed.

End FilterURLs.

Lemma IsPublic_spec (s : string) :
  IsPublic s = true ↔
  s = PublicActivityPubIRI ∨ s = publicJsonLD ∨ s = publicJsonLDAS.
Proof.
  unfold IsPublic. rewrite !orb_true_iff, !String.eqb_eq. tauto.
Qed.

(** X2.  Filtering with [IsPublic] leaves no IRI whose string is the
    Public collection in any of its three spellings, and keeps every
    other IRI. *)
Theorem filterURLs_IsPublic {URL : Type} (url_String : URL -> string)
    (u : list URL) (x : URL) :
  x ∈ filterURLs url_String u IsPublic ↔
  x ∈ u ∧
  url_String x ≠ "https://www.w3.org/ns/activitystreams#Public" ∧
  url_String x ≠ "Public" ∧ url_String x ≠ "as:Public".
Proof.
  rewrite filterURLs_as_filter, list_elem_of_filter.
  pose proof (IsPublic_spec (url_String x)) as Hp.
  unfold PublicActivityPubIRI, publicJsonLD, publicJsonLDAS in Hp.
  destruct (IsPublic (url_String x)); split.
  - intros [? _]. done.
  - intros (_ & H1 & H2 & H3). destruct (proj1 Hp eq_refl) as [?|[?|?]]; done.
  - intros [_ ?]. split; [done|].
    repeat split; intros Heq;
      assert (Hft : false = true) by (apply Hp; auto); discriminate Hft.
  - intros [? _]. done.
Qed.

(** ** Deduplication again *)

Section KeepFirstAgain.

Context {A : Type} (key : A -> string).

Lemma keep_first_excluded (S seen : gset string) (l : list A) :
  keep_first key (seen ∪ S) l =
  filter (λ x, key x ∉ S) (keep_first key seen l).
Proof.
  revert seen. induction l as [|x l IH]; intros seen; cbn; [done|].
  destruct (decide (key x ∈ seen)) as [Hs|Hs].
  - rewrite decide_True by set_solver. apply IH.
  - destruct (decide (key x ∈ S)) as [HS|HS].
    + rewrite decide_True by set_solver.
      rewrite filter_cons_False by (intros Hn; by apply Hn).
      rewrite <- IH. f_equal. set_solver.
    + rewrite decide_False by set_solver.
      rewrite filter_cons_True by done. f_equal.
      rewrite <- IH. f_equal. set_solver.
Qed.

Lemma keep_first_id (seen : gset string) (l : list A) :
  NoDup (key <$> l) → (∀ x, x ∈ l → key x ∉ seen) →
  keep_first key seen l = l.
Proof.
  revert seen. induction l as [|x l IH]; intros seen Hnd Hout; cbn; [done|].
  apply NoDup_cons in Hnd as [Hx Hnd].
  rewrite decide_False by (apply Hout, list_elem_of_here).
  f_equal. apply IH; [done|]. intros y Hy.
  apply not_elem_of_union. split.
  - intros Heq%elem_of_singleton. apply Hx. rewrite <- Heq.
    by apply list_elem_of_fmap_2.
  - by apply Hout, list_elem_of_further.
Qed.

Lemma keep_first_idempotent (seen : gset string) (l : list A) :
  keep_first key seen (keep_first key seen l) = keep_first key seen l.
Proof.
  apply keep_first_id; [apply keep_first_NoDup|].
  intros x Hx. apply (list_elem_of_fmap_2 key) in Hx.
  by apply keep_first_keys in Hx as [_ ?].
Qed.

End KeepFirstAgain.

Section DedupeAgain.

Context {URL : Type} (url_String : URL -> string) {Time : Type}.

Lemma dedupeIRIs_keep_first (recipients ignored : list URL) :
  dedupeIRIs url_String recipients ignored =
  keep_first url_String (list_to_set (url_String <$> ignored)) recipients.
Proof.
  unfold dedupeIRIs.
  rewrite (dedupeIRIs_loop_keep_first _ _ _
             (list_to_set (url_String <$> ignored))); [done|].
  intros s. rewrite elem_of_list_to_set, ignoredMap_of_spec, bool_at_empty.
  split; [by left|]. by intros [?|?].
Qed.

(** X3.  Subtracting the ignored IRIs and deduplicating commute:
    [dedupeIRIs] with an ignored list gives what [filterURLs] leaves of
    the list deduplicated without one when it filters out the ignored
    strings. *)
Theorem dedupeIRIs_filterURLs (recipients ignored : list URL) :
  dedupeIRIs url_String recipients ignored =
  filterURLs url_String (dedupeIRIs url_String recipients [])
    (λ s, bool_decide (s ∈ url_String <$> ignored)).
Proof.
  rewrite !dedupeIRIs_keep_first.
  rewrite filterURLs_as_filter.
  cbn [fmap list_fmap list_to_set foldr].
  rewrite <- (union_empty_l_L (list_to_set (url_String <$> ignored))) at 1.
  rewrite keep_first_excluded.
  apply list_filter_iff. intros x.
  rewrite elem_of_list_to_set, bool_decide_eq_false. done.
Qed.

(** X4.  [dedupeIRIs] is idempotent: a list it has returned is returned
    unchanged, with the same ignored list. *)
Theorem dedupeIRIs_idempotent (recipients ignored : list URL) :
  dedupeIRIs url_String (dedupeIRIs url_String recipients ignored) ignored
  = dedupeIRIs url_String recipients ignored.
Proof. rewrite !dedupeIRIs_keep_first. apply keep_first_idempotent. Qed.

Abbreviation item := (Item URL (Value URL Time)).

Lemma dedupeOrderedItems_loop_start (oi : list item) :
  match dedupeOrderedItems_loop url_String oi ∅ 0 with
  | Ok oi' =>
      Forall has_id oi ∧ oi' = keep_first (item_key url_String) ∅ oi
  | Err _ => Exists (λ it : item, ¬ has_id it) oi
  | Panic => False
  end.
Proof.
  apply (dedupeOrderedItems_loop_keep_first url_String oi [] ∅ ∅).
  intros s. rewrite bool_at_empty. set_solver.
Qed.

Lemma dedupeOrderedItems_all_ids (oi : list item) :
  Forall has_id oi →
  dedupeOrderedItems url_String (Some oi)
  = Ok (Some (keep_first (item_key url_String) ∅ oi)).
Proof.
  intros Hall. pose proof (dedupeOrderedItems_loop_start oi) as Hl.
  unfold dedupeOrderedItems.
  destruct (dedupeOrderedItems_loop url_String oi ∅ 0) as [oi'|e|]; cbn.
  - by destruct Hl as [_ ->].
  - exfalso. apply Exists_exists in Hl as (it & Hin & Hno).
    rewrite Forall_forall in Hall. by apply Hno, Hall.
  - destruct Hl.
Qed.

Lemma dedupeOrderedItems_cases (oi : list item) :
  (Forall has_id oi ∧
   dedupeOrderedItems url_String (Some oi)
   = Ok (Some (keep_first (item_key url_String) ∅ oi))) ∨
  (∃ e, dedupeOrderedItems url_String (Some oi) = Err e).
Proof.
  pose proof (dedupeOrderedItems_loop_start oi) as Hl.
  unfold dedupeOrderedItems.
  destruct (dedupeOrderedItems_loop url_String oi ∅ 0) as [oi'|e|]; cbn.
  - left. by destruct Hl as [? ->].
  - right. by exists e.
  - destruct Hl.
Qed.

(** X5.  [dedupeOrderedItems] is idempotent: run on its own result it
    returns that result; a collection it fails on, it fails on the same
    way. *)
Theorem dedupeOrderedItems_idempotent (oc : option (list item)) :
  dedupeOrderedItems url_String oc ≫= dedupeOrderedItems url_String
  = dedupeOrderedItems url_String oc.
Proof.
  destruct oc as [oi|]; [|done].
  destruct (dedupeOrderedItems_cases oi) as [[Hall Hok]|[e He]].
  - rewrite Hok. cbn [mbind outcome_bind].
    rewrite dedupeOrderedItems_all_ids.
    + by rewrite keep_first_idempotent.
    + rewrite Forall_forall in Hall |- *. intros it Hit. apply Hall.
      eapply elem_of_sublist; [exact Hit|apply keep_first_sublist].
  - by rewrite He.
Qed.

End DedupeAgain.

(** ** [stripHiddenRecipients] and [clearSensitiveFields] again *)

Section HiddenRecipients.

Context {URL Time : Type}.

Abbreviation value := (Value URL Time).

Lemma strip_prop_emptied {A} (s : slot (list A)) : strip_prop s = emptied s.
Proof. destruct s; cbn; try done. by rewrite remove_downwards_nil. Qed.

Lemma clear_prop_emptied {A} (s : slot (list A)) : clear_prop s = emptied s.
Proof. destruct s; cbn; try done. by rewrite remove_front_nil. Qed.

(** X6.  [stripHiddenRecipients] empties [bto] and [bcc] of the activity
    and changes nothing else: the other recipients, the id and the
    objects, embedded values with their own [bto] and [bcc] included,
    are as before.  A second call changes nothing. *)
Theorem stripHiddenRecipients_frame (activity : value) :
  let stripped := stripHiddenRecipients activity in
  stripped =
    mkValue (typeName activity) (id_ activity) (href activity)
      (to_ activity) (emptied (bto activity)) (cc activity)
      (emptied (bcc activity)) (audience activity) (object activity)
      (target activity) (inReplyTo activity) (tag activity) (actor activity)
      (published activity) (updated activity) (formerType activity)
      (deleted activity) ∧
  no_hidden_recipients stripped ∧
  stripHiddenRecipients stripped = stripped.
Proof.
  destruct activity as [tn i hr to b c bc au ob tg irt tag ac pu up ft de].
  cbn. rewrite !strip_prop_emptied.
  split; [done|]. split.
  - split; [by destruct b as [| |[|]]|by destruct bc as [| |[|]]].
  - by destruct b, bc.
Qed.

Lemma clearSensitiveFields_idempotent_aux :
  ∀ v : value, clearSensitiveFields (clearSensitiveFields v)
               = clearSensitiveFields v.
Proof.
  fix IH 1. intros [tn i hr to b c bc au ob tg irt tag ac pu up ft de].
  cbn. rewrite !clear_prop_emptied.
  f_equal; [by destruct b|by destruct bc|].
  destruct ob as [| |op]; [done..|]. f_equal.
  induction op as [|it op IHop]; [done|].
  cbn. f_equal; [|exact IHop].
  destruct it as [u|w|x]; [done| |done]. f_equal. apply IH.
Qed.

(** X7.  [clearSensitiveFields] is idempotent, and on the value it is
    given it touches [bto] and [bcc] only: the type name, the id, the
    public recipients, the actors and the targets are as before, and the
    [object] property keeps its length. *)
Theorem clearSensitiveFields_frame (obj : value) :
  let cleared := clearSensitiveFields obj in
  clearSensitiveFields cleared = cleared ∧
  typeName cleared = typeName obj ∧ id_ cleared = id_ obj ∧
  href cleared = href obj ∧ to_ cleared = to_ obj ∧ cc cleared = cc obj ∧
  audience cleared = audience obj ∧ actor cleared = actor obj ∧
  target cleared = target obj ∧ inReplyTo cleared = inReplyTo obj ∧
  tag cleared = tag obj ∧
  bto cleared = emptied (bto obj) ∧ bcc cleared = emptied (bcc obj) ∧
  length (slot_list (object cleared)) = length (slot_list (object obj)).
Proof.
  split; [apply clearSensitiveFields_idempotent_aux|].
  destruct obj as [tn i hr to b c bc au ob tg irt tag ac pu up ft de].
  cbn. rewrite !clear_prop_emptied. repeat split.
  destruct ob; cbn; try done. by rewrite length_map.
Qed.

(** X8.  A Tombstone takes from the object its type name, [published]
    and [updated] and nothing else: it is the Tombstone of the value
    with every other property erased.  Its id and [deleted] are the ones
    given and its [formerType] is the type name of the object. *)
Theorem toTombstone_erases (obj : value) (id : URL) (now : Time) :
  let bare :=
    mkValue (typeName obj) None Absent Absent Absent Absent Absent Absent
      Absent Absent Absent Absent Absent (published obj) (updated obj)
      Absent Absent in
  let tomb := toTombstone obj id now in
  tomb = toTombstone bare id now ∧
  id_ tomb = Some id ∧ deleted tomb = Prop_ now ∧
  formerType tomb = Prop_ [ItemOther (typeName obj)].
Proof.
  destruct obj as [tn i hr to b c bc au ob tg irt tag ac pu up ft de].
  unfold toTombstone. cbn. by destruct pu, up.
Qed.

End HiddenRecipients.

(** ** [mustHaveActivityOriginMatchObjects] *)

Section OriginFacts.

Context {URL : Type} (url_Host : URL -> string) {Time : Type}.
Variable fmt_q : URL -> string.

Abbreviation value := (Value URL Time).
Abbreviation item := (Item URL value).

Lemma GetId_no_panic (t : value) : GetId t ≠ Panic.
Proof. unfold GetId. by repeat case_match. Qed.

Lemma objects_in_origin_spec (originHost : string) (op : list item) :
  objects_in_origin url_Host fmt_q originHost op ≠ Panic ∧
  (objects_in_origin url_Host fmt_q originHost op = Ok tt ↔
   Forall (λ it, ∃ iri, ToId it = Ok iri ∧ url_Host iri = originHost) op).
Proof.
  induction op as [|it op [IHp IH]]; cbn.
  - split; [done|]. split; [constructor|done].
  - pose proof (ToId_no_panic it) as Hnp.
    destruct (ToId it) as [iri|e|] eqn:Hit; cbn; [| |done].
    + destruct (String.eqb originHost (url_Host iri)) eqn:Hh; cbn.
      * apply String.eqb_eq in Hh. split; [done|]. rewrite IH. split.
        -- intros Hall. constructor; [by exists iri|done].
        -- by intros [_ ?]%Forall_cons.
      * apply String.eqb_neq in Hh. split; [done|]. split; [done|].
        intros [(iri' & Hiri & Heq) _]%Forall_cons.
        rewrite Hit in Hiri. injection Hiri as <-. by destruct Hh.
    + split; [done|]. split; [done|].
      intros [(iri' & Hiri & _) _]%Forall_cons. by rewrite Hit in Hiri.
Qed.

(** X9.  [mustHaveActivityOriginMatchObjects] never panics, and returns
    nil exactly when the activity has an id and every element of its
    [object] property has an id with the same host; an activity without
    objects passes as soon as it has an id. *)
Theorem mustHaveActivityOriginMatchObjects_spec (a : value) :
  mustHaveActivityOriginMatchObjects url_Host fmt_q a ≠ Panic ∧
  (mustHaveActivityOriginMatchObjects url_Host fmt_q a = Ok tt ↔
   ∃ origin, GetId a = Ok origin ∧
     Forall (λ it, ∃ iri, ToId it = Ok iri ∧
                          url_Host iri = url_Host origin)
       (slot_list (object a))).
Proof.
  unfold mustHaveActivityOriginMatchObjects.
  pose proof (GetId_no_panic a) as Hnp.
  destruct (GetId a) as [origin|e|]; cbn; [| |done].
  - assert (Hloop : ∀ op : list item,
      (if Nat.eqb (length op) 0 then Ok tt
       else objects_in_origin url_Host fmt_q (url_Host origin) op)
      = objects_in_origin url_Host fmt_q (url_Host origin) op)
      by (by intros [|]).
    destruct (object a) as [| |op]; cbn.
    + split; [done|]. split; [intros _; by exists origin|done].
    + split; [done|]. split; [intros _; by exists origin|done].
    + rewrite Hloop.
      destruct (objects_in_origin_spec (url_Host origin) op) as [Hp Hok].
      split; [done|]. rewrite Hok. split.
      * intros Hall. by exists origin.
      * by intros (o' & [= <-] & Hall).
  - split; [done|]. split; [done|]. by intros (o' & Ho & _).
Qed.

End OriginFacts.

(** ** [getInboxForwardingValues] *)

Section ForwardingFacts.

Context {URL Time : Type}.
Variable arbitraryIRI : option URL.

Abbreviation value := (Value URL Time).
Abbreviation item := (Item URL value).

Lemma forwarding_loop_spec (p : list item)
    (acc : list value * list (option URL)) :
  forwarding_loop arbitraryIRI p acc =
  (acc.1 ++ omap GetType p,
   acc.2 ++ omap (λ it, match GetType it with
                        | Some _ => None
                        | None => Some (GetIRI arbitraryIRI it)
                        end) p).
Proof.
  revert acc. induction p as [|it p IH]; intros [t iri]; cbn.
  - by rewrite !app_nil_r.
  - destruct (GetType it) as [tv|] eqn:Ht; rewrite IH; cbn;
      by rewrite <- app_assoc.
Qed.

Lemma forwarding_property_spec (s : slot (list item))
    (acc : list value * list (option URL)) :
  forwarding_property arbitraryIRI s acc =
  (acc.1 ++ omap GetType (slot_list s),
   acc.2 ++ omap (λ it, match GetType it with
                        | Some _ => None
                        | None => Some (GetIRI arbitraryIRI it)
                        end) (slot_list s)).
Proof.
  destruct s as [| |p]; cbn [forwarding_property slot_list];
    [destruct acc; cbn; by rewrite !app_nil_r..|].
  apply forwarding_loop_spec.
Qed.

(** X10.  [getInboxForwardingValues] goes through [inReplyTo], [tag],
    [object] and [target], in this order, and splits their elements: the
    embedded values, in order, and for every other element what [GetIRI]
    returns, in order.  No element is dropped or counted twice, and every
    value returned is embedded in one of the four properties. *)
Theorem getInboxForwardingValues_split (o : value) :
  let all := slot_list (inReplyTo o) ++ slot_list (tag o) ++
             slot_list (object o) ++ slot_list (target o) in
  let '(t, iri) := getInboxForwardingValues arbitraryIRI o in
  t = omap GetType all ∧
  iri = GetIRI arbitraryIRI <$> filter (λ it, GetType it = None) all ∧
  length t + length iri = length all ∧
  ∀ v, v ∈ t → child o v.
Proof.
  intros all. unfold getInboxForwardingValues.
  rewrite !forwarding_property_spec. cbn [fst snd app].
  rewrite <- !omap_app, <- !app_assoc.
  fold all.
  assert (Hiri : ∀ l : list item,
    omap (λ it, match GetType it with
                | Some _ => None
                | None => Some (GetIRI arbitraryIRI it)
                end) l
    = GetIRI arbitraryIRI <$> filter (λ it, GetType it = None) l).
  { induction l as [|it l IH]; [done|]. rewrite omap_cons_list, IH.
    destruct (GetType it) eqn:Ht.
    - by rewrite filter_cons_False by (by rewrite Ht).
    - by rewrite filter_cons_True by done. }
  assert (Hlen : ∀ l : list item,
    length (omap GetType l) +
    length (filter (λ it : item, GetType it = None) l) = length l).
  { induction l as [|it l IH]; [done|]. rewrite omap_cons_list, length_app.
    destruct (GetType it) eqn:Ht.
    - rewrite filter_cons_False by (by rewrite Ht). cbn. lia.
    - rewrite filter_cons_True by done. cbn. lia. }
  split; [done|]. split; [apply Hiri|]. split.
  { rewrite Hiri, length_fmap. apply Hlen. }
  intros v Hv. apply list_elem_of_omap in Hv as (it & Hin & Hit).
  destruct it as [u|w|x]; cbn in Hit; try done. injection Hit as ->.
  unfold all in Hin. rewrite !elem_of_app in Hin. unfold child.
  destruct Hin as [Hin|[Hin|[Hin|Hin]]].
  - do 7 right. left.
    destruct (inReplyTo o); [by apply elem_of_nil in Hin..|done].
  - do 8 right. left.
    destruct (tag o); [by apply elem_of_nil in Hin..|done].
  - do 5 right. left.
    destruct (object o); [by apply elem_of_nil in Hin..|done].
  - do 6 right. left.
    destruct (target o); [by apply elem_of_nil in Hin..|done].
Qed.

End ForwardingFacts.

(** ** [wrapInCreate] *)

Section WrapInCreate.

Context {URL : Type} (url_String : URL -> string) {Time : Type}.

Abbreviation value := (Value URL Time).
Abbreviation item := (Item URL value).

Lemma copy_ids_spec (p acc : list item) :
  match copy_ids p acc with
  | Ok l => Forall has_id p ∧ l = acc ++ omap as_IRI p
  | Err _ => Exists (λ it : item, ¬ has_id it) p
  | Panic => False
  end.
Proof.
  revert acc. induction p as [|it p IH]; intros acc; cbn [copy_ids].
  - split; [constructor|by rewrite app_nil_r].
  - pose proof (ToId_no_panic it) as Hnp.
    rewrite omap_cons_list.
    destruct (ToId it) as [u|e|] eqn:Hit; cbn [mbind outcome_bind];
      [| |done].
    + assert (Hhas : has_id it) by (unfold has_id; by rewrite Hit).
      assert (Has : as_IRI it = Some (ItemIRI u))
        by (unfold as_IRI; by rewrite Hit).
      rewrite Has. specialize (IH (acc ++ [ItemIRI u])).
      destruct (copy_ids p (acc ++ [ItemIRI u])) as [l|e|]; [| |done].
      * destruct IH as [Hall ->]. split; [by constructor|].
        cbn. by rewrite <- app_assoc.
      * by right.
    + left. unfold has_id. rewrite Hit. cbn. tauto.
Qed.

Lemma as_IRI_ids (p : list item) :
  ids url_String (omap as_IRI p) = ids url_String p.
Proof.
  induction p as [|it p IH]; [done|].
  rewrite omap_cons_list, ids_app, ids_cons, IH.
  unfold as_IRI, item_id_string.
  destruct (ToId it) as [u|e|].
  - change (option_list (Some (@ItemIRI URL value u))) with [@ItemIRI URL value u].
    by rewrite ids_IRI.
  - change (option_list (@None item)) with (@nil item).
    rewrite ids_nil. set_solver.
  - change (option_list (@None item)) with (@nil item).
    rewrite ids_nil. set_solver.
Qed.

Lemma wrap_property_spec (d : Dim) (o : value) (c : Create URL Time) :
  match wrap_property d o c with
  | Ok c' =>
      create_object c' = create_object c ∧
      (∀ d', d' ≠ d → create_get d' c' = create_get d' c) ∧
      match value_get d o with
      | Absent => c' = c
      | Unset => False
      | Prop_ p => Forall has_id p ∧ create_get d c' = Some (omap as_IRI p)
      end
  | Err _ => ∃ p, value_get d o = Prop_ p ∧ Exists (λ it : item, ¬ has_id it) p
  | Panic => value_get d o = Unset
  end.
Proof.
  unfold wrap_property. destruct (value_get d o) as [| |p]; [done..|].
  pose proof (copy_ids_spec p []) as Hc.
  destruct (copy_ids p []) as [l|e|]; cbn [mbind outcome_bind]; [| |done].
  - destruct Hc as [Hall ->]. rewrite create_object_set.
    split; [done|]. split.
    + intros d' Hd. rewrite create_get_set. by rewrite decide_False.
    + split; [done|]. rewrite create_get_set. by rewrite decide_True.
  - by exists p.
Qed.

Lemma wrapInCreate_cases (o : value) (actor : URL) :
  match wrapInCreate o actor with
  | Ok w =>
      create_object (wrapped_create w) = Some [ItemType o] ∧
      wrapped_actor w = [ItemIRI actor] ∧
      wrapped_published w = match published o with
                            | Absent => Unset
                            | p => p
                            end ∧
      ∀ d,
        match value_get d o with
        | Absent => create_get d (wrapped_create w) = None
        | Unset => False
        | Prop_ p =>
            Forall has_id p ∧
            create_get d (wrapped_create w) = Some (omap as_IRI p)
        end
  | Err _ =>
      ∃ d p, value_get d o = Prop_ p ∧ Exists (λ it : item, ¬ has_id it) p
  | Panic => ∃ d, value_get d o = Unset
  end.
Proof.
  unfold wrapInCreate.
  set (c0 := create_set_object ([] ++ [ItemType o])
               (mkCreate None None None None None None)).
  pose proof (wrap_property_spec DTo o c0) as H1.
  destruct (wrap_property DTo o c0) as [c1|e|]; cbn [mbind outcome_bind];
    [|by exists DTo..].
  pose proof (wrap_property_spec DBto o c1) as H2.
  destruct (wrap_property DBto o c1) as [c2|e|]; cbn [mbind outcome_bind];
    [|by exists DBto..].
  pose proof (wrap_property_spec DCc o c2) as H3.
  destruct (wrap_property DCc o c2) as [c3|e|]; cbn [mbind outcome_bind];
    [|by exists DCc..].
  pose proof (wrap_property_spec DBcc o c3) as H4.
  destruct (wrap_property DBcc o c3) as [c4|e|]; cbn [mbind outcome_bind];
    [|by exists DBcc..].
  pose proof (wrap_property_spec DAudience o c4) as H5.
  destruct (wrap_property DAudience o c4) as [c5|e|];
    cbn [mbind outcome_bind]; [|by exists DAudience..].
  destruct H1 as (Ho1 & Hf1 & Hd1), H2 as (Ho2 & Hf2 & Hd2),
    H3 as (Ho3 & Hf3 & Hd3), H4 as (Ho4 & Hf4 & Hd4), H5 as (Ho5 & Hf5 & Hd5).
  cbn [wrapped_create wrapped_actor wrapped_published].
  split; [by rewrite Ho5, Ho4, Ho3, Ho2, Ho1|]. split; [done|].
  split; [done|].
  intros d. destruct d.
  - rewrite Hf5, Hf4, Hf3, Hf2 by done.
    destruct (value_get DTo o); [by subst c1|done|done].
  - rewrite Hf5, Hf4, Hf3 by done.
    destruct (value_get DBto o); [|done|done].
    subst c2. by rewrite Hf1.
  - rewrite Hf5, Hf4 by done.
    destruct (value_get DCc o); [|done|done].
    subst c3. by rewrite Hf2, Hf1.
  - rewrite Hf5 by done.
    destruct (value_get DBcc o); [|done|done].
    subst c4. by rewrite Hf3, Hf2, Hf1.
  - destruct (value_get DAudience o); [|done|done].
    subst c5. by rewrite Hf4, Hf3, Hf2, Hf1.
Qed.

(** X11.  [wrapInCreate] panics when one of the five addressing
    properties of the object is nil, and fails when an element of one of
    them has no id.  Otherwise the Create has the object as its only
    object and the actor as its only actor, takes [published] from the
    object, and for each of the five properties holds the ids of the
    elements of the object's property as IRIs, in order: as sets of IRI
    strings the two are the same.  A property the type of the object
    lacks is left nil on the Create. *)
Theorem wrapInCreate_spec (o : value) (actor : URL) :
  match wrapInCreate o actor with
  | Ok w =>
      create_object (wrapped_create w) = Some [ItemType o] ∧
      wrapped_actor w = [ItemIRI actor] ∧
      wrapped_published w = match published o with
                            | Absent => Unset
                            | p => p
                            end ∧
      ∀ d,
        activity_ids url_String d (wrapped_create w)
          = object_ids url_String d (ItemType o) ∧
        match value_get d o with
        | Absent => create_get d (wrapped_create w) = None
        | Unset => False
        | Prop_ p =>
            Forall has_id p ∧
            create_get d (wrapped_create w) = Some (omap as_IRI p)
        end
  | Err _ =>
      ∃ d p, value_get d o = Prop_ p ∧ Exists (λ it : item, ¬ has_id it) p
  | Panic => ∃ d, value_get d o = Unset
  end.
Proof.
  pose proof (wrapInCreate_cases o actor) as Hc.
  destruct (wrapInCreate o actor) as [w|e|]; [|done..].
  destruct Hc as (Ho & Ha & Hp & Hmain).
  split; [done|]. split; [done|]. split; [done|].
  intros d. split; [|apply Hmain].
  specialize (Hmain d). unfold activity_ids. rewrite object_ids_slot_list.
  destruct (value_get d o) as [| |p]; [|done|].
  - by rewrite Hmain.
  - destruct Hmain as [_ ->]. apply as_IRI_ids.
Qed.

Section ThenNormalize.

Variable range : gmap string URL -> list (string * URL).
Hypothesis range_permutation : ∀ m, range m ≡ₚ map_to_list m.

Lemma collect_ids_ok (p : list item) (m : gmap string URL) :
  Forall has_id p → ∃ m', collect_ids url_String m p = Ok m'.
Proof.
  intros Hall. revert m. induction Hall as [|it p Hit _ IH]; intros m; cbn.
  - by eexists.
  - unfold has_id in Hit. destruct (ToId it) as [u|e|]; [|done..]. cbn.
    apply IH.
Qed.

Lemma as_IRI_has_id (p : list item) : Forall has_id (omap as_IRI p).
Proof.
  induction p as [|it p IH]; [constructor|].
  rewrite omap_cons_list. apply Forall_app. split; [|done].
  unfold as_IRI. destruct (ToId it); repeat constructor.
Qed.

Lemma append_missing_present (from present : gmap string URL)
    (p : list item) :
  dom from ⊆ dom present → append_missing range from present p = p.
Proof using range_permutation.
  intros Hsub. unfold append_missing.
  assert (Hall : ∀ kv, kv ∈ range from → is_Some (present !! kv.1)).
  { intros [k u] Hin. apply range_lookup in Hin; [|done].
    apply elem_of_dom, Hsub, elem_of_dom. by eexists. }
  induction (range from) as [|kv l IH]; [done|]. cbn [foldl].
  destruct (Hall kv (list_elem_of_here _ _)) as [u' ->].
  apply IH. intros kv' Hin. by apply Hall, list_elem_of_further.
Qed.

Lemma activity_recipients_some (d : Dim) (a : Create URL Time)
    (p : list item) (m : gmap string URL) :
  create_get d a = Some p → collect_ids url_String ∅ p = Ok m →
  activity_recipients url_String d a = Ok (a, m).
Proof. unfold activity_recipients. by intros -> ->. Qed.

Lemma object_recipients_prop (d : Dim) (i : nat) (v : value)
    (p : list item) (m : gmap string URL) :
  value_get d v = Prop_ p → collect_ids url_String ∅ p = Ok m →
  object_recipients url_String d i (ItemType v) = Ok (ItemType v, m).
Proof. unfold object_recipients. cbn. by intros -> ->. Qed.

Lemma object_apply_present (d : Dim) (actorMap objMap : gmap string URL)
    (v : value) (p : list item) :
  value_get d v = Prop_ p → dom actorMap ⊆ dom objMap →
  object_apply range d actorMap objMap (ItemType v) = ItemType v.
Proof using range_permutation.
  intros Hget Hsub. unfold object_apply. rewrite Hget.
  rewrite append_missing_present by done. by rewrite value_set_same.
Qed.

Lemma activity_apply_present (d : Dim) (actorMap objMap : gmap string URL)
    (a : Create URL Time) (p : list item) :
  create_get d a = Some p → dom objMap ⊆ dom actorMap →
  activity_apply range d actorMap [objMap] a = a.
Proof using range_permutation.
  intros Hget Hsub. unfold activity_apply. rewrite Hget. cbn [foldl].
  rewrite append_missing_present by done. by apply create_set_same.
Qed.

(** X12.  After [wrapInCreate] there is nothing left to normalize: on the
    Create it returns for an object that has all five addressing
    properties, [normalizeRecipients] succeeds and returns the Create
    unchanged, object included. *)
Theorem wrapInCreate_normalizeRecipients (o : value) (actor : URL)
    (w : WrappedCreate) :
  wrapInCreate o actor = Ok w →
  (∀ d, value_get d o ≠ Absent) →
  normalizeRecipients url_String range (wrapped_create w)
  = Ok (wrapped_create w).
Proof using range_permutation.
  intros Hw Hpresent. pose proof (wrapInCreate_cases o actor) as Hc.
  rewrite Hw in Hc. destruct Hc as (Hobj & _ & _ & Hd).
  set (c := wrapped_create w) in *.
  assert (Hdim : ∀ d, ∃ p mA mO,
    value_get d o = Prop_ p ∧ create_get d c = Some (omap as_IRI p) ∧
    collect_ids url_String ∅ (omap as_IRI p) = Ok mA ∧
    collect_ids url_String ∅ p = Ok mO ∧ dom mA = dom mO).
  { intros d. specialize (Hd d). specialize (Hpresent d).
    destruct (value_get d o) as [| |p]; [done..|]. destruct Hd as [Hall Hget].
    destruct (collect_ids_ok (omap as_IRI p) ∅ (as_IRI_has_id p)) as [mA HA].
    destruct (collect_ids_ok p ∅ Hall) as [mO HO].
    exists p, mA, mO. repeat split; try done.
    apply collect_ids_spec in HA as (-> & _), HO as (-> & _).
    by rewrite as_IRI_ids. }
  destruct (Hdim DTo) as (p1 & a1 & o1 & Hv1 & Hg1 & Ha1 & Ho1 & Hd1).
  destruct (Hdim DBto) as (p2 & a2 & o2 & Hv2 & Hg2 & Ha2 & Ho2 & Hd2).
  destruct (Hdim DCc) as (p3 & a3 & o3 & Hv3 & Hg3 & Ha3 & Ho3 & Hd3).
  destruct (Hdim DBcc) as (p4 & a4 & o4 & Hv4 & Hg4 & Ha4 & Ho4 & Hd4).
  destruct (Hdim DAudience) as (p5 & a5 & o5 & Hv5 & Hg5 & Ha5 & Ho5 & Hd5).
  unfold normalizeRecipients.
  rewrite (activity_recipients_some DTo c _ _ Hg1 Ha1). cbn [mbind outcome_bind].
  rewrite (activity_recipients_some DBto c _ _ Hg2 Ha2). cbn [mbind outcome_bind].
  rewrite (activity_recipients_some DCc c _ _ Hg3 Ha3). cbn [mbind outcome_bind].
  rewrite (activity_recipients_some DBcc c _ _ Hg4 Ha4). cbn [mbind outcome_bind].
  rewrite (activity_recipients_some DAudience c _ _ Hg5 Ha5).
  cbn [mbind outcome_bind]. rewrite Hobj.
  cbn [objects_loop]. unfold object_normalize.
  rewrite (object_recipients_prop DTo 0 o _ _ Hv1 Ho1). cbn [mbind outcome_bind].
  rewrite (object_recipients_prop DBto 0 o _ _ Hv2 Ho2). cbn [mbind outcome_bind].
  rewrite (object_recipients_prop DCc 0 o _ _ Hv3 Ho3). cbn [mbind outcome_bind].
  rewrite (object_recipients_prop DBcc 0 o _ _ Hv4 Ho4). cbn [mbind outcome_bind].
  rewrite (object_recipients_prop DAudience 0 o _ _ Hv5 Ho5).
  cbn [mbind outcome_bind mTo mBto mCc mBcc mAudience].
  rewrite (object_apply_present DTo a1 o1 o _ Hv1)
    by (by rewrite Hd1).
  rewrite (object_apply_present DBto a2 o2 o _ Hv2)
    by (by rewrite Hd2).
  rewrite (object_apply_present DCc a3 o3 o _ Hv3)
    by (by rewrite Hd3).
  rewrite (object_apply_present DBcc a4 o4 o _ Hv4)
    by (by rewrite Hd4).
  rewrite (object_apply_present DAudience a5 o5 o _ Hv5)
    by (by rewrite Hd5).
  cbn [mbind outcome_bind fmap list_fmap mTo mBto mCc mBcc mAudience].
  assert (Hsame : create_set_object [ItemType o] c = c)
    by (destruct c; cbn in Hobj |- *; by rewrite Hobj).
  rewrite Hsame.
  rewrite (activity_apply_present DTo a1 o1 c _ Hg1)
    by (by rewrite Hd1).
  rewrite (activity_apply_present DBto a2 o2 c _ Hg2)
    by (by rewrite Hd2).
  rewrite (activity_apply_present DCc a3 o3 c _ Hg3)
    by (by rewrite Hd3).
  rewrite (activity_apply_present DBcc a4 o4 c _ Hg4)
    by (by rewrite Hd4).
  rewrite (activity_apply_present DAudience a5 o5 c _ Hg5)
    by (by rewrite Hd5).
  done.
Qed.

End ThenNormalize.

End WrapInCreate.

Lemma wrapInCreate_normalizeRecipients_witness :
  let c :=
    mkCreate (Some [ItemIRI Sample.carol]) (Some [ItemIRI Sample.bob])
      (Some []) (Some []) (Some []) (Some [ItemType MoreSamples.article]) in
  wrapInCreate MoreSamples.article Sample.alice
    = Ok (mkWrapped c [ItemIRI Sample.alice] (Prop_ 10%Z)) ∧
  normalizeRecipients id map_to_list c = Ok c.
Proof.
  cbn zeta.
  assert (Hw : wrapInCreate MoreSamples.article Sample.alice
               = Ok (mkWrapped
                       (mkCreate (Some [ItemIRI Sample.carol])
                          (Some [ItemIRI Sample.bob]) (Some []) (Some [])
                          (Some []) (Some [ItemType MoreSamples.article]))
                       [ItemIRI Sample.alice] (Prop_ 10%Z)))
    by reflexivity.
  split; [exact Hw|].
  apply (wrapInCreate_normalizeRecipients id map_to_list
           (λ m, Permutation_refl (map_to_list m))
           MoreSamples.article Sample.alice _ Hw).
  intros d. destruct d; discriminate.
Defined.

(** ** The requests of the transport *)

Lemma Header_Get_Add (k k' v : string) (req : Request) :
  Header_Get (Header (Header_Add k v req)) k' =
    if decide (k = k') then
      match Header req !! k with
      | Some (x :: _) => x
      | _ => v
      end
    else Header_Get (Header req) k'.
Proof.
  unfold Header_Get, Header_Add. cbn [Header].
  destruct (decide (k = k')) as [<-|Hne].
  - rewrite lookup_insert_eq. by destruct (Header req !! k) as [[|x l]|].
  - by rewrite lookup_insert_ne.
Qed.

Lemma Header_Add_lookup_ne (k k' v : string) (req : Request) :
  k ≠ k' → Header (Header_Add k v req) !! k' = Header req !! k'.
Proof. intros Hne. unfold Header_Add. cbn [Header]. by rewrite lookup_insert_ne. Qed.

Lemma Header_Add_Method (k v : string) (req : Request) :
  Method (Header_Add k v req) = Method req.
Proof. done. Qed.

Lemma Header_Add_Body (k v : string) (req : Request) :
  Body (Header_Add k v req) = Body req.
Proof. done. Qed.

Section RequestFacts.

Context {URL : Type} (url_String url_Host : URL -> string) {World : Type}.
Variable clock_Now : World -> World * string.
Variable http_NewRequest : string -> string -> option string.
Variable sha256_Sum256 : list Byte.byte -> list Byte.byte.
Variable base64_EncodeToString : list Byte.byte -> string.
Variable SignRequest : World -> Request -> World * Request * option string.
Variable getSigner_SignRequest :
  World -> Request -> World * Request * option string.
Variable client_Do :
  World -> Request -> list Byte.byte ->
  World * list Byte.byte * (string + Response).
Variable fmt_extra :
  list Byte.byte -> list Byte.byte -> gmap string (list string) -> string.
Variables appAgent gofedAgent : string.

Abbreviation prepare :=
  (Deliver_prepare url_String url_Host clock_Now http_NewRequest
     sha256_Sum256 base64_EncodeToString appAgent gofedAgent).
Abbreviation sign := (Deliver_sign SignRequest).
Abbreviation send := (Deliver_send url_String client_Do fmt_extra).
Abbreviation deliver :=
  (Deliver url_String url_Host clock_Now http_NewRequest sha256_Sum256
     base64_EncodeToString SignRequest client_Do fmt_extra appAgent
     gofedAgent).
Abbreviation bstep :=
  (batch_step url_String url_Host clock_Now http_NewRequest sha256_Sum256
     base64_EncodeToString SignRequest client_Do fmt_extra appAgent
     gofedAgent).
Abbreviation dereference :=
  (Dereference url_String url_Host clock_Now http_NewRequest
     getSigner_SignRequest client_Do appAgent gofedAgent).

(** X13.  The request [Dereference] builds is one [IsActivityPubRequest]
    accepts: a GET whose Accept header names an ActivityStreams media
    type.  It has no body, its Host header is the host of the IRI, and
    its Digest header is present and empty. *)
Theorem Dereference_request_accepted (iri : URL) (now : string) :
  let req := Dereference_request url_String url_Host appAgent gofedAgent
               iri now in
  IsActivityPubRequest req = true ∧
  Method req = "GET" ∧
  RequestURL req = url_String iri ∧
  Body req = None ∧
  Header req !! "Host" = Some [url_Host iri] ∧
  Header req !! "Digest" = Some [EmptyString] ∧
  Header req !! contentTypeHeader = None.
Proof.
  cbn zeta. unfold Dereference_request.
  split.
  { unfold IsActivityPubRequest, isActivityPubGet.
    rewrite !Header_Add_Method. cbn [Method].
    rewrite Header_Get_Add. rewrite decide_True by done.
    rewrite !Header_Add_lookup_ne by done. cbn [Header].
    rewrite lookup_empty. by vm_compute. }
  split; [done|]. split; [done|]. split; [done|].
  split; [|split].
  - rewrite !Header_Add_lookup_ne by done.
    unfold Header_Add at 1. cbn [Header]. rewrite lookup_insert_eq.
    rewrite !Header_Add_lookup_ne by done. cbn [Header].
    by rewrite lookup_empty.
  - rewrite !Header_Add_lookup_ne by done.
    unfold Header_Add at 1. cbn [Header]. rewrite lookup_insert_eq.
    rewrite !Header_Add_lookup_ne by done. cbn [Header].
    by rewrite lookup_empty.
  - rewrite !Header_Add_lookup_ne by done. cbn [Header].
    by rewrite lookup_empty.
Qed.

Lemma prepare_request_eq (σ : @Machine World) (b : nat) (to : URL) :
  (prepare σ b to).2 =
    match http_NewRequest "POST" (url_String to) with
    | Some err => inl err
    | None =>
        inr (fresh (dom (heap σ)),
             Deliver_request url_String url_Host sha256_Sum256
               base64_EncodeToString appAgent gofedAgent to
               (clock_Now (world σ)).2 (read_slice σ b)
               (fresh (dom (heap σ))))
    end.
Proof.
  unfold Deliver_prepare.
  pose proof (is_fresh (dom (heap σ))) as Hfresh.
  set (l := fresh (dom (heap σ))) in *.
  destruct (http_NewRequest "POST" (url_String to)) as [err|]; [done|].
  cbn [world heap wire].
  destruct (clock_Now (world σ)) as [w now]. cbn [snd].
  assert (Hb : read_slice
                 (mkMachine
                    (<[l := go_copy
                       (read_slice (mkMachine (<[l := replicate (length (read_slice σ b)) Byte.x00]> (heap σ)) (world σ) (wire σ)) l)
                       (read_slice (mkMachine (<[l := replicate (length (read_slice σ b)) Byte.x00]> (heap σ)) (world σ) (wire σ)) b)]>
                     (<[l := replicate (length (read_slice σ b)) Byte.x00]> (heap σ)))
                    w (wire σ)) b
               = read_slice σ b).
  { unfold read_slice. cbn [heap].
    destruct (decide (l = b)) as [->|Hne].
    - rewrite !lookup_insert_eq. cbn [default from_option id].
      rewrite (not_elem_of_dom_1 _ _ Hfresh). cbn [default from_option id].
      done.
    - by rewrite !lookup_insert_ne. }
  by rewrite Hb.
Qed.

Lemma Deliver_request_digest (to : URL) (now : string)
    (payload : list Byte.byte) (l : nat) :
  Header (Deliver_request url_String url_Host sha256_Sum256
            base64_EncodeToString appAgent gofedAgent to now payload l)
    !! "Digest"
  = Some ["SHA-256=" +:+ base64_EncodeToString (sha256_Sum256 payload)].
Proof.
  unfold Deliver_request.
  unfold Header_Add at 1. cbn [Header]. rewrite lookup_insert_eq.
  rewrite !Header_Add_lookup_ne by done. cbn [Header].
  by rewrite lookup_empty.
Qed.


(** *** Calls of the HTTP client *)

Lemma prepare_wire (σ : @Machine World) (b : nat) (to : URL) :
  wire (prepare σ b to).1 = wire σ.
Proof.
  unfold Deliver_prepare.
  destruct (http_NewRequest "POST" (url_String to)) as [err|]; [done|].
  cbn [world heap wire]. by destruct (clock_Now (world σ)) as [w now].
Qed.

Lemma sign_wire (σ : @Machine World) (req : Request) :
  wire (sign σ req).1 = wire σ.
Proof.
  unfold Deliver_sign. destruct (SignRequest (world σ) req) as [[w req'] err].
  by destruct err.
Qed.

Lemma send_wire (σ : @Machine World) (to : URL) (l : nat) (req : Request) :
  wire (send σ to l req).1 = wire σ ++ [(RequestURL req, read_slice σ l)] ∧
  ((send σ to l req).2 = None →
   ∃ w rem resp,
     client_Do (world σ) req (read_slice σ l) = (w, rem, inr resp) ∧
     isSuccess (StatusCode resp) = true).
Proof.
  unfold Deliver_send.
  destruct (client_Do (world σ) req (read_slice σ l)) as [[w remains] r].
  destruct r as [e|resp]; [done|].
  destruct (isSuccess (StatusCode resp)) eqn:Hs; cbn [negb fst snd wire];
    [|done].
  split; [done|]. intros _. by exists w, remains, resp.
Qed.

(** X15.  [Dereference] never touches a byte slice and calls the HTTP
    client at most once, with an empty body.  It fails without any call
    and without any effect when the request cannot be built, and it
    succeeds only after exactly one call that was answered with status
    200, whose body it returns; the other statuses [isSuccess] accepts
    are failures here. *)
Theorem Dereference_spec (σ : @Machine World) (iri : URL) :
  heap (dereference σ iri).1 = heap σ ∧
  (∀ err, http_NewRequest "GET" (url_String iri) = Some err →
          dereference σ iri = (σ, inl err)) ∧
  ∃ sent,
    wire (dereference σ iri).1 = wire σ ++ sent ∧
    length sent ≤ 1 ∧
    Forall (λ e : string * list Byte.byte, e.2 = []) sent ∧
    ∀ body, (dereference σ iri).2 = inr body →
      http_NewRequest "GET" (url_String iri) = None ∧
      ∃ w req w' rem resp,
        client_Do w req [] = (w', rem, inr resp) ∧
        StatusCode resp = 200%Z ∧
        ResponseBody resp = body ∧
        sent = [(RequestURL req, [])].
Proof.
  unfold Dereference.
  destruct (http_NewRequest "GET" (url_String iri)) as [err|].
  { split; [done|]. split; [by intros ? [= <-]|].
    exists []. rewrite app_nil_r. repeat split; try done. cbn. lia. }
  destruct (clock_Now (world σ)) as [w now].
  destruct (getSigner_SignRequest w _) as [[w1 req] [e|]].
  { split; [done|]. split; [done|].
    exists []. cbn [wire fst]. rewrite app_nil_r.
    repeat split; try done. cbn. lia. }
  destruct (client_Do w1 req []) as [[w2 rem] r] eqn:Hdo.
  destruct r as [e|resp].
  { split; [done|]. split; [done|].
    exists [(RequestURL req, [])]. cbn [wire fst].
    repeat split; try done. by repeat constructor. }
  destruct (Z.eqb (StatusCode resp) 200) eqn:Hs; cbn [negb].
  - split; [done|]. split; [done|].
    exists [(RequestURL req, [])]. cbn [wire fst snd].
    split; [done|]. split; [done|]. split; [by repeat constructor|].
    intros body [= <-]. split; [done|].
    exists w1, req, w2, rem, resp. apply Z.eqb_eq in Hs. done.
  - split; [done|]. split; [done|].
    exists [(RequestURL req, [])]. cbn [wire fst].
    repeat split; try done. by repeat constructor.
Qed.

(** X16.  [Deliver] tries one request per call: it calls the HTTP client
    at most once, and it returns nil only after exactly one call, which
    was answered with a status [isSuccess] accepts. *)
Theorem Deliver_single_call (σ : @Machine World) (b : nat) (to : URL) :
  ∃ sent,
    wire (deliver σ b to).1 = wire σ ++ sent ∧
    length sent ≤ 1 ∧
    ((deliver σ b to).2 = None →
     ∃ w req body w' rem resp,
       client_Do w req body = (w', rem, inr resp) ∧
       isSuccess (StatusCode resp) = true ∧
       sent = [(RequestURL req, body)]).
Proof.
  unfold Deliver.
  pose proof (prepare_wire σ b to) as Hp.
  destruct (prepare σ b to) as [σ1 [e|[l req]]]; cbn [fst] in Hp.
  { exists []. cbn [fst snd]. rewrite app_nil_r. repeat split; try done.
    cbn. lia. }
  pose proof (sign_wire σ1 req) as Hs.
  destruct (sign σ1 req) as [σ2 [e|req']]; cbn [fst] in Hs.
  { exists []. cbn [fst snd]. rewrite app_nil_r. repeat split; try done.
    - congruence.
    - cbn. lia. }
  destruct (send_wire σ2 to l req') as [Hw Hnil].
  exists [(RequestURL req', read_slice σ2 l)].
  split; [by rewrite Hw, Hs, Hp|]. split; [done|].
  intros Hres. destruct (Hnil Hres) as (w & rem & resp & Hdo & Hok).
  by exists (world σ2), req', (read_slice σ2 l), w, rem, resp.
Qed.

(** Along a run of [BatchDeliver], the calls made so far and the
    goroutines that may still call are together no more than the
    goroutines, and every goroutine whose [Deliver] returned nil has
    made its call. *)
Lemma bstep_calls (b n : nat) (wire0 : list (string * list Byte.byte))
    (β β' : @Batch URL World) :
  bstep b β β' →
  (∃ sent, wire (machine β) = wire0 ++ sent ∧
     length sent + sum_list_with task_may_call (tasks β) ≤ n ∧
     sum_list_with task_succeeded (tasks β) ≤ length sent) →
  ∃ sent, wire (machine β') = wire0 ++ sent ∧
     length sent + sum_list_with task_may_call (tasks β') ≤ n ∧
     sum_list_with task_succeeded (tasks β') ≤ length sent.
Proof.
  intros [i Hstep] (sent & Hw & Hmay & Hsucc).
  unfold task_step in Hstep.
  destruct (tasks β !! i) as [t|] eqn:Hi; [|done]. cbn in Hstep.
  pose proof (sum_list_insert task_may_call (tasks β) i t) as Hm.
  pose proof (sum_list_insert task_succeeded (tasks β) i t) as Hsu.
  destruct t as [r|r l req|r l req|r err|r err]; [| | | |done].
  - pose proof (prepare_wire (machine β) b r) as Hp.
    destruct (prepare (machine β) b r) as [σ1 res]. cbn [fst] in Hp.
    injection Hstep as <-. cbn [machine tasks].
    exists sent. rewrite Hp. split; [done|].
    destruct res as [e|[l req]];
      [specialize (Hm (TReturned r (Some e)) Hi);
       specialize (Hsu (TReturned r (Some e)) Hi)
      |specialize (Hm (TPrepared r l req) Hi);
       specialize (Hsu (TPrepared r l req) Hi)];
      cbn in Hm, Hsu; lia.
  - pose proof (sign_wire (machine β) req) as Hp.
    destruct (sign (machine β) req) as [σ1 res]. cbn [fst] in Hp.
    injection Hstep as <-. cbn [machine tasks].
    exists sent. rewrite Hp. split; [done|].
    destruct res as [e|req'];
      [specialize (Hm (TReturned r (Some e)) Hi);
       specialize (Hsu (TReturned r (Some e)) Hi)
      |specialize (Hm (TSigned r l req') Hi);
       specialize (Hsu (TSigned r l req') Hi)];
      cbn in Hm, Hsu; lia.
  - destruct (send_wire (machine β) r l req) as [Hp _].
    destruct (send (machine β) r l req) as [σ1 err]. cbn [fst] in Hp.
    injection Hstep as <-. cbn [machine tasks].
    exists (sent ++ [(RequestURL req, read_slice (machine β) l)]).
    rewrite Hp, Hw, app_assoc, length_app. split; [done|].
    specialize (Hm (TReturned r err) Hi).
    specialize (Hsu (TReturned r err) Hi).
    destruct err; cbn in Hm, Hsu |- *; lia.
  - injection Hstep as <-. cbn [machine tasks].
    exists sent. split; [done|].
    specialize (Hm (TDone r err) Hi). specialize (Hsu (TDone r err) Hi).
    destruct err; cbn in Hm, Hsu; lia.
Qed.

Lemma run_schedule_rtc (b : nat) (sched : list nat) (β : @Batch URL World) :
  rtc (bstep b) β
    (run_schedule url_String url_Host clock_Now http_NewRequest
       sha256_Sum256 base64_EncodeToString SignRequest client_Do fmt_extra
       appAgent gofedAgent b sched β).
Proof.
  revert β. induction sched as [|i sched IH]; intros β; [apply rtc_refl|].
  unfold run_schedule. cbn [foldl].
  destruct (task_step _ _ _ _ _ _ _ _ _ _ _ b β i) as [β'|] eqn:Hstep;
    cbn [default from_option id].
  - eapply rtc_l; [by exists i|]. apply IH.
  - apply IH.
Qed.

(** X17.  [BatchDeliver] does not retry: in every state of every
    interleaving, the HTTP client has been called at most once per
    recipient, the calls made and the goroutines still to call are
    together at most the recipients, and the goroutines in which
    [Deliver] returned nil are at most the calls made. *)
Theorem BatchDeliver_no_retry (σ : @Machine World) (b : nat)
    (recipients : list URL) (β : @Batch URL World) :
  rtc (bstep b) (batch_init σ recipients) β →
  ∃ sent,
    wire (machine β) = wire σ ++ sent ∧
    length sent + sum_list_with task_may_call (tasks β) ≤ length recipients ∧
    sum_list_with task_succeeded (tasks β) ≤ length sent ∧
    length sent ≤ length recipients.
Proof.
  intros Hrun.
  assert (Hinit : ∃ sent,
            wire (machine (batch_init σ recipients)) = wire σ ++ sent ∧
            length sent
              + sum_list_with task_may_call (tasks (batch_init σ recipients))
              ≤ length recipients ∧
            sum_list_with task_succeeded (tasks (batch_init σ recipients))
              ≤ length sent).
  { exists []. cbn [batch_init machine tasks]. rewrite app_nil_r.
    split; [done|].
    assert (Hs : ∀ rs : list URL,
              sum_list_with task_may_call (@TReady URL <$> rs) = length rs ∧
              sum_list_with task_succeeded (@TReady URL <$> rs) = 0).
    { induction rs as [|r rs [IH1 IH2]]; [done|]. cbn.
      rewrite IH1, IH2. done. }
    destruct (Hs recipients) as [-> ->]. cbn. lia. }
  assert (Hinv : ∃ sent,
            wire (machine β) = wire σ ++ sent ∧
            length sent + sum_list_with task_may_call (tasks β)
              ≤ length recipients ∧
            sum_list_with task_succeeded (tasks β) ≤ length sent).
  { induction Hrun as [β|β β1 β2 Hstep _ IH]; [done|].
    apply IH. by eapply bstep_calls. }
  destruct Hinv as (sent & Hw & Hmay & Hsucc).
  exists sent. repeat split; try done. lia.
Qed.

(** *** The headers of a response *)

Lemma prepare_digest (σ : @Machine World) (b : nat) (to : URL) :
  match (prepare σ b to).2 with
  | inl _ => True
  | inr (_, req) =>
      Header req !! "Digest" =
        Some ["SHA-256=" +:+
              base64_EncodeToString (sha256_Sum256 (read_slice σ b))]
  end.
Proof.
  rewrite prepare_request_eq.
  destruct (http_NewRequest "POST" (url_String to)) as [err|]; [done|].
  apply Deliver_request_digest.
Qed.

(** X18.  [addResponseHeaders] reads the clock once and leaves exactly
    one value under each of Content-Type, Date and Digest, whatever was
    there before, and no other key is touched.  The Content-Type is one
    [headerIsActivityPubMediaType] accepts, and the Digest of a content
    is the Digest [Deliver] puts on the request that carries the same
    bytes. *)
Theorem addResponseHeaders_spec (h : gmap string (list string)) (w : World)
    (responseContent : list Byte.byte) :
  let r := addResponseHeaders clock_Now sha256_Sum256 base64_EncodeToString
             h w responseContent in
  r.1 = (clock_Now w).1 ∧
  r.2 !! contentTypeHeader = Some [contentTypeHeaderValue] ∧
  headerIsActivityPubMediaType (Header_Get r.2 contentTypeHeader) = true ∧
  r.2 !! "Date" = Some [(clock_Now w).2 +:+ " GMT"] ∧
  r.2 !! "Digest" =
    Some ["SHA-256=" +:+
          base64_EncodeToString (sha256_Sum256 responseContent)] ∧
  (∀ k, k ∉ ["Content-Type"; "Date"; "Digest"] → r.2 !! k = h !! k) ∧
  (∀ σ b to,
     read_slice σ b = responseContent →
     match (prepare σ b to).2 with
     | inl _ => True
     | inr (_, req) => Header req !! "Digest" = r.2 !! "Digest"
     end).
Proof.
  cbn zeta. unfold addResponseHeaders, Header_Set.
  destruct (clock_Now w) as [w' now]. cbn [fst snd].
  assert (Hd : (<[digestHeader :=
                   [EmptyString +:+ sha256Digest +:+ digestDelimiter +:+
                    base64_EncodeToString (sha256_Sum256 responseContent)]]>
                 (<[dateHeader := [now +:+ " GMT"]]>
                    (<[contentTypeHeader := [contentTypeHeaderValue]]> h)))
               !! "Digest"
               = Some ["SHA-256=" +:+
                       base64_EncodeToString
                         (sha256_Sum256 responseContent)]).
  { by rewrite lookup_insert_eq. }
  split; [done|]. split; [|split; [|split; [|split; [|split]]]].
  - rewrite !lookup_insert_ne by done. by rewrite lookup_insert_eq.
  - unfold Header_Get. rewrite !lookup_insert_ne by done.
    rewrite lookup_insert_eq. by vm_compute.
  - rewrite lookup_insert_ne by done. by rewrite lookup_insert_eq.
  - exact Hd.
  - intros k Hk.
    rewrite !lookup_insert_ne; [done|..]; intros <-; apply Hk;
      repeat constructor.
  - intros σ b to <-.
    pose proof (prepare_digest σ b to) as H.
    destruct ((prepare σ b to).2) as [e|[l req]]; [done|].
    rewrite H. symmetry. exact Hd.
Qed.

End RequestFacts.

Lemma BatchDeliver_no_retry_witness :
  ∃ sent,
    wire (machine
            (SampleTransport.run_schedule 0 [0; 1; 1; 1; 0; 0; 1; 0]
               (batch_init SampleTransport.machine0
                  [Sample.bob; Sample.carol])))
      = wire SampleTransport.machine0 ++ sent ∧
    length sent ≤ 2.
Proof.
  destruct (BatchDeliver_no_retry id id SampleTransport.clock_Now
              SampleTransport.http_NewRequest SampleTransport.sha256_Sum256
              SampleTransport.base64_EncodeToString
              SampleTransport.SignRequest SampleTransport.client_Do
              SampleTransport.fmt_extra "app" "go-fed"
              SampleTransport.machine0 0 [Sample.bob; Sample.carol]
              (SampleTransport.run_schedule 0 [0; 1; 1; 1; 0; 0; 1; 0]
                 (batch_init SampleTransport.machine0
                    [Sample.bob; Sample.carol])))
    as (sent & Hw & _ & _ & Hlen).
  - apply run_schedule_rtc.
  - exists sent. split; [exact Hw|exact Hlen].
Defined.

(** ** The inboxes of actors *)

Section InboxFacts.

Context {URL Time : Type}.
Variable GetActivityStreamsInbox : Value URL Time -> slot (Item URL (Value URL Time)).
Variable fmt_T : Value URL Time -> string.

Abbreviation inbox_of := (getInbox GetActivityStreamsInbox fmt_T).

Lemma getInboxes_loop_spec (t : list (Value URL Time)) (acc : list URL) :
  match getInboxes_loop GetActivityStreamsInbox fmt_T t acc with
  | Ok u => ∃ u', u = acc ++ u' ∧
                  Forall2 (λ e iri, inbox_of e = Ok iri) t u'
  | Err s => ∃ pre e post, t = pre ++ e :: post ∧
               Forall (λ x, is_Ok (inbox_of x)) pre ∧ inbox_of e = Err s
  | Panic => ∃ pre e post, t = pre ++ e :: post ∧
               Forall (λ x, is_Ok (inbox_of x)) pre ∧ inbox_of e = Panic
  end.
Proof.
  revert acc. induction t as [|e t IH]; intros acc; cbn [getInboxes_loop].
  { exists []. by rewrite app_nil_r. }
  destruct (inbox_of e) as [iri|s|] eqn:He; cbn.
  - specialize (IH (acc ++ [iri])).
    destruct (getInboxes_loop _ _ t (acc ++ [iri])) as [u|s|].
    + destruct IH as (u' & -> & Hall). exists (iri :: u').
      rewrite <- app_assoc. split; [done|]. by constructor.
    + destruct IH as (pre & e' & post & -> & Hpre & He').
      exists (e :: pre), e', post. split; [done|]. split; [|done].
      constructor; [by rewrite He|done].
    + destruct IH as (pre & e' & post & -> & Hpre & He').
      exists (e :: pre), e', post. split; [done|]. split; [|done].
      constructor; [by rewrite He|done].
  - exists [], e, t. by repeat split.
  - exists [], e, t. by repeat split.
Qed.

(** X19.  [getInboxes] gives the inbox of every actor, in the order of
    the actors, and fails as [getInbox] fails on the first actor for
    which it does: with an error when the type has no inbox or the inbox
    has no id, with a panic when the inbox property is nil. *)
Theorem getInboxes_spec (t : list (Value URL Time)) :
  match getInboxes GetActivityStreamsInbox fmt_T t with
  | Ok u => Forall2 (λ e iri, inbox_of e = Ok iri) t u
  | Err s => ∃ pre e post, t = pre ++ e :: post ∧
               Forall (λ x, is_Ok (inbox_of x)) pre ∧ inbox_of e = Err s ∧
               (GetActivityStreamsInbox e = Absent ∨
                ∃ inbox, GetActivityStreamsInbox e = Prop_ inbox ∧
                         ¬ has_id inbox)
  | Panic => ∃ pre e post, t = pre ++ e :: post ∧
               Forall (λ x, is_Ok (inbox_of x)) pre ∧
               GetActivityStreamsInbox e = Unset
  end.
Proof.
  unfold getInboxes. pose proof (getInboxes_loop_spec t []) as H.
  destruct (getInboxes_loop _ _ t []) as [u|s|].
  - by destruct H as (u' & -> & Hall).
  - destruct H as (pre & e & post & -> & Hpre & He).
    exists pre, e, post. split; [done|]. split; [done|]. split; [done|].
    unfold getInbox in He.
    destruct (GetActivityStreamsInbox e) as [| |inbox]; [by left|done|].
    right. exists inbox. split; [done|].
    intros Hid. unfold has_id in Hid. rewrite He in Hid. done.
  - destruct H as (pre & e & post & -> & Hpre & He).
    exists pre, e, post. split; [done|]. split; [done|].
    unfold getInbox in He.
    destruct (GetActivityStreamsInbox e) as [| |inbox]; [done|done|].
    by pose proof (ToId_no_panic inbox) as Hn.
Qed.

End InboxFacts.

(** ** When [normalizeRecipients] succeeds *)

Section NormalizeOutcome.

Context {URL : Type} (url_String : URL -> string) {Time : Type}.
Variable range : gmap string URL -> list (string * URL).

Abbreviation value := (Value URL Time).
Abbreviation item := (Item URL value).

Lemma collect_ids_cases (m : gmap string URL) (p : list item) :
  match collect_ids url_String m p with
  | Ok _ => Forall has_id p
  | Err _ => ¬ Forall has_id p
  | Panic => False
  end.
Proof.
  revert m. induction p as [|it p IH]; intros m; cbn [collect_ids]; [done|].
  pose proof (ToId_no_panic it) as Hn.
  destruct (ToId it) as [u|e|] eqn:Hit; cbn [mbind outcome_bind]; [|..|done].
  - specialize (IH (<[url_String u := u]> m)).
    destruct (collect_ids url_String (<[url_String u := u]> m) p); [|..|done].
    + constructor; [|done]. unfold has_id. by rewrite Hit.
    + by intros [_ ?]%Forall_cons.
  - intros [Hid _]%Forall_cons. unfold has_id in Hid. by rewrite Hit in Hid.
Qed.

Lemma activity_recipients_cases (d : Dim) (a : Create URL Time) :
  match activity_recipients url_String d a with
  | Ok (a1, _) =>
      a1 = create_set d (default [] (create_get d a)) a ∧
      Forall has_id (default [] (create_get d a))
  | Err _ => ¬ Forall has_id (default [] (create_get d a))
  | Panic => False
  end.
Proof.
  unfold activity_recipients.
  destruct (create_get d a) as [p|] eqn:Hget; cbn.
  - pose proof (collect_ids_cases ∅ p) as Hc.
    destruct (collect_ids url_String ∅ p); cbn; [|done..].
    split; [|done]. by rewrite create_set_same.
  - done.
Qed.

Lemma object_recipients_cases (d : Dim) (i : nat) (it : item) :
  match object_recipients url_String d i it with
  | Ok (it', _) =>
      ∃ v, it = ItemType v ∧ value_get d v ≠ Absent ∧
           Forall has_id (slot_list (value_get d v)) ∧
           it' = ItemType (value_set d (slot_list (value_get d v)) v)
  | Err _ =>
      ∀ v, it = ItemType v →
           ¬ (value_get d v ≠ Absent ∧
              Forall has_id (slot_list (value_get d v)))
  | Panic => False
  end.
Proof.
  unfold object_recipients. destruct it as [u|v|x]; cbn; [done| |done].
  destruct (value_get d v) as [| |p] eqn:Hget; cbn.
  - intros v' [= <-]. rewrite Hget. by intros [? _].
  - exists v. rewrite Hget. by repeat split.
  - pose proof (collect_ids_cases ∅ p) as Hc.
    destruct (collect_ids url_String ∅ p); cbn; [|..|done].
    + exists v. rewrite Hget. cbn. split; [done|]. split; [done|].
      split; [done|]. by rewrite value_set_same.
    + intros v' [= <-]. rewrite Hget. cbn. by intros [_ ?].
Qed.

Lemma object_apply_type (d : Dim) (m1 m2 : gmap string URL) (v : value) :
  ∃ v', object_apply range d m1 m2 (ItemType v) = ItemType v'.
Proof. unfold object_apply. destruct (value_get d v); by eexists. Qed.

Ltac object_stage H :=
  match goal with
  | |- context [object_recipients ?us ?d ?i ?it] =>
      pose proof (object_recipients_cases d i it) as H;
      destruct (object_recipients us d i it) as [[? ?]|?|];
      cbn [mbind outcome_bind] in H |- *; [| |done]
  end.

Lemma object_normalize_cases (actor : recipientMaps) (i : nat) (it : item) :
  match object_normalize url_String range actor i it with
  | Ok _ => addressable it
  | Err _ => ¬ addressable it
  | Panic => False
  end.
Proof.
  unfold object_normalize.
  object_stage H1.
  2: { intros (v & -> & Hv). by apply (H1 v eq_refl), Hv. }
  destruct H1 as (v & -> & Hn1 & Hid1 & ->).
  object_stage H2.
  2: { intros (v' & [= <-] & Hv). apply (H2 _ eq_refl).
       rewrite !value_get_set, !decide_False by done. apply Hv. }
  destruct H2 as (v2 & [= <-] & Hn2 & Hid2 & ->).
  rewrite !value_get_set, !decide_False in Hn2, Hid2 by done.
  object_stage H3.
  2: { intros (v' & [= <-] & Hv). apply (H3 _ eq_refl).
       rewrite !value_get_set, !decide_False by done. apply Hv. }
  destruct H3 as (v3 & [= <-] & Hn3 & Hid3 & ->).
  rewrite !value_get_set, !decide_False in Hn3, Hid3 by done.
  object_stage H4.
  2: { intros (v' & [= <-] & Hv). apply (H4 _ eq_refl).
       rewrite !value_get_set, !decide_False by done. apply Hv. }
  destruct H4 as (v4 & [= <-] & Hn4 & Hid4 & ->).
  rewrite !value_get_set, !decide_False in Hn4, Hid4 by done.
  object_stage H5.
  2: { intros (v' & [= <-] & Hv). apply (H5 _ eq_refl).
       rewrite !value_get_set, !decide_False by done. apply Hv. }
  destruct H5 as (v5 & [= <-] & Hn5 & Hid5 & ->).
  rewrite !value_get_set, !decide_False in Hn5, Hid5 by done.
  exists v. split; [done|]. intros d. by destruct d.
Qed.

Lemma objects_loop_cases (actor : recipientMaps) (i : nat) (o : list item) :
  match objects_loop url_String range actor i o with
  | Ok _ => Forall addressable o
  | Err _ => ¬ Forall addressable o
  | Panic => False
  end.
Proof.
  revert i. induction o as [|it o IH]; intros i; cbn [objects_loop]; [done|].
  pose proof (object_normalize_cases actor i it) as Hn.
  destruct (object_normalize url_String range actor i it) as [[it' ms]|e|];
    cbn [mbind outcome_bind]; [| |done].
  2: { by intros [? _]%Forall_cons. }
  specialize (IH (S i)).
  destruct (objects_loop url_String range actor (S i) o) as [[rest objs]|e|];
    cbn [mbind outcome_bind]; [| |done].
  - by constructor.
  - by intros [_ ?]%Forall_cons.
Qed.

Ltac activity_stage H :=
  match goal with
  | |- context [activity_recipients ?us ?d ?a] =>
      pose proof (activity_recipients_cases d a) as H;
      destruct (activity_recipients us d a) as [[? ?]|?|];
      cbn [mbind outcome_bind] in H |- *; [| |done]
  end.

Lemma normalizeRecipients_cases (a : Create URL Time) :
  match normalizeRecipients url_String range a with
  | Ok _ =>
      well_addressed a ∧
      ∃ o, create_object a = Some o ∧ Forall addressable o
  | Err _ =>
      ¬ well_addressed a ∨
      ∃ o, create_object a = Some o ∧ ¬ Forall addressable o
  | Panic => well_addressed a ∧ create_object a = None
  end.
Proof.
  unfold normalizeRecipients.
  activity_stage H1.
  2: { left. intros Hw. apply H1, Hw. }
  destruct H1 as [-> Hid1].
  activity_stage H2.
  2: { left. intros Hw. apply H2.
       rewrite !create_get_set, !decide_False by done. apply Hw. }
  destruct H2 as [-> Hid2].
  rewrite !create_get_set, !decide_False in Hid2 by done.
  activity_stage H3.
  2: { left. intros Hw. apply H3.
       rewrite !create_get_set, !decide_False by done. apply Hw. }
  destruct H3 as [-> Hid3].
  rewrite !create_get_set, !decide_False in Hid3 by done.
  activity_stage H4.
  2: { left. intros Hw. apply H4.
       rewrite !create_get_set, !decide_False by done. apply Hw. }
  destruct H4 as [-> Hid4].
  rewrite !create_get_set, !decide_False in Hid4 by done.
  activity_stage H5.
  2: { left. intros Hw. apply H5.
       rewrite !create_get_set, !decide_False by done. apply Hw. }
  destruct H5 as [-> Hid5].
  rewrite !create_get_set, !decide_False in Hid5 by done.
  assert (Hw : well_addressed a) by (intros d; by destruct d).
  rewrite !create_object_set.
  destruct (create_object a) as [o|]; [|done].
  match goal with
  | |- context [objects_loop _ _ ?actor 0 o] =>
      pose proof (objects_loop_cases actor 0 o) as Hl;
      destruct (objects_loop url_String range actor 0 o) as [[o' objs]|e|];
      cbn [mbind outcome_bind]; [| |done]
  end.
  - split; [done|]. by exists o.
  - right. by exists o.
Qed.

(** X20.  [normalizeRecipients] succeeds exactly when every recipient of
    the activity has an id and every element of its [object] property is
    an embedded value that has all five addressing properties with ids
    throughout; it panics exactly when the recipients have ids and the
    [object] property is nil; in every other case it returns an error.
    The order in which Go ranges over the maps plays no part. *)
Theorem normalizeRecipients_outcome (a : Create URL Time) :
  (is_Ok (normalizeRecipients url_String range a) ↔
   well_addressed a ∧
   ∃ o, create_object a = Some o ∧ Forall addressable o) ∧
  (normalizeRecipients url_String range a = Panic ↔
   well_addressed a ∧ create_object a = None) ∧
  (is_Err (normalizeRecipients url_String range a) ↔
   ¬ well_addressed a ∨
   ∃ o, create_object a = Some o ∧ ¬ Forall addressable o).
Proof.
  pose proof (normalizeRecipients_cases a) as H.
  destruct (normalizeRecipients url_String range a) as [a'|e|]; cbn.
  - destruct H as (Hw & o & Ho & Hadd). split; [|split].
    + split; [|done]. intros _. split; [done|]. by exists o.
    + split; [done|]. intros [_ Hnone]. by rewrite Ho in Hnone.
    + split; [done|]. intros [Hn|(o1 & Ho1 & Hn)]; [done|].
      rewrite Ho in Ho1. injection Ho1 as <-. done.
  - split; [|split].
    + split; [done|]. intros (Hw & o & Ho & Hadd).
      destruct H as [Hn|(o1 & Ho1 & Hn)]; [done|].
      rewrite Ho in Ho1. injection Ho1 as <-. done.
    + split; [done|]. intros [Hw Hnone].
      destruct H as [Hn|(o1 & Ho1 & Hn)]; [done|]. by rewrite Hnone in Ho1.
    + done.
  - destruct H as [Hw Hnone]. split; [|split].
    + split; [done|]. intros (_ & o & Ho & _). by rewrite Hnone in Ho.
    + done.
    + split; [done|]. intros [Hn|(o1 & Ho1 & Hn)]; [done|].
      by rewrite Hnone in Ho1.
Qed.

End NormalizeOutcome.

(** ** [normalizeRecipients] applied to its own result *)

Lemma objects_union_subseteq {A} (f : A -> gset string) (S : gset string)
    (o o' : list A) :
  Forall2 (λ it it', f it' = f it ∪ S) o o' →
  ⋃ (f <$> o') ⊆ S ∪ ⋃ (f <$> o).
Proof.
  induction 1 as [|it it' o o' Hd _ IH]; cbn; [set_solver|].
  rewrite Hd. set_solver.
Qed.

Lemma objects_twice {A} (f : A -> gset string) (S S' U : gset string)
    (o o' o'' : list A) :
  ⋃ (f <$> o) ⊆ U → S' = S ∪ U →
  Forall2 (λ it it', f it' = f it ∪ S) o o' →
  Forall2 (λ it' it'', f it'' = f it' ∪ S') o' o'' →
  Forall (λ it'', f it'' = S') o''.
Proof.
  intros HU ->. intros H1. revert o'' HU.
  induction H1 as [|it it' o o' Hd _ IH]; intros o'' HU H2.
  - apply Forall2_nil_inv_l in H2 as ->. constructor.
  - apply Forall2_cons_inv_l in H2 as (it'' & rest & Hd' & Hrest & ->).
    cbn in HU. constructor.
    + rewrite Hd', Hd. set_solver.
    + apply IH; [set_solver|done].
Qed.

Section NormalizeTwice.

Context {URL : Type} (url_String : URL -> string) {Time : Type}.
Variable range : gmap string URL -> list (string * URL).
Hypothesis range_permutation : ∀ m, range m ≡ₚ map_to_list m.

Abbreviation item := (Item URL (Value URL Time)).

Lemma normalizeRecipients_ids (a a' : Create URL Time) :
  normalizeRecipients url_String range a = Ok a' →
  ∃ o o',
    create_object a = Some o ∧ create_object a' = Some o' ∧
    ∀ d,
      activity_ids url_String d a' =
        activity_ids url_String d a ∪ ⋃ (object_ids url_String d <$> o) ∧
      Forall2 (λ it it', object_ids url_String d it' =
                 object_ids url_String d it ∪ activity_ids url_String d a)
        o o'.
Proof using range_permutation.
  intros H.
  apply normalizeRecipients_shape in H
    as (o & o' & actor & objs & Ho & Ho' & Hloop & Hactor & Hget).
  assert (Hdom : ∀ d, dom (maps_get d actor) = activity_ids url_String d a ∧
                      keyed url_String (maps_get d actor)).
  { intros d. destruct (collect_ids_spec _ _ _ _ (Hactor d)) as (Hd & _ & Hk).
    rewrite dom_empty_L, union_empty_l_L in Hd.
    split; [done|]. apply Hk, keyed_empty. }
  apply (objects_loop_spec _ _ range_permutation) in Hloop as [Hobjs Hmaps];
    [|intros d; apply Hdom].
  exists o, o'. split; [done|]. split; [done|]. intros d.
  destruct (Hdom d) as [HA HkA].
  destruct (object_maps_domains _ d _ _ Hmaps) as [Hdoms Hkeyed].
  split.
  - unfold activity_ids at 1. rewrite Hget. cbn [default from_option id].
    rewrite (apply_fold_ids _ _ range_permutation) by done.
    rewrite Hdoms, HA. apply union_difference_same.
  - eapply Forall2_impl; [exact Hobjs|]. intros it it' Hd. cbn in Hd.
    by rewrite Hd, HA.
Qed.

Lemma objects_loop_addressable (actor : recipientMaps) (i : nat)
    (o o' : list item) (objs : list recipientMaps) :
  objects_loop url_String range actor i o = Ok (o', objs) →
  Forall addressable o'.
Proof.
  revert i o' objs. induction o as [|it o IH]; intros i o' objs;
    cbn [objects_loop].
  - intros [= <- <-]. constructor.
  - destruct (object_normalize url_String range actor i it)
      as [[it' ms]| |] eqn:Hn; cbn [mbind outcome_bind]; try done.
    destruct (objects_loop url_String range actor (S i) o)
      as [[rest objs']| |] eqn:Hl; cbn [mbind outcome_bind]; try done.
    intros [= <- <-]. constructor; [|by eapply IH].
    apply object_normalize_spec in Hn as (v & v' & -> & -> & Hd).
    exists v'. split; [done|]. intros d. destruct (Hd d) as [-> Hc].
    split; [done|]. cbn [slot_list]. apply append_missing_has_id.
    by apply collect_ids_spec in Hc as (_ & ? & _).
Qed.

Lemma apply_fold_has_id (actorMap : gmap string URL)
    (objs : list (gmap string URL)) (p : list item) :
  Forall has_id p →
  Forall has_id
    (foldl (fun p objMap => append_missing range objMap actorMap p) p objs).
Proof.
  revert p. induction objs as [|m objs IH]; intros p Hp; cbn [foldl]; [done|].
  by apply IH, append_missing_has_id.
Qed.

Lemma normalizeRecipients_result (a a' : Create URL Time) :
  normalizeRecipients url_String range a = Ok a' →
  well_addressed a' ∧ Forall addressable (objects_of a').
Proof.
  intros H.
  apply normalizeRecipients_shape in H
    as (o & o' & actor & objs & Ho & Ho' & Hloop & Hactor & Hget).
  split.
  - intros d. rewrite Hget. cbn [default from_option id].
    apply apply_fold_has_id.
    by destruct (collect_ids_spec _ _ _ _ (Hactor d)) as (_ & ? & _).
  - unfold objects_of. rewrite Ho'. cbn [default from_option id].
    by eapply objects_loop_addressable.
Qed.

(** X21.  [normalizeRecipients] can be applied to its own result.  The
    second application leaves the recipients of the activity as they
    are, as sets, and gives every object all of them, so that the
    recipients of one object reach the other objects then. *)
Theorem normalizeRecipients_twice (a a' : Create URL Time) :
  normalizeRecipients url_String range a = Ok a' →
  ∃ a'',
    normalizeRecipients url_String range a' = Ok a'' ∧
    ∀ d,
      activity_ids url_String d a'' = activity_ids url_String d a' ∧
      Forall (λ it, object_ids url_String d it = activity_ids url_String d a')
        (objects_of a'').
Proof using range_permutation.
  intros H.
  destruct (normalizeRecipients_ids _ _ H) as (o & o' & Ho & Ho' & Hd).
  destruct (normalizeRecipients_result _ _ H) as [Hw Hadd].
  unfold objects_of in Hadd. rewrite Ho' in Hadd.
  cbn [default from_option id] in Hadd.
  pose proof (normalizeRecipients_cases url_String range a') as Hc.
  destruct (normalizeRecipients url_String range a') as [a''|e|] eqn:H2.
  - exists a''. split; [done|]. intros d.
    destruct (normalizeRecipients_ids _ _ H2) as (o1 & o'' & Ho1 & Ho'' & Hd').
    rewrite Ho' in Ho1. injection Ho1 as <-.
    destruct (Hd d) as [HA Hobj], (Hd' d) as [HA' Hobj'].
    pose proof (objects_union_subseteq _ _ _ _ Hobj) as Hsub.
    split; [rewrite HA', HA; set_solver|].
    unfold objects_of. rewrite Ho''. cbn [default from_option id].
    by apply (objects_twice (object_ids url_String d)
                (activity_ids url_String d a) (activity_ids url_String d a')
                (⋃ (object_ids url_String d <$> o)) o o' o'').
  - destruct Hc as [Hn|(o1 & Ho1 & Hn)]; [done|].
    rewrite Ho' in Ho1. injection Ho1 as <-. done.
  - destruct Hc as [_ Hnone]. by rewrite Ho' in Hnone.
Qed.

End NormalizeTwice.

Lemma normalizeRecipients_twice_witness :
  ∃ a' a'',
    normalizeRecipients id map_to_list Sample.create_note = Ok a' ∧
    normalizeRecipients id map_to_list a' = Ok a''.
Proof.
  destruct (normalizeRecipients id map_to_list Sample.create_note)
    as [a'| |] eqn:Hn; [|vm_compute in Hn; discriminate Hn..].
  destruct (normalizeRecipients_twice id map_to_list
              (λ m, Permutation_refl (map_to_list m)) _ _ Hn)
    as (a'' & H2 & _).
  exists a', a''. split; [reflexivity|exact H2].
Defined.

(** ** [add] and [remove] *)

Lemma filter_none {A} (P : A -> Prop) `{∀ x, Decision (P x)} (l : list A) :
  Forall (λ x, ¬ P x) l → filter P l = [].
Proof.
  induction 1 as [|x l Hx _ IH]; [done|]. by rewrite filter_cons_False.
Qed.

Section AddRemoveFacts.

Context {URL : Type} (url_String : URL -> string) {Time : Type}.

Abbreviation value := (Value URL Time).
Abbreviation item := (Item URL value).
Abbreviation stored := (@Stored URL Time).
Abbreviation call := (@DbCall URL Time).
Abbreviation store := (@Store URL Time).

Variable IsOrExtendsActivityStreamsOrderedCollection : stored -> bool.
Variable IsOrExtendsActivityStreamsCollection : stored -> bool.
Context {DB : Type}.
Variable db_Lock : DB -> URL -> DB * option string.
Variable db_Unlock : DB -> URL -> DB * option string.
Variable db_Owns : DB -> URL -> DB * (string + bool).
Variable db_Get : DB -> URL -> DB * (string + stored).
Variable db_Update : DB -> stored -> DB * option string.
Context `{URL_eq : EqDecision URL}.

Abbreviation the_loopFn :=
  (loopFn (DB:=DB) db_Lock db_Unlock db_Owns db_Get db_Update).
Abbreviation the_targets_loop :=
  (targets_loop (DB:=DB) db_Lock db_Unlock db_Owns db_Get db_Update).
Abbreviation the_add :=
  (add IsOrExtendsActivityStreamsOrderedCollection
     IsOrExtendsActivityStreamsCollection
     db_Lock db_Unlock db_Owns db_Get db_Update).
Abbreviation the_remove :=
  (remove url_String IsOrExtendsActivityStreamsOrderedCollection
     IsOrExtendsActivityStreamsCollection
     db_Lock db_Unlock db_Owns db_Get db_Update).
Abbreviation the_add_collection :=
  (add_collection IsOrExtendsActivityStreamsOrderedCollection
     IsOrExtendsActivityStreamsCollection).
Abbreviation the_remove_collection :=
  (remove_collection url_String IsOrExtendsActivityStreamsOrderedCollection
     IsOrExtendsActivityStreamsCollection).

(** *** The loops over the ids *)

Lemma ids_have (p : list item) (us : list URL) :
  Forall2 (λ it u, ToId it = Ok u) p us → Forall has_id p.
Proof.
  induction 1 as [|it u p us Hit _ IH]; constructor; [|done].
  unfold has_id. by rewrite Hit.
Qed.

Lemma ids_loop_spec (p : list item) (acc : list URL) :
  match ids_loop p acc with
  | Ok l => ∃ us, l = acc ++ us ∧ Forall2 (λ it u, ToId it = Ok u) p us
  | Err _ => ¬ Forall has_id p
  | Panic => False
  end.
Proof.
  revert acc. induction p as [|it p IH]; intros acc; cbn [ids_loop].
  { exists []. by rewrite app_nil_r. }
  pose proof (ToId_no_panic it) as Hn.
  destruct (ToId it) as [u|e|] eqn:Hit; cbn [mbind outcome_bind]; [|..|done].
  - specialize (IH (acc ++ [u])).
    destruct (ids_loop p (acc ++ [u])) as [l|e|]; [| |done].
    + destruct IH as (us & -> & Hall). exists (u :: us).
      rewrite <- app_assoc. split; [done|]. by constructor.
    + by intros [_ ?]%Forall_cons.
  - intros [Hid _]%Forall_cons. unfold has_id in Hid. by rewrite Hit in Hid.
Qed.

Lemma opIds_loop_spec (p : list item) (m : gmap string bool) :
  match opIds_loop url_String p m with
  | Ok m' =>
      Forall has_id p ∧
      ∀ s, bool_at m' s = true ↔ bool_at m s = true ∨ s ∈ ids url_String p
  | Err _ => ¬ Forall has_id p
  | Panic => False
  end.
Proof.
  revert m. induction p as [|it p IH]; intros m; cbn [opIds_loop].
  { split; [done|]. intros s. rewrite ids_nil. set_solver. }
  pose proof (ToId_no_panic it) as Hn. rewrite ids_cons.
  unfold item_id_string.
  destruct (ToId it) as [u|e|] eqn:Hit; cbn [mbind outcome_bind]; [|..|done].
  - specialize (IH (<[url_String u := true]> m)).
    destruct (opIds_loop url_String p _) as [m'|e|]; [| |done].
    + destruct IH as [Hall Hm]. split.
      * constructor; [|done]. unfold has_id. by rewrite Hit.
      * intros s. rewrite Hm, bool_at_insert_true. set_solver.
    + by intros [_ ?]%Forall_cons.
  - intros [Hid _]%Forall_cons. unfold has_id in Hid. by rewrite Hit in Hid.
Qed.

Lemma append_IRIs_fmap (p : list item) (opIds : list URL) :
  append_IRIs p opIds = p ++ (ItemIRI <$> opIds).
Proof.
  unfold append_IRIs. revert p.
  induction opIds as [|u opIds IH]; intros p; cbn; [by rewrite app_nil_r|].
  by rewrite IH, <- app_assoc.
Qed.

Lemma remove_loop_step (p : list item) (opIds : gmap string bool) (i : nat) :
  remove_loop url_String p opIds i =
  match p !! i with
  | None => Ok p
  | Some it =>
      match ToId it with
      | Ok id =>
          if bool_at opIds (url_String id)
          then remove_loop url_String (delete i p) opIds i
          else remove_loop url_String p opIds (S i)
      | Err e => Err e
      | Panic => Panic
      end
  end.
Proof.
  rewrite remove_loop_unfold_eq.
  unfold remove_loop_unfold, inspect.
  generalize (@eq_refl _ (p !! i)).
  generalize (p !! i) at 2 4 5.
  intros [it|] Hi; [|done]. cbn.
  destruct (ToId it) as [id| |]; cbn; try done.
  by destruct (bool_at opIds (url_String id)).
Qed.

Lemma remove_loop_filter (rest kept : list item) (opIds : gmap string bool) :
  match remove_loop url_String (kept ++ rest) opIds (length kept) with
  | Ok p' =>
      Forall has_id rest ∧
      p' = kept ++
           filter (λ it, bool_at opIds (item_key url_String it) = false) rest
  | Err _ => ¬ Forall has_id rest
  | Panic => False
  end.
Proof.
  revert kept. induction rest as [|x rest IH]; intros kept;
    rewrite remove_loop_step.
  - rewrite app_nil_r, lookup_ge_None_2 by done.
    split; [constructor|]. by rewrite app_nil_r.
  - rewrite list_lookup_middle by done.
    pose proof (ToId_no_panic x) as Hnp.
    destruct (ToId x) as [u|e|] eqn:Hx; [| |done].
    + assert (Hhas : has_id x) by (unfold has_id; by rewrite Hx).
      assert (Hkey : item_key url_String x = url_String u)
        by (unfold item_key; by rewrite Hx).
      destruct (bool_at opIds (url_String u)) eqn:Hb.
      * rewrite delete_middle. specialize (IH kept).
        rewrite filter_cons_False by (rewrite Hkey, Hb; done).
        destruct (remove_loop _ _ _ _); [| |done].
        -- destruct IH as [? ->]. split; [by constructor|done].
        -- by intros [_ ?]%Forall_cons.
      * specialize (IH (kept ++ [x])).
        rewrite <- app_assoc, length_app in IH. cbn in IH.
        replace (length kept + 1) with (S (length kept)) in IH by lia.
        rewrite filter_cons_True by (by rewrite Hkey).
        destruct (remove_loop _ _ _ _); [| |done].
        -- destruct IH as [? ->]. split; [by constructor|].
           by rewrite <- app_assoc.
        -- by intros [_ ?]%Forall_cons.
    + intros [Hid _]%Forall_cons. unfold has_id in Hid. by rewrite Hx in Hid.
Qed.


(** *** The calls to the database *)

Lemma protocol_app (s : LockState) (a b : list call) :
  protocol s (a ++ b) = protocol s a ≫= λ s', protocol s' b.
Proof.
  revert s. induction a as [|c a IH]; intros s; cbn; [done|].
  destruct (protocol_step s c); [apply IH|done].
Qed.

Ltac protocol_run :=
  repeat (cbn [protocol protocol_step app]; rewrite ?decide_True by done);
  try done.

(** One target: the calls fit the protocol and leave no lock behind;
    the value written is the changed value that was read; a return
    without error has taken the lock. *)
Ltac in_list :=
  repeat first [apply list_elem_of_here | apply list_elem_of_further].

Lemma loopFn_spec (change : stored -> outcome stored) (σ : store) (t : URL) :
  ∃ new,
    calls (the_loopFn change σ t).1 = calls σ ++ new ∧
    protocol Free new = Some Free ∧
    Forall (λ c, match c with
                 | CUpdate tp' _ =>
                     ∃ tp, CGet t (inr tp) ∈ new ∧ change tp = Ok tp'
                 | _ => True
                 end) new ∧
    (is_Ok (the_loopFn change σ t).2 → CLock t None ∈ new) ∧
    (new = [] → False).
Proof.
  unfold loopFn, Lock, Owns, Get, Update, Unlock.
  destruct (db_Lock (db σ) t) as [d1 [e|]]; cbn [db calls fst snd].
  { eexists. split; [reflexivity|]. split; [done|].
    split; [by repeat constructor|]. split; [by intros []|done]. }
  destruct (db_Owns d1 t) as [d2 [e|[|]]]; cbn [db calls fst snd].
  - destruct (db_Unlock d2 t) as [d3 eu]; cbn [db calls fst snd].
    eexists. split; [rewrite <- !app_assoc; reflexivity|].
    split; [protocol_run|]. split; [by repeat constructor|].
    split; [by intros []|done].
  - destruct (db_Get d2 t) as [d3 [e|tp]]; cbn [db calls fst snd].
    + destruct (db_Unlock d3 t) as [d4 eu]; cbn [db calls fst snd].
      eexists. split; [rewrite <- !app_assoc; reflexivity|].
      split; [protocol_run|]. split; [by repeat constructor|].
      split; [by intros []|done].
    + destruct (change tp) as [tp'|e|] eqn:Hc; cbn [db calls fst snd].
      * destruct (db_Update d3 tp') as [d4 [eup|]]; cbn [db calls fst snd];
          destruct (db_Unlock d4 t) as [d5 eu]; cbn [db calls fst snd];
          (eexists; split; [rewrite <- !app_assoc; reflexivity|]);
          (split; [protocol_run|]);
          (split; [|split; [intros _; in_list|done]]);
          repeat constructor; exists tp; (split; [in_list|done]).
      * destruct (db_Unlock d3 t) as [d4 eu]; cbn [db calls fst snd].
        eexists. split; [rewrite <- !app_assoc; reflexivity|].
        split; [protocol_run|]. split; [by repeat constructor|].
        split; [by intros []|done].
      * destruct (db_Unlock d3 t) as [d4 eu]; cbn [db calls fst snd].
        eexists. split; [rewrite <- !app_assoc; reflexivity|].
        split; [protocol_run|]. split; [by repeat constructor|].
        split; [by intros []|done].
  - destruct (db_Unlock d2 t) as [d3 eu]; cbn [db calls fst snd].
    eexists. split; [rewrite <- !app_assoc; reflexivity|].
    split; [protocol_run|]. split; [by repeat constructor|].
    split; [intros _; in_list|done].
Qed.

Lemma targets_loop_spec (change : stored -> outcome stored) (σ : store)
    (ts : list URL) :
  ∃ new,
    calls (the_targets_loop change σ ts).1 = calls σ ++ new ∧
    protocol Free new = Some Free ∧
    Forall (λ c, match c with
                 | CUpdate tp' _ =>
                     ∃ t tp, t ∈ ts ∧ CGet t (inr tp) ∈ new ∧
                             change tp = Ok tp'
                 | _ => True
                 end) new ∧
    (is_Ok (the_targets_loop change σ ts).2 →
     Forall (λ t, CLock t None ∈ new) ts) ∧
    (new = [] → (the_targets_loop change σ ts).1 = σ).
Proof.
  revert σ. induction ts as [|t ts IH]; intros σ; cbn [targets_loop].
  { exists []. rewrite app_nil_r. by repeat split. }
  destruct (loopFn_spec change σ t) as (new1 & Hc1 & Hp1 & Hu1 & Hl1 & Hne).
  destruct (the_loopFn change σ t) as [σ1 r1]. cbn [fst snd] in *.
  assert (Hu1' : Forall (λ c, match c with
                   | CUpdate tp' _ =>
                       ∃ t0 tp, t0 ∈ t :: ts ∧ CGet t0 (inr tp) ∈ new1 ∧
                                change tp = Ok tp'
                   | _ => True
                   end) new1).
  { eapply Forall_impl; [exact Hu1|]. intros [ | | | |tp' e]; try done.
    intros (tp & Hin & Hch). exists t, tp.
    split; [apply list_elem_of_here|done]. }
  destruct r1 as [[]|e|].
  - destruct (IH σ1) as (new2 & Hc2 & Hp2 & Hu2 & Hl2 & _).
    exists (new1 ++ new2).
    split; [by rewrite Hc2, Hc1, app_assoc|].
    split; [by rewrite protocol_app, Hp1|].
    split; [|split].
    + apply Forall_app. split.
      * eapply Forall_impl; [exact Hu1'|]. intros [ | | | |tp' e]; try done.
        intros (t0 & tp & Ht0 & Hin & Hch). exists t0, tp.
        split; [done|]. split; [apply elem_of_app; by left|done].
      * eapply Forall_impl; [exact Hu2|]. intros [ | | | |tp' e]; try done.
        intros (t0 & tp & Ht0 & Hin & Hch). exists t0, tp.
        split; [by apply list_elem_of_further|].
        split; [apply elem_of_app; by right|done].
    + intros Hok. constructor; [apply elem_of_app; left; by apply Hl1|].
      eapply Forall_impl; [exact (Hl2 Hok)|]. intros t0 Ht0.
      apply elem_of_app. by right.
    + intros Hnil. apply app_eq_nil in Hnil as [-> _]. by destruct Hne.
  - exists new1. split; [done|]. split; [done|]. split; [done|].
    split; [by intros []|]. intros ->. by destruct Hne.
  - exists new1. split; [done|]. split; [done|]. split; [done|].
    split; [by intros []|]. intros ->. by destruct Hne.
Qed.

(** X23.  The calls [add] and [remove] make to the database fit the
    protocol: a lock is taken only when none is held; [Owns], [Get] and
    [Unlock] are called for the id under lock; [Update] is called only
    under a lock for which [Owns] returned true; and no lock is left
    behind, whether the call returns nil, an error or panics.  When
    an object or a target has no id the database is not called at all,
    and a return without error has locked every target. *)
Theorem add_remove_protocol (adding : bool) (op target : option (list item))
    (σ : store) :
  let run := if adding then the_add op target σ
             else the_remove op target σ in
  ∃ new,
    calls run.1 = calls σ ++ new ∧
    protocol Free new = Some Free ∧
    (is_Ok run.2 →
     ∀ it, it ∈ default [] target →
           ∃ t, ToId it = Ok t ∧ CLock t None ∈ new) ∧
    (¬ (Forall has_id (default [] op) ∧ Forall has_id (default [] target)) →
     run.1 = σ).
Proof.
  cbn zeta.
  assert (Hnone : ∀ r : outcome unit,
            ¬ is_Ok r →
            ∃ new : list call,
              calls (σ, r).1 = calls σ ++ new ∧
              protocol Free new = Some Free ∧
              (is_Ok (σ, r).2 →
               ∀ it, it ∈ default [] target →
                     ∃ t, ToId it = Ok t ∧ CLock t None ∈ new) ∧
              (¬ (Forall has_id (default [] op) ∧
                  Forall has_id (default [] target)) → (σ, r).1 = σ)).
  { intros r Hr. exists []. rewrite app_nil_r. by repeat split. }
  assert (Hloop : ∀ (change : stored -> outcome stored) (o tg : list item)
                    (ts : list URL),
            op = Some o → target = Some tg → Forall has_id o →
            Forall2 (λ it u, ToId it = Ok u) tg ts →
            ∃ new : list call,
              calls (the_targets_loop change σ ts).1 = calls σ ++ new ∧
              protocol Free new = Some Free ∧
              (is_Ok (the_targets_loop change σ ts).2 →
               ∀ it, it ∈ default [] target →
                     ∃ t, ToId it = Ok t ∧ CLock t None ∈ new) ∧
              (¬ (Forall has_id (default [] op) ∧
                  Forall has_id (default [] target)) →
               (the_targets_loop change σ ts).1 = σ)).
  { intros change o tg ts -> -> Ho Hts.
    destruct (targets_loop_spec change σ ts) as (new & Hc & Hp & _ & Hl & _).
    exists new. split; [done|]. split; [done|]. split.
    - intros Hok it Hin. cbn in Hin.
      apply list_elem_of_lookup in Hin as [i Hi].
      destruct (Forall2_lookup_l _ _ _ _ _ Hts Hi) as (t & Ht & Hid).
      exists t. split; [done|].
      specialize (Hl Hok). rewrite Forall_forall in Hl. apply Hl.
      by eapply list_elem_of_lookup_2.
    - intros Hn. destruct Hn. split; [done|]. cbn.
      by eapply ids_have. }
  destruct adding.
  - unfold add. destruct op as [o|]; [|apply Hnone; by intros []].
    pose proof (ids_loop_spec o []) as Ho.
    destruct (ids_loop o []) as [opIds|e|]; [|apply Hnone; by intros []..].
    destruct Ho as (? & _ & Ho).
    destruct target as [tg|]; [|apply Hnone; by intros []].
    pose proof (ids_loop_spec tg []) as Ht.
    destruct (ids_loop tg []) as [targetIds|e|]; [|apply Hnone; by intros []..].
    destruct Ht as (ts & -> & Hts). cbn [app].
    apply (Hloop _ o tg ts); try done. by eapply ids_have.
  - unfold remove. destruct op as [o|]; [|apply Hnone; by intros []].
    pose proof (opIds_loop_spec o ∅) as Ho.
    destruct (opIds_loop url_String o ∅) as [opIds|e|]; [|apply Hnone; by intros []..].
    destruct Ho as [Ho _].
    destruct target as [tg|]; [|apply Hnone; by intros []].
    pose proof (ids_loop_spec tg []) as Ht.
    destruct (ids_loop tg []) as [targetIds|e|]; [|apply Hnone; by intros []..].
    destruct Ht as (ts & -> & Hts). cbn [app].
    by apply (Hloop _ o tg ts).
Qed.

(** *** What is written *)

Lemma add_collection_spec (opIds : list URL) (tp tp' : stored) :
  the_add_collection opIds tp = Ok tp' →
  stored_value tp' = stored_value tp ∧
  if IsOrExtendsActivityStreamsOrderedCollection tp then
    orderedItems tp' =
      Prop_ (slot_list (orderedItems tp) ++ (ItemIRI <$> opIds)) ∧
    items tp' = items tp
  else
    items tp' = Prop_ (slot_list (items tp) ++ (ItemIRI <$> opIds)) ∧
    orderedItems tp' = orderedItems tp.
Proof.
  unfold add_collection.
  destruct (IsOrExtendsActivityStreamsOrderedCollection tp).
  - destruct (orderedItems tp) as [| |q]; [done|..]; intros [= <-]; cbn;
      by rewrite append_IRIs_fmap.
  - destruct (IsOrExtendsActivityStreamsCollection tp); [|done].
    destruct (items tp) as [| |q]; [done|..]; intros [= <-]; cbn;
      by rewrite append_IRIs_fmap.
Qed.

Lemma remove_collection_spec (op : list item) (opIds : gmap string bool)
    (tp tp' : stored) :
  (∀ s, bool_at opIds s = true ↔ s ∈ ids url_String op) →
  the_remove_collection opIds tp = Ok tp' →
  stored_value tp' = stored_value tp ∧
  if IsOrExtendsActivityStreamsOrderedCollection tp then
    orderedItems tp' =
      filtered (λ it, item_key url_String it ∉ ids url_String op)
        (orderedItems tp) ∧
    items tp' = items tp ∧
    Forall has_id (slot_list (orderedItems tp))
  else
    items tp' =
      filtered (λ it, item_key url_String it ∉ ids url_String op)
        (items tp) ∧
    orderedItems tp' = orderedItems tp ∧
    Forall has_id (slot_list (items tp)).
Proof.
  intros Hm.
  assert (Hf : ∀ q : list item,
            filter (λ it, bool_at opIds (item_key url_String it) = false) q
            = filter (λ it, item_key url_String it ∉ ids url_String op) q).
  { intros q. apply list_filter_iff. intros it.
    by rewrite <- not_true_iff_false, Hm. }
  unfold remove_collection.
  destruct (IsOrExtendsActivityStreamsOrderedCollection tp).
  - destruct (orderedItems tp) as [| |q] eqn:Hq; [done|..].
    + intros [= <-]. rewrite Hq. by repeat split.
    + pose proof (remove_loop_filter q [] opIds) as Hl.
      cbn [app length] in Hl.
      destruct (remove_loop url_String q opIds 0) as [q'|e|];
        cbn [mbind outcome_bind]; [|done..].
      destruct Hl as [Hall ->]. intros [= <-]. cbn. by rewrite Hf.
  - destruct (IsOrExtendsActivityStreamsCollection tp); [|done].
    destruct (items tp) as [| |q] eqn:Hq; [done|..].
    + intros [= <-]. rewrite Hq. by repeat split.
    + pose proof (remove_loop_filter q [] opIds) as Hl.
      cbn [app length] in Hl.
      destruct (remove_loop url_String q opIds 0) as [q'|e|];
        cbn [mbind outcome_bind]; [|done..].
      destruct Hl as [Hall ->]. intros [= <-]. cbn. by rewrite Hf.
Qed.

(** X24.  What [add] writes: every value handed to [Update] is a value
    [Get] returned for a target, with the ids of the objects appended as
    IRIs, in their order, to its [orderedItems] when it is an
    OrderedCollection and to its [items] otherwise.  Nothing already in
    the collection is removed, reordered or compared with what is
    added. *)
Theorem add_appends (op target : option (list item)) (σ : store) :
  ∃ new,
    calls (the_add op target σ).1 = calls σ ++ new ∧
    Forall (λ c, match c with
                 | CUpdate tp' _ =>
                     ∃ t tp opIds,
                       CGet t (inr tp) ∈ new ∧
                       Forall2 (λ it u, ToId it = Ok u) (default [] op) opIds ∧
                       stored_value tp' = stored_value tp ∧
                       if IsOrExtendsActivityStreamsOrderedCollection tp then
                         orderedItems tp' =
                           Prop_ (slot_list (orderedItems tp) ++
                                  (ItemIRI <$> opIds)) ∧
                         items tp' = items tp
                       else
                         items tp' =
                           Prop_ (slot_list (items tp) ++
                                  (ItemIRI <$> opIds)) ∧
                         orderedItems tp' = orderedItems tp
                 | _ => True
                 end) new.
Proof using URL_eq.
  assert (Hnone : ∀ r : outcome unit,
            ∃ new : list call,
              calls (σ, r).1 = calls σ ++ new ∧
              Forall (λ c, match c with
                 | CUpdate tp' _ =>
                     ∃ t tp opIds,
                       CGet t (inr tp) ∈ new ∧
                       Forall2 (λ it u, ToId it = Ok u) (default [] op) opIds ∧
                       stored_value tp' = stored_value tp ∧
                       if IsOrExtendsActivityStreamsOrderedCollection tp then
                         orderedItems tp' =
                           Prop_ (slot_list (orderedItems tp) ++
                                  (ItemIRI <$> opIds)) ∧
                         items tp' = items tp
                       else
                         items tp' =
                           Prop_ (slot_list (items tp) ++
                                  (ItemIRI <$> opIds)) ∧
                         orderedItems tp' = orderedItems tp
                 | _ => True
                 end) new).
  { intros r. exists []. rewrite app_nil_r. by split. }
  unfold add. destruct op as [o|]; [|apply Hnone].
  pose proof (ids_loop_spec o []) as Ho.
  destruct (ids_loop o []) as [opIds|e|]; [|apply Hnone..].
  destruct Ho as (us & -> & Ho). cbn [app].
  destruct target as [tg|]; [|apply Hnone].
  destruct (ids_loop tg []) as [targetIds|e|]; [|apply Hnone..].
  destruct (targets_loop_spec (the_add_collection us) σ targetIds)
    as (new & Hc & _ & Hu & _).
  exists new. split; [done|].
  eapply Forall_impl; [exact Hu|]. intros [ | | | |tp' e]; try done.
  intros (t & tp & _ & Hin & Hch). exists t, tp, us.
  split; [done|]. split; [done|]. by apply add_collection_spec.
Qed.

(** X25.  What [remove] writes: every value handed to [Update] is a
    value [Get] returned for a target, all of whose entries had an id,
    with the entries whose id is an id of an object taken out of its
    [orderedItems] when it is an OrderedCollection and out of its
    [items] otherwise; a nil property stays nil. *)
Theorem remove_filters (op target : option (list item)) (σ : store) :
  ∃ new,
    calls (the_remove op target σ).1 = calls σ ++ new ∧
    Forall (λ c, match c with
                 | CUpdate tp' _ =>
                     ∃ t tp,
                       CGet t (inr tp) ∈ new ∧
                       stored_value tp' = stored_value tp ∧
                       if IsOrExtendsActivityStreamsOrderedCollection tp then
                         orderedItems tp' =
                           filtered
                             (λ it, item_key url_String it ∉
                                    ids url_String (default [] op))
                             (orderedItems tp) ∧
                         items tp' = items tp ∧
                         Forall has_id (slot_list (orderedItems tp))
                       else
                         items tp' =
                           filtered
                             (λ it, item_key url_String it ∉
                                    ids url_String (default [] op))
                             (items tp) ∧
                         orderedItems tp' = orderedItems tp ∧
                         Forall has_id (slot_list (items tp))
                 | _ => True
                 end) new.
Proof using URL_eq.
  assert (Hnone : ∀ r : outcome unit,
            ∃ new : list call,
              calls (σ, r).1 = calls σ ++ new ∧
              Forall (λ c, match c with
                 | CUpdate tp' _ =>
                     ∃ t tp,
                       CGet t (inr tp) ∈ new ∧
                       stored_value tp' = stored_value tp ∧
                       if IsOrExtendsActivityStreamsOrderedCollection tp then
                         orderedItems tp' =
                           filtered
                             (λ it, item_key url_String it ∉
                                    ids url_String (default [] op))
                             (orderedItems tp) ∧
                         items tp' = items tp ∧
                         Forall has_id (slot_list (orderedItems tp))
                       else
                         items tp' =
                           filtered
                             (λ it, item_key url_String it ∉
                                    ids url_String (default [] op))
                             (items tp) ∧
                         orderedItems tp' = orderedItems tp ∧
                         Forall has_id (slot_list (items tp))
                 | _ => True
                 end) new).
  { intros r. exists []. rewrite app_nil_r. by split. }
  unfold remove. destruct op as [o|]; [|apply Hnone].
  pose proof (opIds_loop_spec o ∅) as Ho.
  destruct (opIds_loop url_String o ∅) as [opIds|e|]; [|apply Hnone..].
  destruct Ho as [_ Hm].
  assert (Hm' : ∀ s, bool_at opIds s = true ↔ s ∈ ids url_String o).
  { intros s. rewrite Hm, bool_at_empty. naive_solver. }
  destruct target as [tg|]; [|apply Hnone].
  destruct (ids_loop tg []) as [targetIds|e|]; [|apply Hnone..].
  destruct (targets_loop_spec (the_remove_collection opIds) σ targetIds)
    as (new & Hc & _ & Hu & _).
  exists new. split; [done|].
  eapply Forall_impl; [exact Hu|]. intros [ | | | |tp' e]; try done.
  intros (t & tp & _ & Hin & Hch). exists t, tp.
  split; [done|]. by apply (remove_collection_spec o opIds).
Qed.

(** *** [remove] after [add] *)

Lemma ids_of_ids (op : list item) (us : list URL) :
  Forall2 (λ it u, ToId it = Ok u) op us →
  ids url_String op = list_to_set (url_String <$> us).
Proof.
  induction 1 as [|it u op us Hit _ IH]; [done|].
  rewrite ids_cons. unfold item_id_string. rewrite Hit, IH. done.
Qed.

(** X26.  [remove] undoes [add].  Let the type predicates depend on the
    value only, not on what its collection holds.  When [add] has
    appended the objects of [op] to a collection, [remove] for the same
    [op] leaves the entries the collection had before that are not
    objects of [op], and nothing of what was appended; it fails exactly
    when one of the earlier entries has no id. *)
Theorem remove_after_add (op : list item) (opIds : list URL)
    (opMap : gmap string bool) (tp tp1 : stored) :
  (∀ v p q p' q',
     IsOrExtendsActivityStreamsOrderedCollection (mkStored v p q) =
     IsOrExtendsActivityStreamsOrderedCollection (mkStored v p' q')) →
  (∀ v p q p' q',
     IsOrExtendsActivityStreamsCollection (mkStored v p q) =
     IsOrExtendsActivityStreamsCollection (mkStored v p' q')) →
  ids_loop op [] = Ok opIds →
  opIds_loop url_String op ∅ = Ok opMap →
  the_add_collection opIds tp = Ok tp1 →
  let entries :=
    if IsOrExtendsActivityStreamsOrderedCollection tp
    then slot_list (orderedItems tp) else slot_list (items tp) in
  match the_remove_collection opMap tp1 with
  | Ok tp2 =>
      Forall has_id entries ∧
      stored_value tp2 = stored_value tp ∧
      if IsOrExtendsActivityStreamsOrderedCollection tp then
        orderedItems tp2 =
          Prop_ (filter (λ it, item_key url_String it ∉ ids url_String op)
                   entries) ∧
        items tp2 = items tp
      else
        items tp2 =
          Prop_ (filter (λ it, item_key url_String it ∉ ids url_String op)
                   entries) ∧
        orderedItems tp2 = orderedItems tp
  | Err _ => ¬ Forall has_id entries
  | Panic => False
  end.
Proof.
  intros Hord Hcoll Hids Hmap Hadd. cbn zeta.
  pose proof (ids_loop_spec op []) as Hi. rewrite Hids in Hi.
  destruct Hi as (us & -> & Hus). cbn [app] in *.
  pose proof (opIds_loop_spec op ∅) as Hm. rewrite Hmap in Hm.
  destruct Hm as [_ Hm].
  assert (Hm' : ∀ s, bool_at opMap s = true ↔ s ∈ ids url_String op).
  { intros s. rewrite Hm, bool_at_empty. naive_solver. }
  assert (Hnew : ∀ q : list item,
            match remove_loop url_String (q ++ (ItemIRI <$> us)) opMap 0 with
            | Ok q' =>
                Forall has_id q ∧
                q' = filter (λ it, item_key url_String it ∉ ids url_String op)
                       q
            | Err _ => ¬ Forall has_id q
            | Panic => False
            end).
  { intros q.
    pose proof (remove_loop_filter (q ++ (ItemIRI <$> us)) [] opMap) as Hl.
    cbn [app length] in Hl.
    destruct (remove_loop url_String (q ++ (ItemIRI <$> us)) opMap 0)
      as [q'|e|]; [| |done].
    - destruct Hl as [Hall ->]. apply Forall_app in Hall as [Hall _].
      split; [done|]. rewrite filter_app.
      assert (Hgone : filter
                (λ it : item, bool_at opMap (item_key url_String it) = false)
                (ItemIRI <$> us) = []).
      { apply filter_none, Forall_forall. intros it Hin.
        apply list_elem_of_fmap in Hin as (u & -> & Hu).
        rewrite not_false_iff_true, Hm', (ids_of_ids _ _ Hus).
        apply elem_of_list_to_set, list_elem_of_fmap. by exists u. }
      rewrite Hgone, app_nil_r. apply list_filter_iff. intros it.
      by rewrite <- not_true_iff_false, Hm'.
    - intros Hq. apply Hl, Forall_app. split; [done|].
      apply Forall_forall. intros it Hin.
      by apply list_elem_of_fmap in Hin as (u & -> & Hu). }
  destruct tp as [v oi i0]. unfold add_collection in Hadd.
  unfold remove_collection.
  destruct (IsOrExtendsActivityStreamsOrderedCollection (mkStored v oi i0))
    eqn:Ho; cbn [orderedItems items stored_value] in *.
  - assert (Htp1 : tp1 = mkStored v
                     (Prop_ (slot_list oi ++ (ItemIRI <$> us))) i0).
    { destruct oi as [| |q]; [done|..]; injection Hadd as <-;
        by rewrite append_IRIs_fmap. }
    subst tp1. rewrite (Hord v _ _ oi i0), Ho. cbn [orderedItems].
    specialize (Hnew (slot_list oi)).
    destruct (remove_loop url_String _ opMap 0) as [q'|e|];
      cbn [mbind outcome_bind]; [|done..].
    destruct Hnew as [Hall ->]. by repeat split.
  - destruct (IsOrExtendsActivityStreamsCollection (mkStored v oi i0))
      eqn:Hc; [|done].
    assert (Htp1 : tp1 = mkStored v oi
                     (Prop_ (slot_list i0 ++ (ItemIRI <$> us)))).
    { destruct i0 as [| |q]; [done|..]; injection Hadd as <-;
        by rewrite append_IRIs_fmap. }
    subst tp1. rewrite (Hord v _ _ oi i0), Ho, (Hcoll v _ _ oi i0), Hc.
    cbn [items orderedItems stored_value].
    specialize (Hnew (slot_list i0)).
    destruct (remove_loop url_String _ opMap 0) as [q'|e|];
      cbn [mbind outcome_bind]; [|done..].
    destruct Hnew as [Hall ->]. by repeat split.
Qed.

End AddRemoveFacts.

Lemma remove_after_add_witness :
  let op : list Sample.item := [ItemIRI "https://c.example/note/2"] in
  match
    add_collection MoreSamples.IsOrExtendsActivityStreamsOrderedCollection
      MoreSamples.IsOrExtendsActivityStreamsCollection
      ["https://c.example/note/2"] MoreSamples.liked
    ≫= remove_collection id
         MoreSamples.IsOrExtendsActivityStreamsOrderedCollection
         MoreSamples.IsOrExtendsActivityStreamsCollection
         {[ "https://c.example/note/2" := true ]}
  with
  | Ok tp2 =>
      orderedItems tp2 =
        Prop_ (filter (λ it, item_key id it ∉ ids id op)
                 (slot_list (orderedItems MoreSamples.liked)))
  | _ => False
  end.
Proof.
  cbn zeta.
  assert (Hadd : add_collection
                   MoreSamples.IsOrExtendsActivityStreamsOrderedCollection
                   MoreSamples.IsOrExtendsActivityStreamsCollection
                   ["https://c.example/note/2"] MoreSamples.liked
                 = Ok (mkStored (stored_value MoreSamples.liked)
                         (Prop_ [ItemIRI "https://b.example/note/1";
                                 ItemIRI "https://c.example/note/2";
                                 ItemIRI "https://c.example/note/2"])
                         Absent)) by reflexivity.
  rewrite Hadd. cbn [mbind outcome_bind].
  pose proof (remove_after_add id
                MoreSamples.IsOrExtendsActivityStreamsOrderedCollection
                MoreSamples.IsOrExtendsActivityStreamsCollection
                [ItemIRI "https://c.example/note/2"]
                ["https://c.example/note/2"]
                {[ "https://c.example/note/2" := true ]}
                MoreSamples.liked _
                (λ v p q p' q', eq_refl) (λ v p q p' q', eq_refl)
                eq_refl eq_refl Hadd) as H.
  cbn zeta in H.
  destruct (remove_collection _ _ _ _ _) as [tp2|e|].
  - destruct H as (_ & _ & H). exact (proj1 H).
  - destruct H. repeat constructor.
  - exact H.
Defined.

(** ** What [serialize] keeps *)

Lemma clean_value_lookup (path : list string) (j : JSON) :
  jsonLDContext ∉ path →
  path ≠ [] →
  lookup_path path (clean_value j) = clean_value <$> lookup_path path j.
Proof.
  revert j. induction path as [|k path IH]; intros j Hnot Hne; [done|].
  apply not_elem_of_cons in Hnot as [Hk Hnot].
  destruct j as [| | | | |n|]; try done. cbn.
  rewrite lookup_delete_ne, lookup_fmap by done.
  destruct (n !! k) as [x|]; cbn; [|done].
  destruct path as [|k' path]; [done|]. by apply IH.
Qed.

Lemma max_fold_ge (m : gmap string nat) (k : string) (d : nat) :
  m !! k = Some d → d ≤ map_fold (fun _ d acc => Nat.max d acc) 0 m.
Proof.
  induction m as [|i x m Hi IH] using map_ind; [by rewrite lookup_empty|].
  rewrite map_fold_insert_L; [|intros; lia|done].
  destruct (decide (i = k)) as [->|Hne].
  - rewrite lookup_insert_eq. intros [= ->]. lia.
  - rewrite lookup_insert_ne by done. intros Hk. specialize (IH Hk). lia.
Qed.

Lemma json_depth_lookup (n : gmap string JSON) (k : string) (x : JSON) :
  n !! k = Some x → json_depth x < json_depth (JMap n).
Proof.
  intros Hk. cbn. apply Nat.lt_succ_r, (max_fold_ge _ k).
  by rewrite lookup_fmap, Hk.
Qed.

Lemma clean_value_idempotent (j : JSON) :
  clean_value (clean_value j) = clean_value j.
Proof.
  remember (json_depth j) as d eqn:Hd. revert j Hd.
  induction (lt_wf d) as [d _ IH]. intros [| | | | |n|] Hd; try done.
  cbn. f_equal.
  rewrite fmap_delete, <- map_fmap_compose, delete_delete_eq. f_equal.
  apply map_fmap_ext. intros k x Hx. cbn.
  apply (IH (json_depth x)); [|done]. subst d. by eapply json_depth_lookup.
Qed.

(** X27.  [serialize] loses nothing but [@context] keys: whatever is
    reached from the root of what [Serialize] returned along keys other
    than [@context] is reached along the same keys in the result, with
    its own nested [@context] keys deleted; and what is cleaned once is
    not changed by cleaning it again. *)
Theorem serialize_keeps (range : gmap string string -> list (string * string))
    (m : gmap string JSON) (v : gmap string string) :
  match serialize range (Ok m) v with
  | Ok m' =>
      (∀ path, path ≠ [] → jsonLDContext ∉ path →
         lookup_path path (JMap m') = clean_value <$> lookup_path path (JMap m)) ∧
      (∀ l, clean_value (JArray l) = JArray l) ∧
      cleanFnRecur m' = m'
  | _ => False
  end.
Proof.
  cbn. split; [|split; [done|]].
  - intros [|k path] Hne Hnot; [done|].
    apply not_elem_of_cons in Hnot as [Hk Hnot]. cbn.
    unfold cleanFnRecur. rewrite lookup_fmap, lookup_insert_ne by done.
    destruct (m !! k) as [x|]; cbn; [|done].
    destruct path as [|k' path]; [done|]. by apply clean_value_lookup.
  - unfold cleanFnRecur. rewrite <- map_fmap_compose.
    apply map_fmap_ext. intros k x _. apply clean_value_idempotent.
Qed.

(** ** When the actors of the objects are accepted *)

Section ActorsMatchOutcome.

Context {URL : Type} (url_String : URL -> string) {Time : Type}.

Abbreviation item := (Item URL (Value URL Time)).

Lemma actor_id_map_spec (actors : list item) (m : gmap string bool) :
  match actor_id_map url_String m actors with
  | Ok m' =>
      Forall has_id actors ∧
      ∀ s, bool_at m' s = true ↔
           bool_at m s = true ∨ s ∈ ids url_String actors
  | Err _ => ¬ Forall has_id actors
  | Panic => False
  end.
Proof.
  revert m. induction actors as [|it p IH]; intros m; cbn [actor_id_map].
  { split; [done|]. intros s. rewrite ids_nil. set_solver. }
  pose proof (ToId_no_panic it) as Hn. rewrite ids_cons.
  unfold item_id_string.
  destruct (ToId it) as [u|e|] eqn:Hit; cbn [mbind outcome_bind]; [|..|done].
  - specialize (IH (<[url_String u := true]> m)).
    destruct (actor_id_map url_String _ p) as [m'|e|]; [| |done].
    + destruct IH as [Hall Hm]. split.
      * constructor; [|done]. unfold has_id. by rewrite Hit.
      * intros s. rewrite Hm, bool_at_insert_true. set_solver.
    + by intros [_ ?]%Forall_cons.
  - intros [Hid _]%Forall_cons. unfold has_id in Hid. by rewrite Hit in Hid.
Qed.

Lemma object_actors_listed_spec (m : gmap string bool)
    (objActors : list item) :
  match object_actors_listed url_String m objActors with
  | Ok _ =>
      Forall (λ a, has_id a ∧ bool_at m (item_key url_String a) = true)
        objActors
  | Err _ =>
      ¬ Forall (λ a, has_id a ∧ bool_at m (item_key url_String a) = true)
          objActors
  | Panic => False
  end.
Proof.
  induction objActors as [|a p IH]; cbn [object_actors_listed]; [done|].
  pose proof (ToId_no_panic a) as Hn.
  destruct (ToId a) as [u|e|] eqn:Ha; cbn [mbind outcome_bind]; [|..|done].
  - assert (Hkey : item_key url_String a = url_String u)
      by (unfold item_key; by rewrite Ha).
    destruct (bool_at m (url_String u)) eqn:Hb; cbn [negb].
    + destruct (object_actors_listed url_String m p); [| |done].
      * constructor; [|done]. split; [unfold has_id; by rewrite Ha|].
        by rewrite Hkey.
      * by intros [_ ?]%Forall_cons.
    + intros [[_ Hl] _]%Forall_cons. rewrite Hkey in Hl. congruence.
  - intros [[Hid _] _]%Forall_cons. unfold has_id in Hid.
    by rewrite Ha in Hid.
Qed.

Context {Tport : Type}.
Variable newTransport : URL -> string -> outcome Tport.
Variable Dereference : Tport -> URL -> outcome (list Byte.byte).
Variable json_Unmarshal : list Byte.byte -> outcome (gmap string JSON).
Variable streams_ToType : gmap string JSON -> outcome (Value URL Time).
Variable goFedUserAgent : string.

Lemma object_value_spec (boxIRI : URL) (it : item) (t : Value URL Time) :
  object_value newTransport Dereference json_Unmarshal streams_ToType
    goFedUserAgent boxIRI it = Ok t ↔
  ∃ iri tport b m,
    it = ItemIRI iri ∧
    newTransport boxIRI goFedUserAgent = Ok tport ∧
    Dereference tport iri = Ok b ∧
    json_Unmarshal b = Ok m ∧
    streams_ToType m = Ok t.
Proof.
  unfold object_value. split.
  - destruct it as [iri|v|x]; cbn; [|done..].
    destruct (newTransport boxIRI goFedUserAgent) as [tport|e|] eqn:Hn;
      cbn; [|done..].
    destruct (Dereference tport iri) as [b|e|] eqn:Hd; cbn; [|done..].
    destruct (json_Unmarshal b) as [m|e|] eqn:Hj; cbn; [|done..].
    intros Ht. by exists iri, tport, b, m.
  - intros (iri & tport & b & m & -> & Hn & Hd & Hj & Ht). cbn.
    rewrite Hn. cbn. rewrite Hd. cbn. by rewrite Hj.
Qed.

Lemma objects_actors_listed_spec (m : gmap string bool) (boxIRI : URL)
    (op : list item) :
  objects_actors_listed url_String newTransport Dereference json_Unmarshal
    streams_ToType goFedUserAgent m boxIRI op = Ok tt ↔
  Forall (λ it,
    ∃ t objActors,
      object_value newTransport Dereference json_Unmarshal streams_ToType
        goFedUserAgent boxIRI it = Ok t ∧
      actor t = Prop_ objActors ∧
      Forall (λ a, has_id a ∧ bool_at m (item_key url_String a) = true)
        objActors) op.
Proof.
  induction op as [|it op IH]; cbn [objects_actors_listed]; [done|].
  rewrite Forall_cons, <- IH. clear IH.
  destruct (object_value _ _ _ _ _ boxIRI it) as [t|e|] eqn:Hv;
    cbn [mbind outcome_bind].
  - destruct (actor t) as [| |objActors] eqn:Ha.
    + split; [done|]. intros [(t' & oa & [= <-] & Ha' & _) _]. congruence.
    + split; [done|]. intros [(t' & oa & [= <-] & Ha' & _) _]. congruence.
    + pose proof (object_actors_listed_spec m objActors) as Hl.
      destruct (object_actors_listed url_String m objActors) as [[]|e|];
        cbn [mbind outcome_bind]; [| |done].
      * split; [|by intros [_ ?]]. intros Hrest. split; [|done].
        by exists t, objActors.
      * split; [done|]. intros [(t' & oa & [= <-] & Ha' & Hall) _].
        rewrite Ha in Ha'. injection Ha' as <-. done.
  - split; [done|]. by intros [(t' & oa & Hv' & _) _].
  - split; [done|]. by intros [(t' & oa & Hv' & _) _].
Qed.

(** X28.  [mustHaveActivityActorsMatchObjectActors] returns nil exactly
    when every actor of the activity has an id and every element of the
    [object] property is an IRI for which a transport is made, the IRI is
    dereferenced, the answer parses into a value, and that value has an
    [actor] property every entry of which has an id that is the id of an
    actor of the activity.  An activity with any other element in
    [object], an embedded value included, is turned down. *)
Theorem mustHaveActivityActorsMatchObjectActors_outcome
    (actors op : list item) (boxIRI : URL) :
  mustHaveActivityActorsMatchObjectActors url_String newTransport
    Dereference json_Unmarshal streams_ToType goFedUserAgent
    actors op boxIRI = Ok tt ↔
  Forall has_id actors ∧
  Forall (λ it,
    ∃ iri tport b m t objActors,
      it = ItemIRI iri ∧
      newTransport boxIRI goFedUserAgent = Ok tport ∧
      Dereference tport iri = Ok b ∧
      json_Unmarshal b = Ok m ∧
      streams_ToType m = Ok t ∧
      actor t = Prop_ objActors ∧
      Forall (λ a, has_id a ∧
                   item_key url_String a ∈ ids url_String actors)
        objActors) op.
Proof.
  unfold mustHaveActivityActorsMatchObjectActors.
  pose proof (actor_id_map_spec actors ∅) as Hm.
  destruct (actor_id_map url_String ∅ actors) as [m|e|];
    cbn [mbind outcome_bind]; [| |done].
  2: { split; [done|]. by intros [? _]. }
  destruct Hm as [Hall Hm].
  assert (Hm' : ∀ s, bool_at m s = true ↔ s ∈ ids url_String actors).
  { intros s. rewrite Hm, bool_at_empty. naive_solver. }
  rewrite objects_actors_listed_spec. split.
  - intros Hop. split; [done|].
    eapply Forall_impl; [exact Hop|]. intros it (t & oa & Hv & Ha & Hl).
    apply object_value_spec in Hv as (iri & tport & b & m0 & -> & ? & ? & ? & ?).
    exists iri, tport, b, m0, t, oa. repeat (split; [done|]).
    eapply Forall_impl; [exact Hl|]. intros a [Hid Hb].
    split; [done|]. by apply Hm'.
  - intros [_ Hop].
    eapply Forall_impl; [exact Hop|].
    intros it (iri & tport & b & m0 & t & oa & -> & Hn & Hd & Hj & Ht & Ha & Hl).
    exists t, oa. split; [|split; [done|]].
    + apply object_value_spec. by exists iri, tport, b, m0.
    + eapply Forall_impl; [exact Hl|]. intros a [Hid Hb].
      split; [done|]. by apply Hm'.
Qed.

End ActorsMatchOutcome.

(** ** [BatchDeliver] to one recipient *)

Section SingleRecipient.

Context {URL : Type} (url_String url_Host : URL -> string) {World : Type}.
Variable clock_Now : World -> World * string.
Variable http_NewRequest : string -> string -> option string.
Variable sha256_Sum256 : list Byte.byte -> list Byte.byte.
Variable base64_EncodeToString : list Byte.byte -> string.
Variable SignRequest : World -> Request -> World * Request * option string.
Variable client_Do :
  World -> Request -> list Byte.byte ->
  World * list Byte.byte * (string + Response).
Variable fmt_extra :
  list Byte.byte -> list Byte.byte -> gmap string (list string) -> string.
Variables appAgent gofedAgent : string.

Abbreviation deliver :=
  (Deliver url_String url_Host clock_Now http_NewRequest sha256_Sum256
     base64_EncodeToString SignRequest client_Do fmt_extra appAgent
     gofedAgent).
Abbreviation tstep :=
  (task_step url_String url_Host clock_Now http_NewRequest sha256_Sum256
     base64_EncodeToString SignRequest client_Do fmt_extra appAgent
     gofedAgent).
Abbreviation bstep :=
  (batch_step url_String url_Host clock_Now http_NewRequest sha256_Sum256
     base64_EncodeToString SignRequest client_Do fmt_extra appAgent
     gofedAgent).
Abbreviation batchDeliver :=
  (BatchDeliver url_String url_Host clock_Now http_NewRequest sha256_Sum256
     base64_EncodeToString SignRequest client_Do fmt_extra appAgent
     gofedAgent).
Abbreviation schedule :=
  (run_schedule url_String url_Host clock_Now http_NewRequest sha256_Sum256
     base64_EncodeToString SignRequest client_Do fmt_extra appAgent
     gofedAgent).

Lemma schedule_done (b n : nat) (β : @Batch URL World) (r : URL)
    (err : option string) :
  tasks β = [TDone r err] → schedule b (replicate n 0) β = β.
Proof.
  intros Ht. induction n as [|n IH]; [done|].
  unfold run_schedule in *. cbn [replicate foldl].
  unfold task_step at 2. rewrite Ht. cbn. exact IH.
Qed.

(** With one goroutine there is one run. *)
Lemma single_task_run (b : nat) (β β' : @Batch URL World) :
  rtc (bstep b) β β' →
  ∀ (t : @task URL) (n : nat),
    tasks β = [t] → task_remaining t ≤ n →
    batch_finished β' = true →
    β' = schedule b (replicate n 0) β.
Proof.
  induction 1 as [β|β β1 β2 Hstep Hrun IH]; intros t n Ht Hn Hfin.
  - unfold batch_finished in Hfin. rewrite Ht in Hfin. cbn in Hfin.
    destruct t as [r|r l req|r l req|r err|r err]; try done.
    symmetry. by eapply schedule_done.
  - destruct Hstep as [i Hstep]. pose proof Hstep as Hcases.
    apply tstep_cases in Hcases
      as (t0 & t' & Hi & Ht' & _ & Hlt & _).
    rewrite Ht in Hi, Ht'.
    destruct i as [|i]; [|by destruct i]. injection Hi as <-.
    cbn in Ht'.
    destruct n as [|n]; [lia|].
    unfold run_schedule. cbn [replicate foldl]. rewrite Hstep.
    cbn [default from_option id].
    apply (IH t' n); [done|lia|done].
Qed.

(** X29.  [BatchDeliver] to a single recipient is [Deliver] to that
    recipient: it leaves what [Deliver] leaves, and returns nil when
    [Deliver] does and otherwise the error of [Deliver] behind the words
    of the batch. *)
Theorem BatchDeliver_single (σ σ' : @Machine World) (b : nat) (r : URL)
    (res : option string) :
  batchDeliver σ b [r] σ' res ↔
  σ' = (deliver σ b r).1 ∧
  res = match (deliver σ b r).2 with
        | None => None
        | Some e => Some ("batch deliver had at least one failure: " +:+ e)
        end.
Proof.
  pose (βd := mkBatch (deliver σ b r).1 [@TDone URL r (deliver σ b r).2]
                (option_list (deliver σ b r).2)).
  assert (Hrun : rtc (bstep b) (batch_init σ [r]) βd).
  { eapply rtc_r.
    - apply (deliver_as_steps url_String url_Host clock_Now http_NewRequest
               sha256_Sum256 base64_EncodeToString SignRequest client_Do
               fmt_extra appAgent gofedAgent b (batch_init σ [r]) 0 r).
      done.
    - exists 0. unfold task_step. cbn.
      by destruct (deliver σ b r).2. }
  assert (Hfin : batch_finished βd = true) by done.
  assert (Hres : batch_result βd =
                 match (deliver σ b r).2 with
                 | None => None
                 | Some e =>
                     Some ("batch deliver had at least one failure: " +:+ e)
                 end).
  { unfold batch_result, βd. cbn [errCh].
    by destruct (deliver σ b r).2. }
  split.
  - intros (β & Hβ & Hf & -> & ->).
    assert (Heq : β = βd).
    { rewrite (single_task_run b _ _ Hβ (TReady r) 4 eq_refl (le_n _) Hf).
      symmetry.
      apply (single_task_run b _ _ Hrun (TReady r) 4 eq_refl (le_n _) Hfin). }
    subst β. by split.
  - intros [-> ->]. exists βd. by repeat split.
Qed.

End SingleRecipient.
